(** * sim-os: the scheduler engine and the DSL interpreter

    A shallow embedding of [src/simulations/Scheduler.hpp], of
    [src/lang/Interpreter.hpp] and of the computing parts of
    [src/gui/Gui.hpp], the properties of the engine that the specification
    states about them, and further properties of the code.

    Conventions of the embedding.
    - [std::size_t] is a [Z] in [0, 2^64); arithmetic on it wraps ([wrap64]).
    - [std::array<T, MAX_THREADS>] is a [list T]; [operator[]] past the end
      is undefined behaviour and is the outcome [OutOfBounds].
    - [std::deque] and [std::vector] are lists, [push_back] appends at the end.
    - [std::shared_ptr<Os::Process>] is the process value it points to: the
      engine keeps a handle in at most one container at a time (every
      transition pushes the handle it has just erased or popped), so no
      mutation through one handle is observed through another.
    - [assert] is compiled in: a violated assertion is the outcome
      [AssertFailed].
    - A loop whose iterator may stall takes fuel; [OutOfFuel] for every
      amount of fuel means that the loop does not terminate.
    - Diagnostics written to [stderr] by the interpreter are collected in a
      log; those of the scheduler are not modelled. *)

From stdpp Require Import base list strings numbers option gmap.

Open Scope Z_scope.

(** ** Outcomes of a call *)

Inductive result (A : Type) : Type :=
| Ok (a : A)
| AssertFailed
| OutOfBounds
| DivisionByZero
| OutOfFuel.

Arguments Ok {A} a.
Arguments AssertFailed {A}.
Arguments OutOfBounds {A}.
Arguments DivisionByZero {A}.
Arguments OutOfFuel {A}.

#[global] Instance result_ret : MRet result := λ A a, Ok a.

#[global] Instance result_bind : MBind result := λ A B f m,
  match m with
  | Ok a => f a
  | AssertFailed => AssertFailed
  | OutOfBounds => OutOfBounds
  | DivisionByZero => DivisionByZero
  | OutOfFuel => OutOfFuel
  end.

Definition is_ok {A} (r : result A) : bool :=
  match r with Ok _ => true | _ => false end.

(** [arr[i]] on a [std::array] or a [std::vector]. *)
Definition at_ {A} (arr : list A) (i : nat) : result A :=
  match arr !! i with
  | Some x => Ok x
  | None => OutOfBounds
  end.

(** [assert(b)]. *)
Definition assert_ (b : bool) : result unit :=
  if b then Ok tt else AssertFailed.

(** ** Machine numbers *)

Definition SIZE_MAX : Z := 2 ^ 64 - 1.

Definition wrap64 (z : Z) : Z := z mod 2 ^ 64.

(** A [float] is its IEEE-754 binary32 bit pattern. The engine only copies
    floats, zeroes them and (in the interpreter) takes the maximum of two
    non-negative ones, for which the order of the values is the order of
    the patterns. *)
Inductive float32 : Type := F32 (bits : Z).

Definition f32_bits (f : float32) : Z := let 'F32 b := f in b.

Definition f32_zero : float32 := F32 0.

(** [0.01F] *)
Definition f32_0_01 : float32 := F32 0x3C23D70A.

(** [std::max(a, b)], that is [(a < b) ? b : a], on non-negative floats. *)
Definition f32_max (a b : float32) : float32 :=
  if f32_bits a <? f32_bits b then b else a.

(** A [double] that the engine computes is either the literal [0.0] or the
    quotient of two converted sizes; it is kept symbolic. *)
Inductive double : Type :=
| DoubleZero
| DoubleDiv (num den : Z).

#[global] Instance float32_eq_dec : EqDecision float32.
Proof. solve_decision. Defined.

#[global] Instance double_eq_dec : EqDecision double.
Proof. solve_decision. Defined.

(** ** The workload model (os/Os.hpp) *)

Module Os.

(** Modelled from the spec: [os/Os.hpp] is not part of the sources at hand;
    [EventKind], [Event] and [Process] follow section 3 of the
    specification and the way the scheduler and the interpreter use them. *)
Inductive EventKind : Type := Cpu | Io.

Record Event : Type := mkEvent {
  kind : EventKind;
  duration : Z;
  resource_usage : float32;
}.

Record Process : Type := mkProcess {
  name : string;
  pid : Z;
  arrival : Z;
  events : list Event;
  start_time : option Z;
  finish_time : option Z;
}.

(** Modelled from the spec: the constructor [Process(name, pid, arrival,
    events)] that [emplace_process] forwards to; both times start absent. *)
Definition new_process (name : string) (pid arrival : Z) (events : list Event)
  : Process :=
  mkProcess name pid arrival events None None.

(** Modelled from the spec: [event_kind_try_from_str], exact and
    case-sensitive match of the two recognised kinds. *)
Definition event_kind_try_from_str (str : string) : option EventKind :=
  if String.eqb str "Cpu" then Some Cpu
  else if String.eqb str "Io" then Some Io
  else None.

Definition set_events (p : Process) (evs : list Event) : Process :=
  mkProcess (name p) (pid p) (arrival p) evs (start_time p) (finish_time p).

Definition set_start_time (p : Process) (t : option Z) : Process :=
  mkProcess (name p) (pid p) (arrival p) (events p) t (finish_time p).

Definition set_finish_time (p : Process) (t : option Z) : Process :=
  mkProcess (name p) (pid p) (arrival p) (events p) (start_time p) t.

Definition set_duration (e : Event) (d : Z) : Event :=
  mkEvent (kind e) d (resource_usage e).

#[global] Instance EventKind_eq_dec : EqDecision EventKind.
Proof. solve_decision. Defined.

#[global] Instance Event_eq_dec : EqDecision Event.
Proof. solve_decision. Defined.

#[global] Instance Process_eq_dec : EqDecision Process.
Proof. solve_decision. Defined.

End Os.

(** ** The scheduler engine (simulations/Scheduler.hpp) *)

Module Simulations.

Import Os.

Inductive SchedulePolicy : Type := FirstComeFirstServed | RoundRobin.

(** The callables that [named_scheduler_from_policy] builds: the two policy
    structs, [RoundRobinPolicy] with its [quantum] member. *)
Inductive ScheduleFn : Type :=
| FirstComeFirstServedPolicy
| RoundRobinPolicy (quantum : Z).

Record NamedSchedulePolicy : Type := mkNamedSchedulePolicy {
  name_ : string;
  kind_ : SchedulePolicy;
  callback_ : ScheduleFn;
}.

Definition MAX_THREADS : nat := 9.

(** [ProcessPtr] and [ProcessQueue], the aliases of the struct. *)
Abbreviation ProcessPtr := Process (only parsing).
Abbreviation ProcessQueue := (list Process) (only parsing).

Record Scheduler : Type := mkScheduler {
  running : list (option ProcessPtr);
  processes : list ProcessQueue;
  waiting : list ProcessQueue;
  ready : list ProcessQueue;
  schedule_policy : NamedSchedulePolicy;
  timer : Z;
  cpu_usage : list float32;
  max_processes : Z;
  max_events_per_process : Z;
  max_single_event_duration : Z;
  max_arrival_time : Z;
  threads_count : Z;
  next_thread : Z;
  throughput : double;
  previous_finished_count : Z;
  finished : list ProcessPtr;
  processes_backup : list (list Process);
  valid_backup : bool;
}.

(** The state after [explicit Scheduler(Policy policy)]: the member
    initialisers of the struct. *)
Definition new_scheduler (policy : NamedSchedulePolicy) : Scheduler :=
  {| running := replicate MAX_THREADS None;
     processes := replicate MAX_THREADS [];
     waiting := replicate MAX_THREADS [];
     ready := replicate MAX_THREADS [];
     schedule_policy := policy;
     timer := 0;
     cpu_usage := replicate MAX_THREADS f32_zero;
     max_processes := SIZE_MAX;
     max_events_per_process := SIZE_MAX;
     max_single_event_duration := SIZE_MAX;
     max_arrival_time := SIZE_MAX;
     threads_count := Z.of_nat MAX_THREADS;
     next_thread := 0;
     throughput := DoubleZero;
     previous_finished_count := 0;
     finished := [];
     processes_backup := replicate MAX_THREADS [];
     valid_backup := false |}.

(** Assignments to one member. *)
Definition set_running (s : Scheduler) (v : list (option ProcessPtr)) : Scheduler :=
  mkScheduler v (processes s) (waiting s) (ready s) (schedule_policy s)
    (timer s) (cpu_usage s) (max_processes s) (max_events_per_process s)
    (max_single_event_duration s) (max_arrival_time s) (threads_count s)
    (next_thread s) (throughput s) (previous_finished_count s) (finished s)
    (processes_backup s) (valid_backup s).

Definition set_processes (s : Scheduler) (v : list ProcessQueue) : Scheduler :=
  mkScheduler (running s) v (waiting s) (ready s) (schedule_policy s)
    (timer s) (cpu_usage s) (max_processes s) (max_events_per_process s)
    (max_single_event_duration s) (max_arrival_time s) (threads_count s)
    (next_thread s) (throughput s) (previous_finished_count s) (finished s)
    (processes_backup s) (valid_backup s).

Definition set_waiting (s : Scheduler) (v : list ProcessQueue) : Scheduler :=
  mkScheduler (running s) (processes s) v (ready s) (schedule_policy s)
    (timer s) (cpu_usage s) (max_processes s) (max_events_per_process s)
    (max_single_event_duration s) (max_arrival_time s) (threads_count s)
    (next_thread s) (throughput s) (previous_finished_count s) (finished s)
    (processes_backup s) (valid_backup s).

Definition set_ready (s : Scheduler) (v : list ProcessQueue) : Scheduler :=
  mkScheduler (running s) (processes s) (waiting s) v (schedule_policy s)
    (timer s) (cpu_usage s) (max_processes s) (max_events_per_process s)
    (max_single_event_duration s) (max_arrival_time s) (threads_count s)
    (next_thread s) (throughput s) (previous_finished_count s) (finished s)
    (processes_backup s) (valid_backup s).

Definition set_schedule_policy (s : Scheduler) (v : NamedSchedulePolicy) : Scheduler :=
  mkScheduler (running s) (processes s) (waiting s) (ready s) v
    (timer s) (cpu_usage s) (max_processes s) (max_events_per_process s)
    (max_single_event_duration s) (max_arrival_time s) (threads_count s)
    (next_thread s) (throughput s) (previous_finished_count s) (finished s)
    (processes_backup s) (valid_backup s).

Definition set_timer (s : Scheduler) (v : Z) : Scheduler :=
  mkScheduler (running s) (processes s) (waiting s) (ready s) (schedule_policy s)
    v (cpu_usage s) (max_processes s) (max_events_per_process s)
    (max_single_event_duration s) (max_arrival_time s) (threads_count s)
    (next_thread s) (throughput s) (previous_finished_count s) (finished s)
    (processes_backup s) (valid_backup s).

Definition set_cpu_usage (s : Scheduler) (v : list float32) : Scheduler :=
  mkScheduler (running s) (processes s) (waiting s) (ready s) (schedule_policy s)
    (timer s) v (max_processes s) (max_events_per_process s)
    (max_single_event_duration s) (max_arrival_time s) (threads_count s)
    (next_thread s) (throughput s) (previous_finished_count s) (finished s)
    (processes_backup s) (valid_backup s).

Definition set_max_processes (s : Scheduler) (v : Z) : Scheduler :=
  mkScheduler (running s) (processes s) (waiting s) (ready s) (schedule_policy s)
    (timer s) (cpu_usage s) v (max_events_per_process s)
    (max_single_event_duration s) (max_arrival_time s) (threads_count s)
    (next_thread s) (throughput s) (previous_finished_count s) (finished s)
    (processes_backup s) (valid_backup s).

Definition set_max_events_per_process (s : Scheduler) (v : Z) : Scheduler :=
  mkScheduler (running s) (processes s) (waiting s) (ready s) (schedule_policy s)
    (timer s) (cpu_usage s) (max_processes s) v
    (max_single_event_duration s) (max_arrival_time s) (threads_count s)
    (next_thread s) (throughput s) (previous_finished_count s) (finished s)
    (processes_backup s) (valid_backup s).

Definition set_max_single_event_duration (s : Scheduler) (v : Z) : Scheduler :=
  mkScheduler (running s) (processes s) (waiting s) (ready s) (schedule_policy s)
    (timer s) (cpu_usage s) (max_processes s) (max_events_per_process s)
    v (max_arrival_time s) (threads_count s)
    (next_thread s) (throughput s) (previous_finished_count s) (finished s)
    (processes_backup s) (valid_backup s).

Definition set_max_arrival_time (s : Scheduler) (v : Z) : Scheduler :=
  mkScheduler (running s) (processes s) (waiting s) (ready s) (schedule_policy s)
    (timer s) (cpu_usage s) (max_processes s) (max_events_per_process s)
    (max_single_event_duration s) v (threads_count s)
    (next_thread s) (throughput s) (previous_finished_count s) (finished s)
    (processes_backup s) (valid_backup s).

Definition set_threads_count (s : Scheduler) (v : Z) : Scheduler :=
  mkScheduler (running s) (processes s) (waiting s) (ready s) (schedule_policy s)
    (timer s) (cpu_usage s) (max_processes s) (max_events_per_process s)
    (max_single_event_duration s) (max_arrival_time s) v
    (next_thread s) (throughput s) (previous_finished_count s) (finished s)
    (processes_backup s) (valid_backup s).

Definition set_next_thread (s : Scheduler) (v : Z) : Scheduler :=
  mkScheduler (running s) (processes s) (waiting s) (ready s) (schedule_policy s)
    (timer s) (cpu_usage s) (max_processes s) (max_events_per_process s)
    (max_single_event_duration s) (max_arrival_time s) (threads_count s)
    v (throughput s) (previous_finished_count s) (finished s)
    (processes_backup s) (valid_backup s).

Definition set_throughput (s : Scheduler) (v : double) : Scheduler :=
  mkScheduler (running s) (processes s) (waiting s) (ready s) (schedule_policy s)
    (timer s) (cpu_usage s) (max_processes s) (max_events_per_process s)
    (max_single_event_duration s) (max_arrival_time s) (threads_count s)
    (next_thread s) v (previous_finished_count s) (finished s)
    (processes_backup s) (valid_backup s).

Definition set_previous_finished_count (s : Scheduler) (v : Z) : Scheduler :=
  mkScheduler (running s) (processes s) (waiting s) (ready s) (schedule_policy s)
    (timer s) (cpu_usage s) (max_processes s) (max_events_per_process s)
    (max_single_event_duration s) (max_arrival_time s) (threads_count s)
    (next_thread s) (throughput s) v (finished s)
    (processes_backup s) (valid_backup s).

Definition set_finished (s : Scheduler) (v : list ProcessPtr) : Scheduler :=
  mkScheduler (running s) (processes s) (waiting s) (ready s) (schedule_policy s)
    (timer s) (cpu_usage s) (max_processes s) (max_events_per_process s)
    (max_single_event_duration s) (max_arrival_time s) (threads_count s)
    (next_thread s) (throughput s) (previous_finished_count s) v
    (processes_backup s) (valid_backup s).

Definition set_processes_backup (s : Scheduler) (v : list (list Process)) : Scheduler :=
  mkScheduler (running s) (processes s) (waiting s) (ready s) (schedule_policy s)
    (timer s) (cpu_usage s) (max_processes s) (max_events_per_process s)
    (max_single_event_duration s) (max_arrival_time s) (threads_count s)
    (next_thread s) (throughput s) (previous_finished_count s) (finished s)
    v (valid_backup s).

Definition set_valid_backup (s : Scheduler) (v : bool) : Scheduler :=
  mkScheduler (running s) (processes s) (waiting s) (ready s) (schedule_policy s)
    (timer s) (cpu_usage s) (max_processes s) (max_events_per_process s)
    (max_single_event_duration s) (max_arrival_time s) (threads_count s)
    (next_thread s) (throughput s) (previous_finished_count s) (finished s)
    (processes_backup s) v.

(** [container.size()] as a [std::size_t]. *)
Definition size {A} (l : list A) : Z := Z.of_nat (length l).

(** [switch_schedule_policy] *)
Definition switch_schedule_policy (policy : NamedSchedulePolicy) (s : Scheduler)
  : Scheduler :=
  set_schedule_policy s policy.

(** [complete]: the four [any_of] run over the whole arrays, all
    [MAX_THREADS] slots, whatever [threads_count] is. *)
Definition complete (s : Scheduler) : bool :=
  let any_running := existsb (λ process, bool_decide (process ≠ None)) (running s) in
  let any_processes := existsb (λ elem, bool_decide (elem ≠ [])) (processes s) in
  let any_ready := existsb (λ elem, bool_decide (elem ≠ [])) (ready s) in
  let any_waiting := existsb (λ elem, bool_decide (elem ≠ [])) (waiting s) in
  negb any_running && negb any_processes && negb any_ready && negb any_waiting.

(** [ensure_pid_is_unique] *)
Definition ensure_pid_is_unique (thread_idx : nat) (pid' : Z) (s : Scheduler)
  : result bool :=
  let comparator := λ elem : ProcessPtr, pid elem =? pid' in
  run ← at_ (running s) thread_idx;
  rdy ← at_ (ready s) thread_idx;
  wts ← at_ (waiting s) thread_idx;
  Ok (match run with None => true | Some p => negb (pid p =? pid') end
      && negb (existsb comparator rdy)
      && negb (existsb comparator wts)).

(** [dispatch_process_by_first_event]. The assignment to [start_time] is
    the conditional expression of the source: the timer when the field is
    absent, [std::nullopt] when it is present. *)
Definition dispatch_process_by_first_event (thread_idx : nat)
    (process : ProcessPtr) (s : Scheduler) : result Scheduler :=
  match events process with
  | [] => AssertFailed
  | first_event :: _ =>
      match kind first_event with
      | Cpu =>
          let process :=
            set_start_time process
              (match start_time process with
               | None => Some (timer s)
               | Some _ => None
               end) in
          q ← at_ (ready s) thread_idx;
          Ok (set_ready s (<[thread_idx := q ++ [process]]> (ready s)))
      | Io =>
          q ← at_ (waiting s) thread_idx;
          Ok (set_waiting s (<[thread_idx := q ++ [process]]> (waiting s)))
      end
  end.

(** [sidetrack_processes]: the loop over [processes[thread_idx]] with the
    iterator [it] as an index. An iteration either advances [it], erases
    the element at [it], or, in the two error branches, does [continue]
    with [it] where it was. *)
Fixpoint sidetrack_loop (fuel : nat) (thread_idx it : nat) (s : Scheduler)
  : result Scheduler :=
  match fuel with
  | O => OutOfFuel
  | S fuel =>
      procs ← at_ (processes s) thread_idx;
      match procs !! it with
      | None => Ok s
      | Some process =>
          if negb (arrival process =? timer s) then
            sidetrack_loop fuel thread_idx (S it) s
          else
            unique ← ensure_pid_is_unique thread_idx (pid process) s;
            if negb unique then
              sidetrack_loop fuel thread_idx it s
            else if bool_decide (events process = []) then
              sidetrack_loop fuel thread_idx it s
            else
              s ← dispatch_process_by_first_event thread_idx process s;
              sidetrack_loop fuel thread_idx it
                (set_processes s (<[thread_idx := delete it procs]> (processes s)))
      end
  end.

Definition sidetrack_processes (fuel : nat) (thread_idx : nat) (s : Scheduler)
  : result Scheduler :=
  sidetrack_loop fuel thread_idx 0%nat s.

(** [update_waiting_list], the first loop: it walks [waits] once; an
    element is either erased (and the iterator stays on its successor) or
    kept (and the iterator advances), so the walk is a recursion on the
    elements not yet visited. [kept] are the elements that stay in
    [waits]. *)
Fixpoint update_waiting_loop (waits kept to_dispatch : list ProcessPtr)
    (s : Scheduler) : result (list ProcessPtr * list ProcessPtr * Scheduler) :=
  match waits with
  | [] => Ok (kept, to_dispatch, s)
  | process :: waits =>
      match events process with
      | [] => AssertFailed
      | current_event :: rest =>
          _ ← assert_ (bool_decide (kind current_event = Io));
          _ ← assert_ (0 <? duration current_event);
          let current_event :=
            set_duration current_event (wrap64 (duration current_event - 1)) in
          if duration current_event =? 0 then
            let process := set_events process rest in
            if negb (bool_decide (events process = [])) then
              update_waiting_loop waits kept (to_dispatch ++ [process]) s
            else
              let process :=
                set_finish_time process
                  (match finish_time process with
                   | None => Some (timer s)
                   | Some _ => None
                   end) in
              update_waiting_loop waits kept to_dispatch
                (set_finished s (finished s ++ [process]))
          else
            let process := set_events process (current_event :: rest) in
            update_waiting_loop waits (kept ++ [process]) to_dispatch s
      end
  end.

(** The second loop of [update_waiting_list]. *)
Fixpoint dispatch_all (thread_idx : nat) (to_dispatch : list ProcessPtr)
    (s : Scheduler) : result Scheduler :=
  match to_dispatch with
  | [] => Ok s
  | process :: to_dispatch =>
      s ← dispatch_process_by_first_event thread_idx process s;
      dispatch_all thread_idx to_dispatch s
  end.

Definition update_waiting_list (thread_idx : nat) (s : Scheduler)
  : result Scheduler :=
  waits ← at_ (waiting s) thread_idx;
  '(kept, to_dispatch, s) ← update_waiting_loop waits [] [] s;
  let s := set_waiting s (<[thread_idx := kept]> (waiting s)) in
  dispatch_all thread_idx to_dispatch s.

(** [update_running]. The branch that finishes a process pushes it to
    [finished] as it is: no [finish_time] is written here. *)
Definition update_running (thread_idx : nat) (s : Scheduler) : result Scheduler :=
  run ← at_ (running s) thread_idx;
  match run with
  | None => Ok s
  | Some process =>
      match events process with
      | [] => AssertFailed
      | current_event :: rest =>
          _ ← assert_ (bool_decide (kind current_event = Cpu));
          _ ← assert_ (0 <? duration current_event);
          let current_event :=
            set_duration current_event (wrap64 (duration current_event - 1)) in
          if duration current_event =? 0 then
            let process := set_events process rest in
            s ← (if negb (bool_decide (events process = [])) then
                   dispatch_process_by_first_event thread_idx process s
                 else
                   Ok (set_finished s (finished s ++ [process])));
            Ok (set_running s (<[thread_idx := None]> (running s)))
          else
            let process := set_events process (current_event :: rest) in
            Ok (set_running s (<[thread_idx := Some process]> (running s)))
      end
  end.

(** [FirstComeFirstServedPolicy::operator()]: the loop over the cores, [n]
    of them left from [thread_idx] on. An empty [ready] queue leaves the
    function ([return]), not the iteration. *)
Fixpoint fcfs_loop (n : nat) (thread_idx : nat) (sim : Scheduler)
  : result Scheduler :=
  match n with
  | O => Ok sim
  | S n =>
      rdy ← at_ (ready sim) thread_idx;
      match rdy with
      | [] => Ok sim
      | process :: rest =>
          let sim := set_ready sim (<[thread_idx := rest]> (ready sim)) in
          _ ← at_ (running sim) thread_idx;
          let sim := set_running sim (<[thread_idx := Some process]> (running sim)) in
          fcfs_loop n (S thread_idx) sim
      end
  end.

(** [RoundRobinPolicy::operator()] *)
Fixpoint rr_loop (quantum : Z) (n : nat) (thread_idx : nat) (sim : Scheduler)
  : result Scheduler :=
  match n with
  | O => Ok sim
  | S n =>
      rdy ← at_ (ready sim) thread_idx;
      match rdy with
      | [] => Ok sim
      | process :: rest =>
          let sim := set_ready sim (<[thread_idx := rest]> (ready sim)) in
          _ ← at_ (running sim) thread_idx;
          match events process with
          | [] => AssertFailed
          | next_event :: evs =>
              _ ← assert_ (bool_decide (kind next_event = Cpu));
              let process :=
                if quantum <? duration next_event then
                  let next_event :=
                    set_duration next_event (wrap64 (duration next_event - quantum)) in
                  let new_event :=
                    mkEvent Cpu quantum (resource_usage next_event) in
                  set_events process (new_event :: next_event :: evs)
                else process in
              let sim :=
                set_running sim (<[thread_idx := Some process]> (running sim)) in
              rr_loop quantum n (S thread_idx) sim
          end
      end
  end.

(** [NamedSchedulePolicy::operator()] *)
Definition apply_policy (policy : NamedSchedulePolicy) (sim : Scheduler)
  : result Scheduler :=
  match callback_ policy with
  | FirstComeFirstServedPolicy =>
      fcfs_loop (Z.to_nat (threads_count sim)) 0%nat sim
  | RoundRobinPolicy quantum =>
      rr_loop quantum (Z.to_nat (threads_count sim)) 0%nat sim
  end.

(** The body of the loop of [step], for one [thread_idx]. *)
Definition step_thread (fuel : nat) (thread_idx : nat) (s : Scheduler)
  : result Scheduler :=
  s ← sidetrack_processes fuel thread_idx s;
  s ← update_waiting_list thread_idx s;
  s ← update_running thread_idx s;
  run ← at_ (running s) thread_idx;
  s ← (match run with
       | None => apply_policy (schedule_policy s) s
       | Some _ => Ok s
       end);
  run ← at_ (running s) thread_idx;
  rdy ← at_ (ready s) thread_idx;
  let s :=
    match run, rdy with
    | None, front :: rest =>
        set_ready
          (set_running s (<[thread_idx := Some front]> (running s)))
          (<[thread_idx := rest]> (ready s))
    | _, _ => s
    end in
  run ← at_ (running s) thread_idx;
  let s :=
    match run with
    | Some process =>
        match events process with
        | next_event :: _ =>
            set_cpu_usage s
              (<[thread_idx := resource_usage next_event]> (cpu_usage s))
        | [] => s
        end
    | None => s
    end in
  let s :=
    if complete s
    then set_cpu_usage s (replicate (length (cpu_usage s)) f32_zero)
    else s in
  let s :=
    set_throughput s
      (if negb (timer s =? 0) then DoubleDiv (size (finished s)) (timer s)
       else DoubleZero) in
  Ok (set_previous_finished_count s (size (finished s))).

(** The loop of [step] over the cores, [n] of them left. *)
Fixpoint step_loop (fuel : nat) (n : nat) (thread_idx : nat) (s : Scheduler)
  : result Scheduler :=
  match n with
  | O => Ok s
  | S n =>
      s ← step_thread fuel thread_idx s;
      step_loop fuel n (S thread_idx) s
  end.

(** [step]. [fuel] bounds the iterations of each run of the loop of
    [sidetrack_processes]. *)
Definition step (fuel : nat) (s : Scheduler) : result Scheduler :=
  let s := set_valid_backup s true in
  s ← step_loop fuel (Z.to_nat (threads_count s)) 0%nat s;
  Ok (set_timer s (wrap64 (timer s + 1))).

(** [n] calls of [step]. *)
Fixpoint steps (fuel : nat) (n : nat) (s : Scheduler) : result Scheduler :=
  match n with
  | O => Ok s
  | S n => s ← step fuel s; steps fuel n s
  end.

(** [emplace_process] *)
Definition emplace_process (name : string) (pid arrival : Z)
    (events : list Event) (s : Scheduler) : result (ProcessPtr * Scheduler) :=
  let ret := new_process name pid arrival events in
  let idx := Z.to_nat (next_thread s) in
  q ← at_ (processes s) idx;
  let s := set_processes s (<[idx := q ++ [ret]]> (processes s)) in
  s ← (if negb (valid_backup s) then
         b ← at_ (processes_backup s) idx;
         Ok (set_processes_backup s (<[idx := b ++ [ret]]> (processes_backup s)))
       else Ok s);
  if threads_count s =? 0 then DivisionByZero
  else
    Ok (ret, set_next_thread s (wrap64 (next_thread s + 1) mod threads_count s)).

(** The loop of [restart] over [processes_backup], zipped with its index. *)
Fixpoint restart_loop (idx : nat) (backup : list (list Process))
    (procs : list ProcessQueue) : result (list ProcessQueue) :=
  match backup with
  | [] => Ok procs
  | queue :: backup =>
      q ← at_ procs idx;
      restart_loop (S idx) backup (<[idx := q ++ queue]> procs)
  end.

(** [restart] *)
Definition restart (s : Scheduler) : result Scheduler :=
  let s := set_timer s 0 in
  let s := set_next_thread s 0 in
  let s := set_throughput s DoubleZero in
  let s := set_previous_finished_count s 0 in
  let s := set_finished s [] in
  _ ← assert_ (valid_backup s);
  procs ← restart_loop 0%nat (processes_backup s) (processes s);
  Ok (set_processes s procs).


(** [average_turnaround_time] *)
Definition average_turnaround_time (s : Scheduler) : Z :=
  if bool_decide (finished s = []) then 0
  else
    let total_turnaround_time :=
      foldl (λ total process,
               match finish_time process with
               | None => total
               | Some ft => wrap64 (total + (ft - arrival process))
               end) 0 (finished s) in
    total_turnaround_time / size (finished s).

(** [try_policy_from_str] *)
Definition try_policy_from_str (str : string) : option SchedulePolicy :=
  if String.eqb str "FCFS" then Some FirstComeFirstServed
  else if String.eqb str "FIFO" then Some FirstComeFirstServed
  else if String.eqb str "FirstComeFirstServed" then Some FirstComeFirstServed
  else if String.eqb str "FirstInFirstOut" then Some FirstComeFirstServed
  else if String.eqb str "RR" then Some RoundRobin
  else if String.eqb str "RoundRobin" then Some RoundRobin
  else None.

(** [policy_name_from_kind] *)
Definition policy_name_from_kind (policy : SchedulePolicy) : string :=
  match policy with
  | FirstComeFirstServed => "First Come First Served"
  | RoundRobin => "Round Robin"
  end.

(** [named_scheduler_from_policy] with no policy arguments:
    [RoundRobinPolicy {}] has the default [quantum = 5]. *)
Definition named_scheduler_from_policy (policy : SchedulePolicy)
  : NamedSchedulePolicy :=
  match policy with
  | FirstComeFirstServed =>
      mkNamedSchedulePolicy (policy_name_from_kind policy) policy
        FirstComeFirstServedPolicy
  | RoundRobin =>
      mkNamedSchedulePolicy (policy_name_from_kind policy) policy
        (RoundRobinPolicy 5)
  end.

(** [named_scheduler_from_policy(RoundRobin, quantum)] *)
Definition named_round_robin (quantum : Z) : NamedSchedulePolicy :=
  mkNamedSchedulePolicy (policy_name_from_kind RoundRobin) RoundRobin
    (RoundRobinPolicy quantum).

End Simulations.

(** ** The DSL interpreter (lang/Interpreter.hpp) *)

Module Interpreter.

Import Os Simulations.

(** *** The syntax tree (lang/Parser.hpp) *)

(** Modelled from the spec: [lang/Lexer.hpp] and [lang/Parser.hpp] are not
    part of the sources at hand. A token is its lexeme; an expression is
    one of the nine variants of section 3 of the specification; a
    statement holds the id of a top-level expression, or is of another
    kind; [expression_by_id] indexes the flat collection. *)
Definition Token : Type := string.

Definition ExpressionId : Type := nat.

Inductive Expression : Type :=
| Call (name : Token) (arguments : list ExpressionId)
| StringLiteral (literal : Token)
| Number (number : Token)
| List_ (elements : list ExpressionId)
| Tuple (elements : list ExpressionId)
| Variable_ (name : Token)
| Constant (name : Token) (value : ExpressionId)
| Range (start end_ : Token)
| For (binder : Token) (range : ExpressionId) (body : list ExpressionId).

Inductive Statement : Type :=
| ExpressionStatement (id : ExpressionId)
| OtherStatement.

Record Ast : Type := mkAst {
  statements : list Statement;
  expressions : list Expression;
}.

Definition expression_by_id (ast : Ast) (id : ExpressionId) : result Expression :=
  at_ (expressions ast) id.

(** *** Helpers of lang/Util.hpp *)

Definition is_digit (c : Ascii.ascii) : bool :=
  let n := Ascii.nat_of_ascii c in
  (48 <=? n)%nat && (n <=? 57)%nat.

Fixpoint parse_digits (s : string) (acc : Z) : option Z :=
  match s with
  | EmptyString => Some acc
  | String c rest =>
      if is_digit c
      then parse_digits rest (10 * acc + Z.of_nat (Ascii.nat_of_ascii c - 48))
      else None
  end.

(** Modelled from the spec: [Util::parse_number] is not part of the sources
    at hand; it yields the number that a lexeme of decimal digits denotes
    and fails on any other lexeme, also on a number that does not fit a
    [std::size_t]. *)
Definition parse_number (lexeme : string) : option Z :=
  match lexeme with
  | EmptyString => None
  | _ =>
      match parse_digits lexeme 0 with
      | Some n => if n <=? SIZE_MAX then Some n else None
      | None => None
      end
  end.

(** *** Runtime values *)

#[warnings="-register-all"]
Inductive Value : Type :=
| Monostate
| VString (string_ : string)
| VNumber (number : Z)
| ValueList (values : list Value).

(** *** The state that evaluation threads *)

(** What [report_error] and [report_note] print, with the arguments of the
    format string instead of the formatted text. *)
Inductive Diagnostic : Type :=
| ErrorMismatchedArgc (name : string) (got : Z)
| ErrorMismatchedType (argument : Z) (name : string) (expected : string)
| ErrorInvalidConstant (name : string)
| ErrorPolicy (str : string)
| NoteAvailableConstants
| NoteEventList.

(** Modelled from the spec: [Util::random_float] and [Util::random_natural]
    are not part of the sources at hand. The generator is an oracle: the
    [n]-th draw is [raw_float n], or [raw_natural n] brought into the
    closed range asked for. *)
Record Random : Type := mkRandom {
  raw_float : nat → float32;
  raw_natural : nat → Z;
  draws : nat;
}.

Record State : Type := mkState {
  sim : Scheduler;
  diagnostics : list Diagnostic;
  spawned_pids : list Z;
  random : Random;
}.

Definition set_sim (st : State) (s : Scheduler) : State :=
  mkState s (diagnostics st) (spawned_pids st) (random st).

(** A member function that returns [std::optional<A>]: the outcome of the
    call, and when it returns, the optional and the state it leaves. *)
Definition interp (A : Type) : Type := State → result (option A * State).

#[global] Instance interp_ret : MRet interp := λ A a st, Ok (Some a, st).

(** Sequencing through the [TRY] macro: an absent optional is returned
    from the enclosing function at once. *)
#[global] Instance interp_bind : MBind interp := λ A B f m st,
  match m st with
  | Ok (Some a, st) => f a st
  | Ok (None, st) => Ok (None, st)
  | AssertFailed => AssertFailed
  | OutOfBounds => OutOfBounds
  | DivisionByZero => DivisionByZero
  | OutOfFuel => OutOfFuel
  end.

(** An optional at hand, under [TRY]. *)
Definition try_ {A} (o : option A) : interp A := λ st, Ok (o, st).

(** A call that cannot return an absent optional. *)
Definition lift {A} (r : result A) : interp A := λ st,
  match r with
  | Ok a => Ok (Some a, st)
  | AssertFailed => AssertFailed
  | OutOfBounds => OutOfBounds
  | DivisionByZero => DivisionByZero
  | OutOfFuel => OutOfFuel
  end.

(** A call whose optional is dropped: [(void) f(...)], or a statement
    [f(...);]. *)
Definition discard {A} (m : interp A) : interp unit := λ st,
  match m st with
  | Ok (_, st) => Ok (Some tt, st)
  | AssertFailed => AssertFailed
  | OutOfBounds => OutOfBounds
  | DivisionByZero => DivisionByZero
  | OutOfFuel => OutOfFuel
  end.

(** [report_error] and [report_note]: print, and return [std::nullopt]. *)
Definition report {A} (d : Diagnostic) : interp A := λ st,
  Ok (None, mkState (sim st) (diagnostics st ++ [d]) (spawned_pids st) (random st)).

Definition report_function_call_mismatched_argc {A} (name : string) (got : Z)
  : interp A :=
  report (ErrorMismatchedArgc name got).

Definition get_sim : interp Scheduler := λ st, Ok (Some (sim st), st).

Definition put_sim (s : Scheduler) : interp unit := λ st, Ok (Some tt, set_sim st s).

Definition random_float : interp float32 := λ st,
  let r := random st in
  Ok (Some (raw_float r (draws r)),
      mkState (sim st) (diagnostics st) (spawned_pids st)
        (mkRandom (raw_float r) (raw_natural r) (S (draws r)))).

Definition random_natural (lo hi : Z) : interp Z := λ st,
  let r := random st in
  Ok (Some (lo + raw_natural r (draws r) mod (hi - lo + 1)),
      mkState (sim st) (diagnostics st) (spawned_pids st)
        (mkRandom (raw_float r) (raw_natural r) (S (draws r)))).

Definition push_spawned_pid (pid : Z) : interp unit := λ st,
  Ok (Some tt,
      mkState (sim st) (diagnostics st) (spawned_pids st ++ [pid]) (random st)).

(** *** Accessors of [Value] *)

Definition as_string_or (v : Value) (callback : interp string) : interp string :=
  match v with
  | VString s => mret s
  | _ => callback
  end.

Definition as_number_or (v : Value) (callback : interp Z) : interp Z :=
  match v with
  | VNumber n => mret n
  | _ => callback
  end.

Definition as_value_list_or (v : Value) (callback : interp (list Value))
  : interp (list Value) :=
  match v with
  | ValueList values => mret values
  | _ => callback
  end.

(** *** Builtins *)

Definition is_builtin (token : Token) : bool :=
  String.eqb token "spawn_process" || String.eqb token "spawn_random_process".

Fixpoint materialize_expressions (ast : Ast) (expr_ids : list ExpressionId)
  : result (list Expression) :=
  match expr_ids with
  | [] => Ok []
  | expr_id :: expr_ids =>
      e ← expression_by_id ast expr_id;
      es ← materialize_expressions ast expr_ids;
      Ok (e :: es)
  end.

(** [list_as_events_deque]: the loop over [list], [events] being the deque
    built so far. [tuple[0]] and [tuple[1]] are [operator[]] of
    [std::vector]. *)
Fixpoint list_as_events_deque_loop (list_ : list Value) (events : list Event)
  : interp (list Event) :=
  match list_ with
  | [] => mret events
  | tuple_value :: list_ =>
      tuple ← as_value_list_or tuple_value (report NoteEventList);
      t0 ← lift (at_ tuple 0%nat);
      event_kind_str ← as_string_or t0 (report NoteEventList);
      t1 ← lift (at_ tuple 1%nat);
      duration ← as_number_or t1 (report NoteEventList);
      match event_kind_try_from_str event_kind_str with
      | None => report NoteEventList
      | Some event_kind =>
          r ← random_float;
          list_as_events_deque_loop list_
            (events ++ [mkEvent event_kind duration (f32_max f32_0_01 r)])
      end
  end.

Definition list_as_events_deque (list_ : list Value) : interp (list Event) :=
  list_as_events_deque_loop list_ [].

Section Builtins.

(** [evaluate_expression], which the builtins call back. *)
Variable evaluate_expression : Expression → interp Value.

(** [spawn_process_builtin]. A wrong [arguments.size()] is reported, and
    the value of the report is dropped: the function goes on. *)
Definition spawn_process_builtin (arguments : list Expression) : interp Value :=
  let NAME := "spawn_process" in
  let ARGC := 4 in
  _ ← (if negb (size arguments =? ARGC)
       then discard (report_function_call_mismatched_argc (A := unit) NAME (size arguments))
       else mret tt);
  a0 ← lift (at_ arguments 0%nat);
  process_name_value ← evaluate_expression a0;
  process_name ← as_string_or process_name_value
                    (report (ErrorMismatchedType 0 NAME "string"));
  a1 ← lift (at_ arguments 1%nat);
  pid_value ← evaluate_expression a1;
  pid ← as_number_or pid_value (report (ErrorMismatchedType 1 NAME "int"));
  a2 ← lift (at_ arguments 2%nat);
  arrival_value ← evaluate_expression a2;
  arrival ← as_number_or arrival_value (report (ErrorMismatchedType 2 NAME "int"));
  a3 ← lift (at_ arguments 3%nat);
  list_value ← evaluate_expression a3;
  list_ ← as_value_list_or list_value
             (_ ← discard (report (A := unit)
                             (ErrorMismatchedType 4 NAME "List<Tuple: Event>"));
              report NoteEventList);
  events ← list_as_events_deque list_;
  s ← get_sim;
  '(_, s) ← lift (emplace_process process_name pid arrival events s);
  _ ← put_sim s;
  mret Monostate.

(** [process_random_event] *)
Definition process_random_event : interp Event :=
  k ← random_natural 0 (2 - 1);
  let kind := if k =? 0 then Cpu else Io in
  s ← get_sim;
  duration ← random_natural 1 (max_single_event_duration s);
  r ← random_float;
  mret (mkEvent kind duration (f32_max f32_0_01 r)).

(** The rejection loop of [spawn_random_process_builtin]. *)
Fixpoint fresh_pid_loop (fuel : nat) (pid : Z) : interp Z :=
  match fuel with
  | O => λ _, OutOfFuel
  | S fuel =>
      λ st,
        if existsb (Z.eqb pid) (spawned_pids st) then
          (s ← get_sim;
           pid ← random_natural 0 (max_processes s);
           fresh_pid_loop fuel pid) st
        else Ok (Some pid, st)
  end.

Fixpoint random_events_loop (n : nat) (events : list Event) : interp (list Event) :=
  match n with
  | O => mret events
  | S n =>
      e ← process_random_event;
      random_events_loop n (events ++ [e])
  end.

(** [spawn_random_process_builtin]; [spawned_pids] is its static local. *)
Definition spawn_random_process_builtin (fuel : nat) (arguments : list Expression)
  : interp Value :=
  let NAME := "spawn_process" in
  let ARGC := 0 in
  _ ← (if negb (size arguments =? ARGC)
       then discard (report_function_call_mismatched_argc (A := unit) NAME (size arguments))
       else mret tt);
  s ← get_sim;
  pid ← random_natural 0 (max_processes s);
  pid ← fresh_pid_loop fuel pid;
  _ ← push_spawned_pid pid;
  arrival ← random_natural 0 (max_arrival_time s);
  events_count ← random_natural 1 (max_events_per_process s);
  events ← random_events_loop (Z.to_nat events_count) [];
  s ← get_sim;
  '(_, s) ← lift (emplace_process "Process" pid arrival events s);
  _ ← put_sim s;
  mret Monostate.

(** [builtin_handler] *)
Definition builtin_handler (fuel : nat) (ast : Ast) (name : string)
    (arguments : list ExpressionId) : interp Value :=
  arguments_exprs ← lift (materialize_expressions ast arguments);
  if String.eqb name "spawn_process" then spawn_process_builtin arguments_exprs
  else if String.eqb name "spawn_random_process"
  then spawn_random_process_builtin fuel arguments_exprs
  else mret Monostate.

End Builtins.

(** *** Evaluation *)

Section Evaluate.

Variable ast : Ast.

(** The loops of [list_visitor] and of [tuple_visitor]. *)
Fixpoint evaluate_elements (eval : Expression → interp Value)
    (elements : list Expression) (result : list Value) : interp (list Value) :=
  match elements with
  | [] => mret result
  | elem :: elements =>
      expr ← eval elem;
      evaluate_elements eval elements (result ++ [expr])
  end.

(** The body of the loop of [evalute_for_expression], once. *)
Fixpoint evaluate_body (eval : Expression → interp Value)
    (body : list Expression) : interp unit :=
  match body with
  | [] => mret tt
  | expr :: body =>
      _ ← discard (eval expr);
      evaluate_body eval body
  end.

Fixpoint for_loop (eval : Expression → interp Value) (n : nat)
    (body : list Expression) : interp unit :=
  match n with
  | O => mret tt
  | S n =>
      _ ← evaluate_body eval body;
      for_loop eval n body
  end.

(** [evalute_for_expression]: [i] runs from [start] to [end], so the body
    is evaluated [end - start] times, and not at all when [end <= start]. *)
Definition evalute_for_expression (eval : Expression → interp Value)
    (range : ExpressionId) (body : list ExpressionId) : interp Value :=
  range_expr ← lift (expression_by_id ast range);
  match range_expr with
  | Range start end_ =>
      start ← try_ (parse_number start);
      end_ ← try_ (parse_number end_);
      body ← lift (materialize_expressions ast body);
      _ ← for_loop eval (Z.to_nat (end_ - start)) body;
      mret Monostate
  | _ => try_ None
  end.

(** One configuration key: [sim->key = TRY(Util::parse_number(lexeme))]. *)
Definition assign_number (set : Scheduler → Z → Scheduler) (lexeme : string)
  : interp Value :=
  n ← try_ (parse_number lexeme);
  s ← get_sim;
  _ ← put_sim (set s n);
  mret Monostate.

(** [constant_visitor]. The parsed number is stored as it is, for
    [threads_count] as for the other keys. *)
Definition constant_visitor (name : Token) (value : ExpressionId) : interp Value :=
  expr ← lift (expression_by_id ast value);
  match expr with
  | Variable_ variable =>
      if String.eqb name "schedule_policy" then
        match try_policy_from_str variable with
        | None => report (ErrorPolicy variable)
        | Some policy =>
            s ← get_sim;
            _ ← put_sim (switch_schedule_policy (named_scheduler_from_policy policy) s);
            mret Monostate
        end
      else mret Monostate
  | Number number =>
      if String.eqb name "max_processes" then
        assign_number set_max_processes number
      else if String.eqb name "max_events_per_process" then
        assign_number set_max_events_per_process number
      else if String.eqb name "max_single_event_duration" then
        assign_number set_max_single_event_duration number
      else if String.eqb name "max_arrival_time" then
        assign_number set_max_arrival_time number
      else if String.eqb name "threads_count" then
        assign_number set_threads_count number
      else
        _ ← discard (report (A := unit) (ErrorInvalidConstant name));
        _ ← discard (report (A := unit) NoteAvailableConstants);
        mret Monostate
  | _ => mret Monostate
  end.

(** [evaluate_expression]. Expressions refer to one another by id, so the
    recursion takes fuel; it also bounds the rejection loop of
    [spawn_random_process_builtin]. *)
Fixpoint evaluate_expression (fuel : nat) (expression : Expression)
  : interp Value :=
  match fuel with
  | O => λ _, OutOfFuel
  | S fuel =>
      let eval := evaluate_expression fuel in
      match expression with
      | Call name arguments =>
          if is_builtin name then builtin_handler eval fuel ast name arguments
          else lift AssertFailed
      | StringLiteral literal => mret (VString literal)
      | Number number =>
          parsed_number ← try_ (parse_number number);
          mret (VNumber parsed_number)
      | List_ elements =>
          elements ← lift (materialize_expressions ast elements);
          result ← evaluate_elements eval elements [];
          mret (ValueList result)
      | Tuple elements =>
          elements ← lift (materialize_expressions ast elements);
          result ← evaluate_elements eval elements [];
          mret (ValueList result)
      | Variable_ name => mret (VString name)
      | Constant name value => constant_visitor name value
      | Range start end_ =>
          start ← try_ (parse_number start);
          end_ ← try_ (parse_number end_);
          mret (ValueList [VNumber start; VNumber end_])
      | For _ range body => evalute_for_expression eval range body
      end
  end.

(** [m.has_value()] *)
Definition has_value {A} (m : interp A) : interp bool := λ st,
  match m st with
  | Ok (o, st) => Ok (Some (bool_decide (is_Some o)), st)
  | AssertFailed => AssertFailed
  | OutOfBounds => OutOfBounds
  | DivisionByZero => DivisionByZero
  | OutOfFuel => OutOfFuel
  end.

(** [evaluate_statement] *)
Definition evaluate_statement (fuel : nat) (statement : Statement) : interp bool :=
  match statement with
  | ExpressionStatement expr_id =>
      expr ← lift (expression_by_id ast expr_id);
      has_value (evaluate_expression fuel expr)
  | OtherStatement => try_ None
  end.

(** The loop of [evaluate_ast]. *)
Fixpoint evaluate_statements (fuel : nat) (statements : list Statement)
    (failed : bool) : interp bool :=
  match statements with
  | [] => mret failed
  | statement :: statements =>
      b ← evaluate_statement fuel statement;
      evaluate_statements fuel statements (failed || b)
  end.

End Evaluate.

(** [evaluate_ast] *)
Definition evaluate_ast (fuel : nat) (ast : Ast) : interp bool :=
  evaluate_statements ast fuel (statements ast) false.

(** The state in which [eval] starts on a scheduler, nothing printed yet. *)
Definition initial_state (s : Scheduler) (r : Random) : State :=
  mkState s [] [] r.

End Interpreter.

(** ** Runs of the engine *)

Import Os Simulations Interpreter.

(** The call returns, and [P] holds of what it returns. *)
Definition returns {A} (r : result A) (P : A → Prop) : Prop :=
  match r with
  | Ok a => P a
  | _ => False
  end.

(** [emplace_process], the handle it returns dropped. *)
Definition spawn (name : string) (pid arrival : Z) (events : list Event)
    (s : Scheduler) : result Scheduler :=
  '(_, s) ← emplace_process name pid arrival events s;
  Ok s.

(** A sequence of [emplace_process] calls. *)
Fixpoint spawn_all (args : list (string * Z * Z * list Event)) (s : Scheduler)
  : result Scheduler :=
  match args with
  | [] => Ok s
  | (name, pid, arrival, events) :: args =>
      s ← spawn name pid arrival events s;
      spawn_all args s
  end.

Definition fcfs : NamedSchedulePolicy :=
  named_scheduler_from_policy FirstComeFirstServed.

(** [0.5F] *)
Definition half : float32 := F32 0x3F000000.

(** A scheduler with [threads_count] cores and the first-come-first-served
    policy, nothing spawned. *)
Definition cores (threads_count : Z) : Scheduler :=
  set_threads_count (new_scheduler fcfs) threads_count.

(** Every process that some queue slot holds, core by core. *)
Definition live (s : Scheduler) : list ProcessPtr :=
  omap id (running s) ++ concat (processes s) ++ concat (ready s)
    ++ concat (waiting s).

(** Scenario 1 of the specification, for any name, pid and usage: one
    core, one process that arrives at 0 with one Cpu event of duration 3. *)
Definition single_cpu_process (name : string) (pid : Z) (usage : float32)
  : result Scheduler :=
  spawn name pid 0 [mkEvent Cpu 3 usage] (cores 1).

(** One core, two processes with the same pid and the same arrival. *)
Definition duplicate_pid : result Scheduler :=
  spawn_all [("A", 7, 0, [mkEvent Cpu 3 half]);
             ("B", 7, 0, [mkEvent Cpu 2 half])] (cores 1).

(** One core, one process with no event at all. *)
Definition no_events : result Scheduler :=
  spawn "A" 7 0 [] (cores 1).

(** One core, one process that computes, waits, and computes again. *)
Definition cpu_io_cpu : result Scheduler :=
  spawn "B" 1 0 [mkEvent Cpu 1 half; mkEvent Io 1 half; mkEvent Cpu 1 half]
    (cores 1).

(** Two cores; A and C are placed on core 0 and arrive at 0, B is placed
    on core 1 and arrives at 5, so core 1 is idle in the first tick. *)
Definition idle_second_core : result Scheduler :=
  spawn_all [("A", 1, 0, [mkEvent Cpu 5 half]);
             ("B", 2, 5, [mkEvent Cpu 1 half]);
             ("C", 3, 0, [mkEvent Cpu 5 half])] (cores 2).

(** Two cores; A is placed on core 0 and arrives at 5, B is placed on
    core 1 and arrives at 0. *)
Definition idle_first_core : result Scheduler :=
  spawn_all [("A", 1, 5, [mkEvent Cpu 1 half]);
             ("B", 2, 0, [mkEvent Cpu 1 half])] (cores 2).

(** The first tick of [idle_first_core] up to the point where [step]
    invokes the policy for core 1. *)
Definition before_policy_on_core_1 : result Scheduler :=
  s ← idle_first_core;
  s ← step_thread 5 0 (set_valid_backup s true);
  s ← sidetrack_processes 5 1 s;
  s ← update_waiting_list 1 s;
  update_running 1 s.

(** One core, one process that arrives at 5. *)
Definition late_arrival : result Scheduler :=
  spawn "A" 0 5 [mkEvent Cpu 1 half] (cores 1).

(** A generator for the runs of the interpreter below. *)
Definition some_random : Random :=
  mkRandom (λ _, half) (λ n, Z.of_nat n) 0.

(** The expressions of the program
<<
    threads_count = 1
    threads_count = 12
    spawn_process("A", 0, 0, [("Cpu", 3)], 7)
    spawn_process("A", 0, 0, [("Cpu", 3)])
    spawn_random_process("A")
>>
    in the order in which a parser would intern them. *)
Definition program_expressions : list Expression :=
  [ Number "1"; Constant "threads_count" 0%nat;
    Number "12"; Constant "threads_count" 2%nat;
    StringLiteral "A"; Number "0"; Number "0";
    StringLiteral "Cpu"; Number "3"; Tuple [7; 8]%nat; List_ [9]%nat;
    Number "7";
    Call "spawn_process" [4; 5; 6; 10; 11]%nat;
    Call "spawn_process" [4; 5; 6; 10]%nat;
    Call "spawn_random_process" [4]%nat ].

Definition program (statements : list ExpressionId) : Ast :=
  mkAst (ExpressionStatement <$> statements) program_expressions.

(** The states that the driver surface reaches from a new scheduler:
    [step], [emplace_process], [restart], [switch_schedule_policy], and
    the assignments of the interpreter to the configuration members. *)
Inductive reachable : Scheduler → Prop :=
| reachable_new policy :
    reachable (new_scheduler policy)
| reachable_step fuel s s' :
    reachable s → step fuel s = Ok s' → reachable s'
| reachable_emplace name pid arrival events s ret s' :
    reachable s →
    emplace_process name pid arrival events s = Ok (ret, s') →
    reachable s'
| reachable_restart s s' :
    reachable s → restart s = Ok s' → reachable s'
| reachable_switch policy s :
    reachable s → reachable (switch_schedule_policy policy s)
| reachable_max_processes n s :
    reachable s → reachable (set_max_processes s n)
| reachable_max_events_per_process n s :
    reachable s → reachable (set_max_events_per_process s n)
| reachable_max_single_event_duration n s :
    reachable s → reachable (set_max_single_event_duration s n)
| reachable_max_arrival_time n s :
    reachable s → reachable (set_max_arrival_time s n)
| reachable_threads_count n s :
    reachable s → reachable (set_threads_count s n).

(** The lengths of the per-core arrays. *)
Definition shape (s : Scheduler) : list nat :=
  [length (running s); length (processes s); length (waiting s);
   length (ready s); length (cpu_usage s); length (processes_backup s)].

(** The members that a tick leaves alone once it has set [valid_backup]:
    those that only the driver and the interpreter assign, and the backup. *)
Definition config (s : Scheduler)
  : NamedSchedulePolicy * Z * Z * Z * Z * Z * list (list Process) * bool :=
  (schedule_policy s, max_processes s, max_events_per_process s,
   max_single_event_duration s, max_arrival_time s, threads_count s,
   processes_backup s, valid_backup s).

(** What [complete()] guards in the claim on idle ticks: the queues, the
    running slots, the per-core usage and [finished]. *)
Definition observed (s : Scheduler) :=
  (finished s, cpu_usage s, processes s, ready s, waiting s, running s).

(** An element of the [events] list of [spawn_process] that the conversion
    accepts: a value list that starts with a recognised kind and a number. *)
Definition event_tuple (v : Value) : Prop :=
  ∃ kind_str kind duration rest,
    v = ValueList (VString kind_str :: VNumber duration :: rest)
    ∧ event_kind_try_from_str kind_str = Some kind.

(** A value list of at least two values, or no value list at all. *)
Definition long_enough (v : Value) : Prop :=
  ∀ tuple, v = ValueList tuple → (2 ≤ length tuple)%nat.

(** The per-core arrays keep their lengths, and the members that only the
    driver assigns keep their values. *)
Definition stable (s s' : Scheduler) : Prop :=
  shape s' = shape s ∧ config s' = config s.



(** The six per-core arrays have [MAX_THREADS] slots each. *)
Definition full (s : Scheduler) : Prop := shape s = replicate 6 MAX_THREADS.

(** ** Readings of a state

    What the properties below say of a scheduler, of a process or of
    a state of the interpreter. *)

(** A reading [f] of the scheduler that a tick moves along [R] only: the
    queues, the running slots, [cpu_usage], [throughput] and
    [previous_finished_count] take no part in it, and a push to [finished]
    moves it along [R]. *)
Definition tick_monotone {A} (R : relation A) (f : Scheduler → A) : Prop :=
  (∀ s v, f (set_running s v) = f s)
  ∧ (∀ s v, f (set_processes s v) = f s)
  ∧ (∀ s v, f (set_waiting s v) = f s)
  ∧ (∀ s v, f (set_ready s v) = f s)
  ∧ (∀ s v, f (set_cpu_usage s v) = f s)
  ∧ (∀ s v, f (set_throughput s v) = f s)
  ∧ (∀ s v, f (set_previous_finished_count s v) = f s)
  ∧ (∀ s p, R (f s) (f (set_finished s (finished s ++ [p])))).

(** The pids that [ensure_pid_is_unique] compares with on a core. *)
Definition live_pids (run : option Process) (rdy wts : list Process) : list Z :=
  pid <$> (option_list run ++ rdy ++ wts).

(** The kind of the first event of a process. *)
Definition first_kind (p : Process) : option EventKind :=
  kind <$> head (events p).

(** What a dispatch on a Cpu event makes of a process: the conditional
    assignment to [start_time]. *)
Definition admitted (timer : Z) (p : Process) : Process :=
  set_start_time p
    (match start_time p with None => Some timer | Some _ => None end).

(** An event after one tick: [--current_event.duration]. *)
Definition ticked (e : Event) : Event :=
  set_duration e (wrap64 (duration e - 1)).

(** The first event of the process ends with this tick. *)
Definition expires (p : Process) : bool :=
  match events p with
  | e :: _ => duration (ticked e) =? 0
  | [] => false
  end.

(** A process after one tick on its first event: the event is shortened,
    and popped when it ends. *)
Definition waited (p : Process) : Process :=
  match events p with
  | e :: rest =>
      if expires p then set_events p rest else set_events p (ticked e :: rest)
  | [] => p
  end.

(** The conditional assignment to [finish_time]. *)
Definition stamped (timer : Z) (p : Process) : Process :=
  set_finish_time p
    (match finish_time p with None => Some timer | Some _ => None end).

(** What the three assertions of [update_waiting_list] ask of a process. *)
Definition on_io (p : Process) : Prop :=
  match events p with
  | e :: _ => kind e = Io ∧ 0 < duration e
  | [] => False
  end.

(** The time that the events of a process ask for. *)
Definition total_duration (p : Process) : Z :=
  foldr (λ e acc, duration e + acc) 0 (events p).

(** The processes of a spawn sequence that land on core [t] when the
    placement cursor starts at [cursor] and [threads_count] cores are
    dealt to: those whose position [i] has [(cursor + i) mod threads_count
    = t], in their order. [k] is the position of the first argument. *)
Definition placed (threads_count cursor : Z) (t : nat) (k : nat)
    (args : list (string * Z * Z * list Event)) : list Process :=
  (λ ia, let '(name, pid, arrival, events) := ia.2 in
         new_process name pid arrival events)
    <$> filter (λ ia, (cursor + Z.of_nat ia.1) mod threads_count = Z.of_nat t)
          (zip (seq k (length args)) args).

(** The queues hold processes by the kind of their first event: Io in
    [waiting], Cpu in [ready] and in the running slots. *)
Definition disciplined (s : Scheduler) : Prop :=
  Forall (Forall (λ p, first_kind p = Some Io)) (waiting s)
  ∧ Forall (Forall (λ p, first_kind p = Some Cpu)) (ready s)
  ∧ Forall (λ run, ∀ p, run = Some p → first_kind p = Some Cpu) (running s).




(** The state after the diagnostics [ds] have been printed. *)
Definition printed (st : State) (ds : list Diagnostic) : State :=
  mkState (sim st) (diagnostics st ++ ds) (spawned_pids st) (random st).

(** The state after [n] more draws from the generator. *)
Definition drawn (st : State) (n : nat) : State :=
  mkState (sim st) (diagnostics st) (spawned_pids st)
    (mkRandom (raw_float (random st)) (raw_natural (random st))
       (n + draws (random st))).

(** The event that the conversion makes of an element of the list: the
    kind and the duration that the element names. The values after the
    first two are not looked at. *)
Definition converts_to (v : Value) (e : Event) : Prop :=
  ∃ kind_str rest,
    v = ValueList (VString kind_str :: VNumber (duration e) :: rest)
    ∧ event_kind_try_from_str kind_str = Some (kind e).

(** ** The widgets (gui/Gui.hpp)

    The parts of the widget layer that compute without ImGui: the ring
    buffer of the plots, the walk of [grid] over its cells, and the
    selection store of the combo boxes. *)

Module Gui.

(** What [grid] does, in the order it does it: it invokes the callback on
    an index, or calls [ImGui::SameLine]. *)
Inductive GridCall : Type :=
  | Cell (idx : Z)
  | SameLine.

(** The inner loop of [grid], with [todo] columns left in the row; it
    answers the index it stopped at and the calls it made. *)
Fixpoint grid_row (todo : nat) (cols count col idx : Z) : Z * list GridCall :=
  match todo with
  | O => (idx, [])
  | S todo =>
      if count <=? idx then (idx, [])
      else
        let same_line :=
          if (col <? wrap64 (cols - 1)) && (wrap64 (idx + 1) <? count)
          then [SameLine] else [] in
        let '(idx', calls) :=
          grid_row todo cols count (wrap64 (col + 1)) (wrap64 (idx + 1)) in
        (idx', Cell idx :: same_line ++ calls)
  end.

(** The outer loop, with [todo] rows left. *)
Fixpoint grid_rows (todo : nat) (cols count idx : Z) : list GridCall :=
  match todo with
  | O => []
  | S todo =>
      let '(idx', calls) := grid_row (Z.to_nat cols) cols count 0 idx in
      calls ++ grid_rows todo cols count idx'
  end.

(** [grid(rows, cols, count, size, callback)], with the three integers
    converted to [std::size_t] as the comparisons of the loops do. *)
Definition grid (rows cols count : Z) : list GridCall :=
  grid_rows (Z.to_nat rows) cols count 0.

(** One cell of a grid read row by row: the callback on [idx], and a
    [SameLine] unless the cell ends its row or is the last one. *)
Definition cell (cols count idx : Z) : list GridCall :=
  Cell idx ::
  (if (idx mod cols <? cols - 1) && (idx + 1 <? count) then [SameLine] else []).

End Gui.

Module ComboManager.

(** [Key]: a [std::type_index], by the name of the enum, and an [ImGuiID]. *)
Abbreviation Key := (string * Z)%type (only parsing).

(** What a [std::any] of [states] holds: nothing, or a [std::uint8_t];
    nothing else is ever stored. *)
Inductive Any : Type :=
  | AnyEmpty
  | AnyUint8 (v : Z).

Abbreviation States := (gmap Key Any) (only parsing).

(** The outcome of [std::any_cast<std::uint8_t&>]: the byte, or
    [std::bad_any_cast] thrown. *)
Inductive Selected : Type :=
  | Reference (v : Z)
  | BadAnyCast.

(** [register_combo_by_id] *)
Definition register_combo_by_id (key : Key) (default_index : Z)
    (states : States) : States :=
  if bool_decide (is_Some (states !! key)) then states
  else <[key := AnyUint8 default_index]> states.

(** [states[key]]: [operator[]] of the map inserts an empty [std::any]
    under a key that is absent. *)
Definition subscript (key : Key) (states : States) : Any * States :=
  match states !! key with
  | Some a => (a, states)
  | None => (AnyEmpty, <[key := AnyEmpty]> states)
  end.

(** [selected_variant_by_id]: the subscript is evaluated, then the cast;
    an exception leaves the map as the subscript made it. *)
Definition selected_variant_by_id (key : Key) (states : States)
  : Selected * States :=
  let '(a, states) := subscript key states in
  match a with
  | AnyUint8 v => (Reference v, states)
  | AnyEmpty => (BadAnyCast, states)
  end.

(** An assignment through the reference that [selected_variant_by_id]
    returned. *)
Definition assign_selected (key : Key) (v : Z) (states : States) : States :=
  <[key := AnyUint8 v]> states.

(** A sequence of [register_combo_by_id] calls for one key. *)
Definition register_all (key : Key) (defaults : list Z) (states : States)
  : States :=
  foldl (λ states d, register_combo_by_id key d states) states defaults.

End ComboManager.

Module Plotting.

(** [ImVec2], with its two floats as bit patterns. *)
Record ImVec2 : Type := mkImVec2 { x : float32; y : float32 }.

(** [RingBuffer]: [capacity] and [cursor] are [int]s, [data] is an
    [ImVector<ImVec2>], whose [operator[]] is defined on the indices below
    its size only. *)
Record RingBuffer : Type := mkRingBuffer {
  capacity : Z;
  cursor : Z;
  data : list ImVec2;
}.

(** [explicit RingBuffer(int capacity = 2000)]; [reserve] allocates and
    leaves the size at 0. *)
Definition new_ring_buffer (capacity : Z) : RingBuffer :=
  mkRingBuffer capacity 0 [].

(** [data[index]] for an [int] index. *)
Definition im_at (data : list ImVec2) (index : Z) : result ImVec2 :=
  if index <? 0 then OutOfBounds else at_ data (Z.to_nat index).

(** [emplace_point]. [%] on [int]s truncates, as [Z.rem] does. *)
Definition emplace_point (x y : float32) (rb : RingBuffer) : result RingBuffer :=
  if Z.of_nat (length (data rb)) <? capacity rb then
    Ok (mkRingBuffer (capacity rb) (cursor rb) (data rb ++ [mkImVec2 x y]))
  else
    _ ← im_at (data rb) (cursor rb);
    let data' := <[Z.to_nat (cursor rb) := mkImVec2 x y]> (data rb) in
    if capacity rb =? 0 then DivisionByZero
    else Ok (mkRingBuffer (capacity rb) (Z.rem (cursor rb + 1) (capacity rb)) data').

(** [clear]: the cursor stays where it is. *)
Definition clear (rb : RingBuffer) : RingBuffer :=
  mkRingBuffer (capacity rb) (cursor rb) [].

(** [operator[]], [size] and [offset]. *)
Definition index (rb : RingBuffer) (i : Z) : result ImVec2 := im_at (data rb) i.

Definition size (rb : RingBuffer) : Z := Z.of_nat (length (data rb)).

Definition offset (rb : RingBuffer) : Z := cursor rb.

(** A sequence of [emplace_point] calls. *)
Fixpoint emplace_points (points : list ImVec2) (rb : RingBuffer)
  : result RingBuffer :=
  match points with
  | [] => Ok rb
  | p :: points =>
      rb ← emplace_point (x p) (y p) rb;
      emplace_points points rb
  end.

(** The points of the buffer from the oldest to the newest: from the
    cursor to the end, then from the start to the cursor. *)
Definition in_order (rb : RingBuffer) : list ImVec2 :=
  drop (Z.to_nat (offset rb)) (data rb) ++ take (Z.to_nat (offset rb)) (data rb).

(** The buffer holds the last points of the history [hist], as many as
    its capacity [c] allows. *)
Definition holds (c : nat) (hist : list ImVec2) (rb : RingBuffer) : Prop :=
  capacity rb = Z.of_nat c
  ∧ (∃ k : nat, cursor rb = Z.of_nat k ∧ (k < c)%nat
       ∧ (length hist < c → k = 0)%nat)
  ∧ length (data rb) = (length hist `min` c)%nat
  ∧ in_order rb = drop (length hist - c) hist.

End Plotting.

(** ** Lemmas on the engine *)

(** *** Sequencing *)

Lemma bind_Ok {A B} (m : result A) (f : A → result B) b :
  m ≫= f = Ok b → ∃ a, m = Ok a ∧ f a = Ok b.
Proof. destruct m; cbn; intros H; try discriminate. eauto. Qed.

Lemma at_Ok {A} (arr : list A) i x : at_ arr i = Ok x → arr !! i = Some x.
Proof. unfold at_. destruct (arr !! i); intros H; congruence. Qed.

Lemma at_lookup {A} (arr : list A) i x : arr !! i = Some x → at_ arr i = Ok x.
Proof. unfold at_. intros ->. reflexivity. Qed.

Lemma assert_Ok b u : assert_ b = Ok u → b = true.
Proof. destruct b; cbn; congruence. Qed.

(** Splits a hypothesis [x ← m; k = Ok b] into [m = Ok x] and [k = Ok b]. *)
Ltac bind_inv H :=
  let a := fresh "a" in
  let Ha := fresh "H" a in
  apply bind_Ok in H; destruct H as (a & Ha & H).

(** *** What the engine leaves alone *)

Lemma stable_refl s : stable s s.
Proof. split; reflexivity. Qed.

Lemma stable_trans s1 s2 s3 : stable s1 s2 → stable s2 s3 → stable s1 s3.
Proof. intros [H1 H2] [H3 H4]. split; congruence. Qed.

Ltac stable_setters :=
  unfold stable, shape, config; cbn; rewrite ?length_insert; auto.

Lemma dispatch_stable thread_idx process s s' :
  dispatch_process_by_first_event thread_idx process s = Ok s' → stable s s'.
Proof.
  unfold dispatch_process_by_first_event. intros H.
  destruct (events process) as [|first_event rest]; [discriminate|].
  destruct (kind first_event); bind_inv H; injection H as <-; stable_setters.
Qed.

Lemma sidetrack_loop_stable fuel thread_idx it s s' :
  sidetrack_loop fuel thread_idx it s = Ok s' → stable s s'.
Proof.
  revert it s. induction fuel as [|fuel IH]; intros it s H; [discriminate|].
  cbn [sidetrack_loop] in H. bind_inv H.
  destruct (a !! it) as [process|]; [|injection H as <-; apply stable_refl].
  destruct (negb (arrival process =? timer s)); [eauto|].
  bind_inv H. destruct (negb a0); [eauto|].
  destruct (bool_decide (events process = [])); [eauto|].
  bind_inv H. apply dispatch_stable in Ha1. apply IH in H.
  eapply stable_trans; [exact Ha1|]. eapply stable_trans; [|exact H].
  stable_setters.
Qed.

Lemma update_waiting_loop_stable waits kept to_dispatch s kept' to_dispatch' s' :
  update_waiting_loop waits kept to_dispatch s = Ok (kept', to_dispatch', s') →
  stable s s'.
Proof.
  revert kept to_dispatch s.
  induction waits as [|process waits IH]; intros kept to_dispatch s H.
  - injection H as <- <- <-. apply stable_refl.
  - cbn [update_waiting_loop] in H.
    destruct (events process) as [|current_event rest]; [discriminate|].
    bind_inv H. bind_inv H.
    repeat match type of H with
           | (if ?c then _ else _) = _ => destruct c
           end; apply IH in H; eapply stable_trans; try exact H; stable_setters.
Qed.

Lemma dispatch_all_stable thread_idx to_dispatch s s' :
  dispatch_all thread_idx to_dispatch s = Ok s' → stable s s'.
Proof.
  revert s. induction to_dispatch as [|process to_dispatch IH]; intros s H.
  - injection H as <-. apply stable_refl.
  - cbn [dispatch_all] in H. bind_inv H.
    eapply stable_trans; [eapply dispatch_stable|]; eauto.
Qed.

Lemma update_waiting_list_stable thread_idx s s' :
  update_waiting_list thread_idx s = Ok s' → stable s s'.
Proof.
  unfold update_waiting_list. intros H. bind_inv H. bind_inv H.
  destruct a0 as [[kept to_dispatch] s1].
  apply update_waiting_loop_stable in Ha0. apply dispatch_all_stable in H.
  eapply stable_trans; [exact Ha0|]. eapply stable_trans; [|exact H].
  stable_setters.
Qed.

Lemma update_running_stable thread_idx s s' :
  update_running thread_idx s = Ok s' → stable s s'.
Proof.
  unfold update_running. intros H. bind_inv H.
  destruct a as [process|]; [|injection H as <-; apply stable_refl].
  destruct (events process) as [|current_event rest]; [discriminate|].
  bind_inv H. bind_inv H.
  match type of H with (if ?c then _ else _) = _ => destruct c end.
  - bind_inv H. injection H as <-.
    match type of Ha2 with (if ?c then _ else _) = _ => destruct c end.
    + apply dispatch_stable in Ha2. eapply stable_trans; [exact Ha2|].
      stable_setters.
    + injection Ha2 as <-. stable_setters.
  - injection H as <-. stable_setters.
Qed.

Lemma fcfs_loop_stable n thread_idx sim sim' :
  fcfs_loop n thread_idx sim = Ok sim' → stable sim sim'.
Proof.
  revert thread_idx sim. induction n as [|n IH]; intros thread_idx sim H.
  - injection H as <-. apply stable_refl.
  - cbn [fcfs_loop] in H. bind_inv H.
    destruct a as [|process rest]; [injection H as <-; apply stable_refl|].
    bind_inv H. apply IH in H. eapply stable_trans; [|exact H].
    stable_setters.
Qed.

Lemma rr_loop_stable quantum n thread_idx sim sim' :
  rr_loop quantum n thread_idx sim = Ok sim' → stable sim sim'.
Proof.
  revert thread_idx sim. induction n as [|n IH]; intros thread_idx sim H.
  - injection H as <-. apply stable_refl.
  - cbn [rr_loop] in H. bind_inv H.
    destruct a as [|process rest]; [injection H as <-; apply stable_refl|].
    bind_inv H.
    destruct (events process) as [|next_event evs]; [discriminate|].
    bind_inv H. apply IH in H. eapply stable_trans; [|exact H].
    stable_setters.
Qed.

Lemma apply_policy_stable policy sim sim' :
  apply_policy policy sim = Ok sim' → stable sim sim'.
Proof.
  unfold apply_policy. destruct (callback_ policy).
  - apply fcfs_loop_stable.
  - apply rr_loop_stable.
Qed.

Lemma step_thread_stable fuel thread_idx s s' :
  step_thread fuel thread_idx s = Ok s' → stable s s'.
Proof.
  unfold step_thread, sidetrack_processes. intros H.
  bind_inv H. apply sidetrack_loop_stable in Ha.
  bind_inv H. apply update_waiting_list_stable in Ha0.
  bind_inv H. apply update_running_stable in Ha1.
  bind_inv H. bind_inv H.
  assert (stable a1 a3) as Hpol.
  { destruct a2; [injection Ha3 as <-; apply stable_refl|].
    eapply apply_policy_stable; eauto. }
  bind_inv H. bind_inv H. bind_inv H. injection H as <-.
  eapply stable_trans; [exact Ha|]. eapply stable_trans; [exact Ha0|].
  eapply stable_trans; [exact Ha1|]. eapply stable_trans; [exact Hpol|].
  clear. 
  repeat match goal with
         | |- context [match ?x with _ => _ end] => destruct x
         end; stable_setters; rewrite ?length_replicate; auto.
Qed.

Lemma step_loop_stable fuel n thread_idx s s' :
  step_loop fuel n thread_idx s = Ok s' → stable s s'.
Proof.
  revert thread_idx s. induction n as [|n IH]; intros thread_idx s H.
  - injection H as <-. apply stable_refl.
  - cbn [step_loop] in H. bind_inv H.
    eapply stable_trans; [eapply step_thread_stable|]; eauto.
Qed.

Lemma step_stable fuel s s' :
  step fuel s = Ok s' → stable (set_valid_backup s true) s'.
Proof.
  unfold step. intros H. bind_inv H. injection H as <-.
  apply step_loop_stable in Ha.
  eapply stable_trans; [exact Ha|]. stable_setters.
Qed.

Lemma steps_stable fuel n s s' :
  steps fuel (S n) s = Ok s' → stable (set_valid_backup s true) s'.
Proof.
  revert s. induction n as [|n IH]; intros s H.
  - cbn [steps] in H. bind_inv H. injection H as <-. by eapply step_stable.
  - change (steps fuel (S (S n)) s) with (step fuel s ≫= steps fuel (S n)) in H.
    bind_inv H. apply step_stable in Ha. apply IH in H.
    eapply stable_trans; [exact Ha|]. eapply stable_trans; [|exact H].
    destruct Ha as [_ Ha]. unfold config in Ha. injection Ha as _ _ _ _ _ _ _ Hv.
    cbn in Hv. unfold stable, shape, config. cbn. by rewrite Hv.
Qed.


Lemma restart_loop_length idx backup procs procs' :
  restart_loop idx backup procs = Ok procs' → length procs' = length procs.
Proof.
  revert idx procs. induction backup as [|queue backup IH]; intros idx procs H.
  - by injection H as <-.
  - cbn [restart_loop] in H. bind_inv H. apply IH in H.
    by rewrite length_insert in H.
Qed.

Lemma restart_stable s s' : restart s = Ok s' → stable s s'.
Proof.
  unfold restart. intros H. bind_inv H. bind_inv H. injection H as <-.
  apply restart_loop_length in Ha0. cbn in Ha0.
  unfold stable, shape, config. cbn. by rewrite Ha0.
Qed.


(** *** Indexing within the per-core arrays *)

Lemma bind_in_bounds {A B} (m : result A) (f : A → result B) :
  m ≠ OutOfBounds → (∀ a, m = Ok a → f a ≠ OutOfBounds) →
  m ≫= f ≠ OutOfBounds.
Proof. destruct m; cbn; intros H1 H2; try done. by apply H2. Qed.

Lemma full_at s thread_idx :
  full s → (thread_idx < MAX_THREADS)%nat →
  ∃ run procs wts rdy,
    at_ (running s) thread_idx = Ok run
    ∧ at_ (processes s) thread_idx = Ok procs
    ∧ at_ (waiting s) thread_idx = Ok wts
    ∧ at_ (ready s) thread_idx = Ok rdy.
Proof.
  unfold full, shape. intros H Hlt. injection H as Hr Hp Hw Hrd _ _.
  destruct (lookup_lt_is_Some_2 (running s) thread_idx) as [run Hrun]; [lia|].
  destruct (lookup_lt_is_Some_2 (processes s) thread_idx) as [procs Hprocs]; [lia|].
  destruct (lookup_lt_is_Some_2 (waiting s) thread_idx) as [wts Hwts]; [lia|].
  destruct (lookup_lt_is_Some_2 (ready s) thread_idx) as [rdy Hrdy]; [lia|].
  exists run, procs, wts, rdy. unfold at_. by rewrite Hrun, Hprocs, Hwts, Hrdy.
Qed.

Lemma stable_full s s' : stable s s' → full s → full s'.
Proof. unfold full. intros [-> _]. done. Qed.

Lemma dispatch_in_bounds thread_idx process s :
  full s → (thread_idx < MAX_THREADS)%nat →
  dispatch_process_by_first_event thread_idx process s ≠ OutOfBounds.
Proof.
  intros Hf Hlt.
  destruct (full_at s thread_idx Hf Hlt) as (run & procs & wts & rdy & _ & _ & Hw & Hr).
  unfold dispatch_process_by_first_event.
  destruct (events process) as [|first_event rest]; [done|].
  destruct (kind first_event); [by rewrite Hr|by rewrite Hw].
Qed.

Lemma ensure_pid_is_unique_in_bounds thread_idx pid' s :
  full s → (thread_idx < MAX_THREADS)%nat →
  ∃ unique, ensure_pid_is_unique thread_idx pid' s = Ok unique.
Proof.
  intros Hf Hlt.
  destruct (full_at s thread_idx Hf Hlt) as (run & procs & wts & rdy & Hrun & _ & Hw & Hr).
  unfold ensure_pid_is_unique. rewrite Hrun, Hr, Hw. by eexists.
Qed.

Lemma sidetrack_loop_in_bounds fuel thread_idx it s :
  full s → (thread_idx < MAX_THREADS)%nat →
  sidetrack_loop fuel thread_idx it s ≠ OutOfBounds.
Proof.
  intros Hf Hlt. revert it s Hf.
  induction fuel as [|fuel IH]; intros it s Hf; [done|].
  destruct (full_at s thread_idx Hf Hlt) as (run & procs & wts & rdy & _ & Hp & _ & _).
  cbn [sidetrack_loop]. rewrite Hp. cbn [mbind result_bind].
  destruct (procs !! it) as [process|]; [|done].
  destruct (negb (arrival process =? timer s)); [by apply IH|].
  destruct (ensure_pid_is_unique_in_bounds thread_idx (pid process) s Hf Hlt)
    as [unique ->].
  cbn [mbind result_bind]. destruct (negb unique); [by apply IH|].
  destruct (bool_decide (events process = [])); [by apply IH|].
  apply bind_in_bounds; [by apply dispatch_in_bounds|].
  intros s1 Hd. apply IH. apply dispatch_stable in Hd.
  eapply stable_full; [|exact Hf]. eapply stable_trans; [exact Hd|].
  stable_setters.
Qed.

Lemma update_waiting_loop_in_bounds waits kept to_dispatch s :
  update_waiting_loop waits kept to_dispatch s ≠ OutOfBounds.
Proof.
  revert kept to_dispatch s.
  induction waits as [|process waits IH]; intros kept to_dispatch s; [done|].
  cbn [update_waiting_loop].
  destruct (events process) as [|current_event rest]; [done|].
  destruct (bool_decide (kind current_event = Io)); [|done].
  destruct (0 <? duration current_event); [|done].
  cbn [assert_ mbind result_bind].
  repeat match goal with
         | |- (if ?c then _ else _) ≠ _ => destruct c
         end; apply IH.
Qed.

Lemma dispatch_all_in_bounds thread_idx to_dispatch s :
  full s → (thread_idx < MAX_THREADS)%nat →
  dispatch_all thread_idx to_dispatch s ≠ OutOfBounds.
Proof.
  intros Hf Hlt. revert s Hf.
  induction to_dispatch as [|process to_dispatch IH]; intros s Hf; [done|].
  cbn [dispatch_all]. apply bind_in_bounds; [by apply dispatch_in_bounds|].
  intros s1 Hd. apply IH. eapply stable_full; [|exact Hf].
  by eapply dispatch_stable.
Qed.

Lemma update_waiting_list_in_bounds thread_idx s :
  full s → (thread_idx < MAX_THREADS)%nat →
  update_waiting_list thread_idx s ≠ OutOfBounds.
Proof.
  intros Hf Hlt.
  destruct (full_at s thread_idx Hf Hlt) as (run & procs & wts & rdy & _ & _ & Hw & _).
  unfold update_waiting_list. rewrite Hw. cbn [mbind result_bind].
  apply bind_in_bounds; [apply update_waiting_loop_in_bounds|].
  intros [[kept to_dispatch] s1] Hloop.
  apply dispatch_all_in_bounds; [|done].
  apply update_waiting_loop_stable in Hloop.
  eapply stable_full; [|exact Hf]. eapply stable_trans; [exact Hloop|].
  stable_setters.
Qed.

Lemma update_running_in_bounds thread_idx s :
  full s → (thread_idx < MAX_THREADS)%nat →
  update_running thread_idx s ≠ OutOfBounds.
Proof.
  intros Hf Hlt.
  destruct (full_at s thread_idx Hf Hlt) as (run & procs & wts & rdy & Hr & _ & _ & _).
  unfold update_running. rewrite Hr. cbn [mbind result_bind].
  destruct run as [process|]; [|done].
  destruct (events process) as [|current_event rest]; [done|].
  destruct (bool_decide (kind current_event = Cpu)); [|done].
  destruct (0 <? duration current_event); [|done].
  cbn [assert_ mbind result_bind].
  match goal with |- (if ?c then _ else _) ≠ _ => destruct c end; [|done].
  apply bind_in_bounds; [|done].
  match goal with |- (if ?c then _ else _) ≠ _ => destruct c end; [|done].
  by apply dispatch_in_bounds.
Qed.

Lemma fcfs_loop_in_bounds n thread_idx sim :
  full sim → (thread_idx + n ≤ MAX_THREADS)%nat →
  fcfs_loop n thread_idx sim ≠ OutOfBounds.
Proof.
  revert thread_idx sim. induction n as [|n IH]; intros thread_idx sim Hf Hle;
    [done|].
  destruct (full_at sim thread_idx Hf) as (run & procs & wts & rdy & Hr & _ & _ & Hrd);
    [lia|].
  cbn [fcfs_loop]. rewrite Hrd. cbn [mbind result_bind].
  destruct rdy as [|process rest]; [done|].
  cbn [running set_ready]. rewrite Hr. cbn [mbind result_bind].
  apply IH; [|lia]. eapply stable_full; [|exact Hf]. stable_setters.
Qed.

Lemma rr_loop_in_bounds quantum n thread_idx sim :
  full sim → (thread_idx + n ≤ MAX_THREADS)%nat →
  rr_loop quantum n thread_idx sim ≠ OutOfBounds.
Proof.
  revert thread_idx sim. induction n as [|n IH]; intros thread_idx sim Hf Hle;
    [done|].
  destruct (full_at sim thread_idx Hf) as (run & procs & wts & rdy & Hr & _ & _ & Hrd);
    [lia|].
  cbn [rr_loop]. rewrite Hrd. cbn [mbind result_bind].
  destruct rdy as [|process rest]; [done|].
  cbn [running set_ready]. rewrite Hr. cbn [mbind result_bind].
  destruct (events process) as [|next_event evs]; [done|].
  destruct (bool_decide (kind next_event = Cpu)); [|done].
  cbn [assert_ mbind result_bind].
  apply IH; [|lia]. eapply stable_full; [|exact Hf]. stable_setters.
Qed.

Lemma apply_policy_in_bounds policy sim :
  full sim → threads_count sim ≤ Z.of_nat MAX_THREADS →
  apply_policy policy sim ≠ OutOfBounds.
Proof.
  intros Hf Htc. unfold apply_policy.
  destruct (callback_ policy);
    [apply fcfs_loop_in_bounds|apply rr_loop_in_bounds]; try done; lia.
Qed.

Lemma step_thread_in_bounds fuel thread_idx s :
  full s → threads_count s ≤ Z.of_nat MAX_THREADS →
  (thread_idx < MAX_THREADS)%nat →
  step_thread fuel thread_idx s ≠ OutOfBounds.
Proof.
  intros Hf Htc Hlt. unfold step_thread, sidetrack_processes.
  apply bind_in_bounds; [by apply sidetrack_loop_in_bounds|].
  intros s1 H1. apply sidetrack_loop_stable in H1.
  pose proof (stable_full _ _ H1 Hf) as Hf1.
  apply bind_in_bounds; [by apply update_waiting_list_in_bounds|].
  intros s2 H2. apply update_waiting_list_stable in H2.
  pose proof (stable_full _ _ H2 Hf1) as Hf2.
  apply bind_in_bounds; [by apply update_running_in_bounds|].
  intros s3 H3. apply update_running_stable in H3.
  pose proof (stable_full _ _ H3 Hf2) as Hf3.
  assert (threads_count s3 = threads_count s) as Htc3.
  { pose proof (stable_trans _ _ _ (stable_trans _ _ _ H1 H2) H3) as [_ Hc].
    unfold config in Hc. by injection Hc as _ _ _ _ _ -> _ _. }
  destruct (full_at s3 thread_idx Hf3 Hlt) as (run & procs & wts & rdy & Hr & _ & _ & _).
  rewrite Hr. cbn [mbind result_bind].
  apply bind_in_bounds.
  { destruct run; [done|]. apply apply_policy_in_bounds; [done|lia]. }
  intros s4 H4.
  assert (stable s3 s4) as H34.
  { destruct run; [injection H4 as <-; apply stable_refl|].
    by eapply apply_policy_stable. }
  pose proof (stable_full _ _ H34 Hf3) as Hf4.
  destruct (full_at s4 thread_idx Hf4 Hlt) as (run4 & _ & _ & rdy4 & Hr4 & _ & _ & Hrd4).
  rewrite Hr4, Hrd4. cbn [mbind result_bind].
  match goal with |- at_ (running ?x) _ ≫= _ ≠ _ => assert (full x) as Hf5 end.
  { destruct run4, rdy4; try done. eapply stable_full; [|exact Hf4].
    stable_setters. }
  match goal with
  | |- at_ (running ?x) _ ≫= _ ≠ _ =>
      destruct (full_at x thread_idx Hf5 Hlt) as (run5 & _ & _ & _ & -> & _)
  end.
  done.
Qed.

Lemma step_loop_in_bounds fuel n thread_idx s :
  full s → threads_count s ≤ Z.of_nat MAX_THREADS →
  (thread_idx + n ≤ MAX_THREADS)%nat →
  step_loop fuel n thread_idx s ≠ OutOfBounds.
Proof.
  revert thread_idx s. induction n as [|n IH]; intros thread_idx s Hf Htc Hle;
    [done|].
  cbn [step_loop]. apply bind_in_bounds; [apply step_thread_in_bounds; try done; lia|].
  intros s1 H1. apply step_thread_stable in H1.
  apply IH; [by eapply stable_full| |lia].
  destruct H1 as [_ Hc]. unfold config in Hc.
  injection Hc as _ _ _ _ _ Ht _ _. by rewrite Ht.
Qed.

(** With no more cores than slots, [step] never indexes past an array. *)
Lemma step_in_bounds fuel s :
  full s → threads_count s ≤ Z.of_nat MAX_THREADS →
  step fuel s ≠ OutOfBounds.
Proof.
  intros Hf Htc. unfold step. apply bind_in_bounds; [|done].
  apply step_loop_in_bounds; [done|done|]. cbn [threads_count set_valid_backup].
  lia.
Qed.

(** With the cursor on a slot, [emplace_process] never indexes past an
    array, and it leaves the cursor below [threads_count]. *)
Lemma emplace_process_in_bounds name pid arrival events s :
  full s → 0 ≤ next_thread s < Z.of_nat MAX_THREADS →
  emplace_process name pid arrival events s ≠ OutOfBounds.
Proof.
  unfold full, shape. intros Hf Hnt. injection Hf as _ Hp _ _ _ Hb.
  unfold emplace_process, at_.
  destruct (lookup_lt_is_Some_2 (processes s) (Z.to_nat (next_thread s)))
    as [q Hq]; [lia|].
  destruct (lookup_lt_is_Some_2 (processes_backup s) (Z.to_nat (next_thread s)))
    as [b Hb']; [lia|].
  rewrite Hq. cbn [mbind result_bind valid_backup set_processes processes_backup].
  destruct (valid_backup s); cbn [negb mbind result_bind].
  - by destruct (_ =? 0).
  - rewrite Hb'. cbn [mbind result_bind]. by destruct (_ =? 0).
Qed.

Lemma emplace_process_next_thread name pid arrival events s ret s' :
  0 < threads_count s →
  emplace_process name pid arrival events s = Ok (ret, s') →
  0 ≤ next_thread s' < threads_count s.
Proof.
  intros Htc. unfold emplace_process. intros H. bind_inv H. bind_inv H.
  assert (threads_count a0 = threads_count s) as Ht.
  { cbn [valid_backup set_processes negb] in Ha0.
    destruct (valid_backup s); cbn [negb] in Ha0; [|bind_inv Ha0];
      by injection Ha0 as <-. }
  rewrite Ht in H. destruct (threads_count s =? 0); [discriminate|].
  injection H as _ <-. cbn. apply Z.mod_pos_bound. lia.
Qed.

(** *** [complete] *)



(** [complete] reads the queues and the running slots only. *)
Lemma complete_observed s s' :
  observed s' = observed s → complete s' = complete s.
Proof.
  unfold observed, complete. intros H. injection H as _ _ -> -> -> ->. done.
Qed.

(** *** A tick of an idle engine *)









(** *** The usage of a complete engine *)










(** *** Backup and restart *)

(** Before the first tick every spawn is recorded: the backup is the
    pending queues. *)
Lemma emplace_process_backup name pid arrival events s ret s' :
  valid_backup s = false →
  processes_backup s = processes s →
  emplace_process name pid arrival events s = Ok (ret, s') →
  valid_backup s' = false ∧ processes_backup s' = processes s'
  ∧ config (set_processes_backup s' (processes_backup s)) = config s.
Proof.
  unfold emplace_process. intros Hv Hb H. bind_inv H. bind_inv H.
  destruct (threads_count a0 =? 0); [discriminate|]. injection H as _ <-.
  cbn [valid_backup set_processes negb processes_backup] in Ha0.
  rewrite Hv in Ha0. cbn [negb] in Ha0. bind_inv Ha0. injection Ha0 as <-.
  rewrite Hb in Ha1. assert (a1 = a) as -> by congruence.
  unfold config. cbn. rewrite Hv, Hb. done.
Qed.

Lemma spawn_all_backup args s s' :
  valid_backup s = false →
  processes_backup s = processes s →
  spawn_all args s = Ok s' →
  valid_backup s' = false ∧ processes_backup s' = processes s'
  ∧ config (set_processes_backup s' (processes_backup s)) = config s.
Proof.
  revert s. induction args as [|[[[name pid] arrival] events] args IH];
    intros s Hv Hb H.
  - injection H as <-. by destruct s.
  - cbn [spawn_all] in H. bind_inv H. unfold spawn in Ha. bind_inv Ha.
    destruct a0 as [ret s1]. injection Ha as <-.
    destruct (emplace_process_backup _ _ _ _ _ _ _ Hv Hb Ha0) as (Hv1 & Hb1 & Hc1).
    destruct (IH _ Hv1 Hb1 H) as (Hv2 & Hb2 & Hc2).
    split; [done|]. split; [done|].
    rewrite <- Hc1. unfold config in *. cbn in *. congruence.
Qed.

(** On empty pending queues the loop of [restart] rebuilds the backup. *)
Lemma restart_loop_empty backup :
  ∀ pre : list (list Process),
    restart_loop (length pre) backup (pre ++ replicate (length backup) [])
    = Ok (pre ++ backup).
Proof.
  induction backup as [|queue backup IH]; intros pre.
  - cbn. by rewrite !app_nil_r.
  - cbn [restart_loop length replicate]. unfold at_.
    rewrite list_lookup_middle by done. cbn [mbind result_bind app].
    rewrite insert_app_r_alt, Nat.sub_diag by done. cbn [insert list_insert].
    specialize (IH (pre ++ [queue])).
    rewrite length_app, Nat.add_1_r, <- !app_assoc in IH. exact IH.
Qed.

Lemma restart_loop_rebuilds (backup : list (list Process)) :
  restart_loop 0 backup (replicate (length backup) []) = Ok backup.
Proof. exact (restart_loop_empty backup []). Qed.

Lemma Forall_nil_replicate (procs : list (list Process)) :
  Forall (λ q, q = []) procs → procs = replicate (length procs) [].
Proof. induction 1 as [|q procs -> _ IH]; cbn; [done|]. by rewrite <- IH. Qed.

(** *** The arrival dispatch *)

(** An iteration of the loop of [sidetrack_processes] that meets, at the
    current tick, a process whose pid is taken or that has no event, leaves
    the iterator and the state as they are: the loop never ends. *)
Lemma sidetrack_loop_stalls fuel thread_idx it s procs process :
  at_ (processes s) thread_idx = Ok procs →
  procs !! it = Some process →
  arrival process = timer s →
  ensure_pid_is_unique thread_idx (pid process) s = Ok false
  ∨ (∃ u, ensure_pid_is_unique thread_idx (pid process) s = Ok u)
    ∧ events process = [] →
  sidetrack_loop fuel thread_idx it s = OutOfFuel.
Proof.
  intros Hprocs Hit Harr Hbad.
  induction fuel as [|fuel IH]; [reflexivity|].
  cbn [sidetrack_loop]. rewrite Hprocs. cbn [mbind result_bind].
  rewrite Hit, Harr, Z.eqb_refl. cbn [negb].
  destruct Hbad as [Hdup | [[u Hu] Hev]].
  - rewrite Hdup. cbn. exact IH.
  - rewrite Hu. cbn [mbind result_bind]. destruct u; cbn [negb].
    + rewrite Hev. rewrite bool_decide_eq_true_2 by reflexivity. exact IH.
    + exact IH.
Qed.

(** An iteration that dispatches the process under the iterator. *)
Lemma sidetrack_loop_dispatch fuel thread_idx it s procs process s' :
  at_ (processes s) thread_idx = Ok procs →
  procs !! it = Some process →
  arrival process = timer s →
  ensure_pid_is_unique thread_idx (pid process) s = Ok true →
  events process ≠ [] →
  dispatch_process_by_first_event thread_idx process s = Ok s' →
  sidetrack_loop (S fuel) thread_idx it s
  = sidetrack_loop fuel thread_idx it
      (set_processes s' (<[thread_idx := delete it procs]> (processes s'))).
Proof.
  intros Hprocs Hit Harr Hu Hev Hd.
  cbn [sidetrack_loop]. rewrite Hprocs. cbn [mbind result_bind].
  rewrite Hit, Harr, Z.eqb_refl, Hu. cbn [negb mbind result_bind].
  rewrite bool_decide_eq_false_2 by exact Hev.
  rewrite Hd. reflexivity.
Qed.

(** [step] does not return when the arrival dispatch of core 0 does not. *)
Lemma step_stalls_on_core_0 fuel s :
  0 < threads_count s →
  sidetrack_processes fuel 0 (set_valid_backup s true) = OutOfFuel →
  step fuel s = OutOfFuel.
Proof.
  intros Htc Hside. unfold step.
  replace (threads_count (set_valid_backup s true)) with (threads_count s)
    by reflexivity.
  destruct (Z.to_nat (threads_count s)) as [|n] eqn:Hn; [lia|].
  cbn [step_loop]. unfold step_thread. rewrite Hside. reflexivity.
Qed.

(** A dispatch on a Cpu event overwrites a [start_time] that is present
    with [std::nullopt]. *)
Lemma dispatch_clears_present_start_time thread_idx process s first_event rest t q :
  events process = first_event :: rest →
  kind first_event = Cpu →
  start_time process = Some t →
  ready s !! thread_idx = Some q →
  dispatch_process_by_first_event thread_idx process s
  = Ok (set_ready s (<[thread_idx := q ++ [set_start_time process None]]> (ready s))).
Proof.
  intros Hev Hk Hst Hq. unfold dispatch_process_by_first_event.
  rewrite Hev, Hk, Hst. unfold at_. cbn [events set_start_time]. rewrite Hq. reflexivity.
Qed.

(** ** Lemmas on the interpreter *)

(** The assignment [threads_count = n] of the DSL. *)
Lemma assign_threads_count ast fuel value lexeme n st :
  expression_by_id ast value = Ok (Number lexeme) →
  parse_number lexeme = Some n →
  evaluate_expression ast (S fuel) (Constant "threads_count" value) st
  = Ok (Some Monostate, set_sim st (set_threads_count (sim st) n)).
Proof.
  intros He Hn. cbn [evaluate_expression]. unfold constant_visitor.
  unfold mbind at 1, interp_bind, lift. rewrite He.
  change (String.eqb "threads_count" "max_processes") with false.
  change (String.eqb "threads_count" "max_events_per_process") with false.
  change (String.eqb "threads_count" "max_single_event_duration") with false.
  change (String.eqb "threads_count" "max_arrival_time") with false.
  change (String.eqb "threads_count" "threads_count") with true.
  cbv beta iota. unfold assign_number, mbind, interp_bind, try_.
  rewrite Hn. reflexivity.
Qed.

(** *** The conversion of the events of [spawn_process] *)

(** One iteration on an element that starts with a string and a number. *)
Lemma list_as_events_deque_loop_tuple kind_str duration more list_ events st :
  list_as_events_deque_loop
    (ValueList (VString kind_str :: VNumber duration :: more) :: list_) events st
  = match event_kind_try_from_str kind_str with
    | Some kind =>
        list_as_events_deque_loop list_
          (events ++ [mkEvent kind duration
                        (f32_max f32_0_01
                           (raw_float (random st) (draws (random st))))])
          (mkState (sim st) (diagnostics st) (spawned_pids st)
             (mkRandom (raw_float (random st)) (raw_natural (random st))
                (S (draws (random st)))))
    | None =>
        Ok (None, mkState (sim st) (diagnostics st ++ [NoteEventList])
                    (spawned_pids st) (random st))
    end.
Proof.
  cbn [list_as_events_deque_loop]. unfold mbind, interp_bind. cbn.
  by destruct (event_kind_try_from_str kind_str).
Qed.

(** The conversion walks over the elements that it accepts: it draws one
    usage for each and prints nothing. *)
Lemma list_as_events_deque_loop_prefix prefix :
  Forall event_tuple prefix →
  ∀ events st, ∃ events' st',
    diagnostics st' = diagnostics st ∧ sim st' = sim st
    ∧ ∀ rest, list_as_events_deque_loop (prefix ++ rest) events st
              = list_as_events_deque_loop rest events' st'.
Proof.
  induction 1 as [|v prefix (kind_str & kind & duration & more & -> & Hk) _ IH];
    intros events st.
  - exists events, st. done.
  - pose (st1 := mkState (sim st) (diagnostics st) (spawned_pids st)
                   (mkRandom (raw_float (random st)) (raw_natural (random st))
                      (S (draws (random st))))).
    destruct (IH (events ++ [mkEvent kind duration
                               (f32_max f32_0_01
                                  (raw_float (random st) (draws (random st))))])
                 st1) as (events' & st' & Hd & Hs & Hloop).
    exists events', st'. split; [done|]. split; [done|]. intros rest.
    rewrite <- Hloop. cbn [app]. by rewrite list_as_events_deque_loop_tuple, Hk.
Qed.

(** With at least two values in every element that is a value list, the
    conversion returns: both indexings are in bounds. *)
Lemma list_as_events_deque_loop_in_bounds list_ :
  Forall long_enough list_ →
  ∀ events st, ∃ o st', list_as_events_deque_loop list_ events st = Ok (o, st').
Proof.
  induction 1 as [|v list_ Hv _ IH]; intros events st; [by eexists _, _|].
  destruct v as [| | |tuple]; try by eexists _, _.
  specialize (Hv tuple eq_refl).
  destruct tuple as [|t0 [|t1 tuple]]; cbn in Hv; [lia|lia|].
  destruct t0 as [| kind_str | |]; try by eexists _, _.
  destruct t1 as [| | duration |]; try by eexists _, _.
  rewrite list_as_events_deque_loop_tuple.
  destruct (event_kind_try_from_str kind_str); [|by eexists _, _].
  apply IH.
Qed.

(** *** Reachable states *)

Lemma reachable_spawn_all args s s' :
  reachable s → spawn_all args s = Ok s' → reachable s'.
Proof.
  revert s. induction args as [|[[[name pid] arrival] events] args IH];
    intros s Hr H.
  - by injection H as <-.
  - cbn [spawn_all] in H. bind_inv H. unfold spawn in Ha. bind_inv Ha.
    destruct a0 as [ret s1]. injection Ha as <-.
    eapply IH; [|exact H]. by eapply reachable_emplace.
Qed.

Lemma reachable_steps fuel n s s' :
  reachable s → steps fuel n s = Ok s' → reachable s'.
Proof.
  revert s. induction n as [|n IH]; intros s Hr H.
  - by injection H as <-.
  - cbn [steps] in H. bind_inv H. eapply IH; [|exact H].
    by eapply reachable_step.
Qed.

(** ** The claims of the specification *)

(** C1 (the code does not do this). The specification has a pending
    process whose pid is taken on its core, or that has no event, dropped
    at its arrival tick with a diagnostic, and the tick go on. In the code
    both error branches of [sidetrack_processes] do [continue] without
    erasing the process or advancing the iterator: with two processes of
    one pid and one arrival on a core, and with a process without events,
    [step] does not return, whatever the fuel. *)
Theorem step_duplicate_pid_never_returns :
  ∀ fuel, (duplicate_pid ≫= step fuel) = OutOfFuel
          ∧ (no_events ≫= step fuel) = OutOfFuel.
Proof.
  intros fuel. split.
  - set (s := duplicate_pid). vm_compute in s. subst s.
    cbn [mbind result_bind].
    apply step_stalls_on_core_0; [reflexivity|].
    destruct fuel as [|fuel]; [reflexivity|]. unfold sidetrack_processes.
    erewrite sidetrack_loop_dispatch
      by (vm_compute; first [reflexivity | discriminate]).
    eapply sidetrack_loop_stalls; [vm_compute; reflexivity ..|].
    left. vm_compute. reflexivity.
  - set (s := no_events). vm_compute in s. subst s.
    cbn [mbind result_bind].
    apply step_stalls_on_core_0; [reflexivity|].
    unfold sidetrack_processes.
    eapply sidetrack_loop_stalls; [vm_compute; reflexivity ..|].
    right. split; [eexists|]; vm_compute; reflexivity.
Qed.



(** C3 (the code does not do this). The specification has [start_time]
    written once and never cleared. In the code a second dispatch into
    [ready] assigns [std::nullopt] to a [start_time] that is present: the
    process that computes, waits and computes again has [start_time] 0
    after the first tick and none after the third, and it finishes with
    neither [start_time] nor [finish_time]. *)
Theorem start_time_cleared_by_second_cpu_dispatch :
  returns (cpu_io_cpu ≫= steps 5 1)
    (λ s, start_time <$> omap id (running s) = [Some 0])
  ∧ returns (cpu_io_cpu ≫= steps 5 3)
      (λ s, start_time <$> omap id (running s) = [None])
  ∧ returns (cpu_io_cpu ≫= steps 5 4)
      (λ s, complete s = true
            ∧ (λ p, (start_time p, finish_time p)) <$> finished s = [(None, None)]).
Proof. vm_compute. auto. Qed.

(** C4, as stated, fails: [restart] appends the backup to the pending
    queues without clearing them, so after a tick that leaves a process
    pending the pending processes are not the spawned ones. *)
Lemma restart_before_arrival_duplicates_pending :
  returns late_arrival (λ s0,
    returns (step 5 s0 ≫= restart) (λ s,
      ¬ concat (processes s) ≡ₚ concat (processes s0))).
Proof.
  vm_compute. intros H. apply Permutation_length in H. discriminate.
Qed.

(** C4, amended. After a sequence of [emplace_process] calls on a
    scheduler that has not ticked, followed by at least one [step], in a
    state whose pending queues are all empty, [restart] returns and leaves
    every pending queue equal to the queue of processes spawned on that
    core; [timer], [throughput], [finished], [next_thread] and
    [previous_finished_count] are reset, and the policy and the
    configuration are those of before. *)
Theorem restart_restores_the_spawned_processes s0 args s1 fuel n s2 :
  valid_backup s0 = false →
  processes_backup s0 = processes s0 →
  spawn_all args s0 = Ok s1 →
  steps fuel (S n) s1 = Ok s2 →
  Forall (λ q, q = []) (processes s2) →
  ∃ s3, restart s2 = Ok s3
        ∧ processes s3 = processes s1
        ∧ timer s3 = 0
        ∧ throughput s3 = DoubleZero
        ∧ finished s3 = []
        ∧ next_thread s3 = 0
        ∧ previous_finished_count s3 = 0
        ∧ schedule_policy s3 = schedule_policy s0
        ∧ threads_count s3 = threads_count s0
        ∧ max_processes s3 = max_processes s0
        ∧ max_events_per_process s3 = max_events_per_process s0
        ∧ max_single_event_duration s3 = max_single_event_duration s0
        ∧ max_arrival_time s3 = max_arrival_time s0.
Proof.
  intros Hv Hb Hspawn Hsteps Hempty.
  destruct (spawn_all_backup _ _ _ Hv Hb Hspawn) as (Hv1 & Hb1 & Hc1).
  destruct (steps_stable _ _ _ _ Hsteps) as [Hshape Hc2].
  unfold shape in Hshape. injection Hshape as _ Hlen _ _ _ _.
  unfold config in Hc1, Hc2. cbn in Hc1, Hc2.
  injection Hc1 as Hp1 Hm1 Hm2 Hm3 Hm4 Ht1 _.
  injection Hc2 as Hp2 Hn1 Hn2 Hn3 Hn4 Ht2 Hback Hv2.
  unfold restart. cbn [valid_backup set_finished set_previous_finished_count
                       set_throughput set_next_thread set_timer
                       processes_backup processes].
  rewrite Hv2. cbn [assert_ mbind result_bind].
  rewrite (Forall_nil_replicate _ Hempty), Hlen, Hback, Hb1.
  rewrite restart_loop_rebuilds. cbn [mbind result_bind].
  eexists. split; [reflexivity|]. cbn. repeat split; congruence.
Qed.

Lemma restart_restores_witness :
  ∃ s1 s2 s3,
    spawn_all [("A", 0, 0, [mkEvent Cpu 3 half])] (cores 1) = Ok s1
    ∧ steps 5 4 s1 = Ok s2
    ∧ restart s2 = Ok s3
    ∧ processes s3 = processes s1
    ∧ timer s3 = 0.
Proof.
  let r1 := eval vm_compute in
              (spawn_all [("A", 0, 0, [mkEvent Cpu 3 half])] (cores 1)) in
  lazymatch r1 with
  | Ok ?s1 =>
      let r2 := eval vm_compute in (steps 5 4 s1) in
      lazymatch r2 with
      | Ok ?s2 =>
          assert (spawn_all [("A", 0, 0, [mkEvent Cpu 3 half])] (cores 1) = Ok s1)
            as H1 by (vm_compute; reflexivity);
          assert (steps 5 4 s1 = Ok s2) as H2 by (vm_compute; reflexivity);
          destruct (restart_restores_the_spawned_processes
                      (cores 1) _ s1 5 3 s2 eq_refl eq_refl H1 H2)
            as (s3 & H3 & Hp & Ht & _);
          [vm_compute; repeat constructor|];
          exists s1, s2, s3; repeat split; assumption
      end
  end.
Defined.

(** C5, as stated, fails: the assignment [threads_count = 12] of the DSL
    leaves [threads_count] at 12, and the next [step] indexes past the
    arrays. *)
Lemma threads_count_assignment_not_clamped :
  returns
    (evaluate_ast 5 (program [3]%nat)
       (initial_state (new_scheduler fcfs) some_random))
    (λ '(_, st), threads_count (sim st) = 12 ∧ step 5 (sim st) = OutOfBounds).
Proof. vm_compute. done. Qed.

(** C5, amended. [threads_count] is not clamped: it is [MAX_THREADS] after
    construction, an assignment through the DSL key stores the parsed
    number as it is, and [step], [emplace_process] and [restart] leave it
    unchanged. While it is at most [MAX_THREADS] (and the placement cursor
    is on a slot), [step] and [emplace_process] index within the arrays. *)
Theorem threads_count_is_stored_unclamped :
  (∀ policy, threads_count (new_scheduler policy) = Z.of_nat MAX_THREADS)
  ∧ (∀ ast fuel value lexeme n st,
       expression_by_id ast value = Ok (Number lexeme) →
       parse_number lexeme = Some n →
       evaluate_expression ast (S fuel) (Constant "threads_count" value) st
       = Ok (Some Monostate, set_sim st (set_threads_count (sim st) n)))
  ∧ (∀ fuel s s', step fuel s = Ok s' → threads_count s' = threads_count s)
  ∧ (∀ name pid arrival events s ret s',
       emplace_process name pid arrival events s = Ok (ret, s') →
       threads_count s' = threads_count s)
  ∧ (∀ s s', restart s = Ok s' → threads_count s' = threads_count s)
  ∧ (∀ fuel s,
       full s → threads_count s ≤ Z.of_nat MAX_THREADS →
       step fuel s ≠ OutOfBounds)
  ∧ (∀ name pid arrival events s,
       full s → 0 ≤ next_thread s < Z.of_nat MAX_THREADS →
       emplace_process name pid arrival events s ≠ OutOfBounds).
Proof.
  split; [done|]. split; [apply assign_threads_count|].
  split; [|split; [|split; [|split]]].
  - intros fuel s s' H. apply step_stable in H. destruct H as [_ H].
    unfold config in H. by injection H as _ _ _ _ _ -> _ _.
  - intros name pid arrival events s ret s' H.
    unfold emplace_process in H. bind_inv H. bind_inv H.
    assert (threads_count a0 = threads_count s) as Ht.
    { cbn [valid_backup set_processes negb] in Ha0.
      destruct (valid_backup s); cbn [negb] in Ha0; [|bind_inv Ha0];
        by injection Ha0 as <-. }
    destruct (threads_count a0 =? 0); [discriminate|]. by injection H as _ <-.
  - intros s s' H. apply restart_stable in H. destruct H as [_ H].
    unfold config in H. by injection H as _ _ _ _ _ -> _ _.
  - apply step_in_bounds.
  - apply emplace_process_in_bounds.
Qed.

Lemma threads_count_witness :
  evaluate_expression (program []) 1 (Constant "threads_count" 2%nat)
    (initial_state (new_scheduler fcfs) some_random)
  = Ok (Some Monostate,
        set_sim (initial_state (new_scheduler fcfs) some_random)
          (set_threads_count (new_scheduler fcfs) 12))
  ∧ step 5 (cores 9) ≠ OutOfBounds
  ∧ emplace_process "A" 0 0 [] (cores 9) ≠ OutOfBounds.
Proof.
  destruct threads_count_is_stored_unclamped as (_ & Ha & _ & _ & _ & Hs & He).
  split; [|split].
  - apply (Ha (program []) 0%nat 2%nat "12" 12); reflexivity.
  - apply Hs; [reflexivity|]. vm_compute. discriminate.
  - apply He; [reflexivity|]. split; vm_compute; [discriminate|reflexivity].
Defined.

(** C6 (the code does not do this). The specification has every live
    process owned by exactly one queue slot. In the code the policy that
    [step] invokes for an idle core assigns [running] on every core from
    core 0 on whose [ready] queue is not empty, busy or not: with core 1
    idle, the process that runs on core 0 is replaced by the next ready one
    and is then in no queue slot, nor in [finished]. *)
Theorem policy_for_idle_core_displaces_running_process :
  returns idle_second_core (λ s, pid <$> live s = [1; 3; 2])
  ∧ returns (idle_second_core ≫= step 5)
      (λ s, pid <$> live s = [3; 2] ∧ finished s = []
            ∧ pid <$> omap id (running s) = [3]).
Proof. vm_compute. auto. Qed.

(** C7 (the code does not do this). The specification has the
    first-come-first-served policy serve every core whose [ready] queue is
    not empty. In the code the loop over the cores returns at the first
    empty [ready] queue: invoked with [ready[0]] empty and a process in
    [ready[1]], the policy changes nothing. *)
Theorem fcfs_returns_at_first_empty_ready_queue :
  returns before_policy_on_core_1
    (λ s, threads_count s = 2
          ∧ ready s !! 0%nat = Some []
          ∧ pid <$> default [] (ready s !! 1%nat) = [2]
          ∧ running s !! 1%nat = Some None
          ∧ apply_policy (named_scheduler_from_policy FirstComeFirstServed) s = Ok s).
Proof. vm_compute. auto 6. Qed.

(** C8 (the code does not do this). The specification has a builtin called
    with a wrong number of arguments fail without spawning. In the code the
    report of the mismatch is not returned: [spawn_process] with five
    arguments and [spawn_random_process] with one both print the
    diagnostic, spawn a process and return a value. *)
Theorem mismatched_argument_count_still_spawns :
  returns
    (evaluate_expression (program []) 5 (Call "spawn_process" [4; 5; 6; 10; 11]%nat)
       (initial_state (cores 1) some_random))
    (λ '(value, st),
       value = Some Monostate
       ∧ diagnostics st = [ErrorMismatchedArgc "spawn_process" 5]
       ∧ processes (sim st) !! 0%nat
         = Some [new_process "A" 0 0 [mkEvent Cpu 3 half]])
  ∧ returns
      (evaluate_expression (program []) 5 (Call "spawn_random_process" [4]%nat)
         (initial_state (cores 1) some_random))
      (λ '(value, st),
         value = Some Monostate
         ∧ diagnostics st = [ErrorMismatchedArgc "spawn_process" 1]
         ∧ length <$> processes (sim st) !! 0%nat = Some 1%nat).
Proof. vm_compute. auto 6. Qed.




(** C10, as stated, fails for an element of one value that is not a
    string: the type check of index 0 rejects it with the note, and index 1
    is never read. *)
Lemma short_element_rejected_by_type :
  list_as_events_deque [ValueList [VNumber 5]] (initial_state (cores 1) some_random)
  = Ok (None, mkState (cores 1) [NoteEventList] [] some_random).
Proof. reflexivity. Qed.

(** C10, amended. The conversion of the events of [spawn_process] checks
    that an element is a value list and then reads its indices 0 and 1
    with no check of its length. When every element that is a value list
    has at least two values the conversion returns, so both indexings are
    in bounds. After any number of accepted elements, an empty element and
    an element of one string are indexed out of bounds; an element of one
    value that is not a string is rejected with the note. *)
Theorem events_conversion_indexes_unchecked :
  (∀ list_ events st,
     Forall long_enough list_ →
     ∃ o st', list_as_events_deque_loop list_ events st = Ok (o, st'))
  ∧ (∀ prefix rest events st,
       Forall event_tuple prefix →
       list_as_events_deque_loop (prefix ++ ValueList [] :: rest) events st
       = OutOfBounds)
  ∧ (∀ prefix rest events st kind_str,
       Forall event_tuple prefix →
       list_as_events_deque_loop
         (prefix ++ ValueList [VString kind_str] :: rest) events st
       = OutOfBounds)
  ∧ (∀ prefix rest events st v,
       Forall event_tuple prefix →
       (∀ kind_str, v ≠ VString kind_str) →
       ∃ st', list_as_events_deque_loop (prefix ++ ValueList [v] :: rest) events st
              = Ok (None, st')
              ∧ diagnostics st' = diagnostics st ++ [NoteEventList]
              ∧ sim st' = sim st).
Proof.
  split; [|split; [|split]].
  - intros list_ events st H. by apply list_as_events_deque_loop_in_bounds.
  - intros prefix rest events st H.
    destruct (list_as_events_deque_loop_prefix prefix H events st)
      as (events' & st' & _ & _ & ->).
    reflexivity.
  - intros prefix rest events st kind_str H.
    destruct (list_as_events_deque_loop_prefix prefix H events st)
      as (events' & st' & _ & _ & ->).
    reflexivity.
  - intros prefix rest events st v H Hv.
    destruct (list_as_events_deque_loop_prefix prefix H events st)
      as (events' & st' & Hd & Hs & ->).
    destruct v as [| kind_str | |]; [|by destruct (Hv kind_str)| |];
      (eexists; split; [reflexivity|]; cbn; by rewrite Hd, Hs).
Qed.

Lemma events_conversion_witness :
  (∃ o st',
     list_as_events_deque_loop
       [ValueList [VString "Cpu"; VNumber 3]; ValueList [VNumber 1; VNumber 2]]
       [] (initial_state (cores 1) some_random)
     = Ok (o, st'))
  ∧ list_as_events_deque_loop
      ([ValueList [VString "Cpu"; VNumber 3]] ++ [ValueList []])
      [] (initial_state (cores 1) some_random)
    = OutOfBounds
  ∧ list_as_events_deque_loop
      ([ValueList [VString "Cpu"; VNumber 3]] ++ [ValueList [VString "Io"]])
      [] (initial_state (cores 1) some_random)
    = OutOfBounds
  ∧ ∃ st',
      list_as_events_deque_loop
        ([ValueList [VString "Cpu"; VNumber 3]] ++ [ValueList [VNumber 5]])
        [] (initial_state (cores 1) some_random)
      = Ok (None, st')
      ∧ diagnostics st' = [] ++ [NoteEventList]
      ∧ sim st' = cores 1.
Proof.
  destruct events_conversion_indexes_unchecked as (Ha & Hb & Hc & Hd).
  assert (Forall event_tuple [ValueList [VString "Cpu"; VNumber 3]]) as Hp.
  { constructor; [|constructor]. by exists "Cpu", Cpu, 3, []. }
  split; [|split; [|split]].
  - apply Ha. repeat constructor; intros tuple [= <-]; cbn; lia.
  - by apply Hb.
  - by apply Hc.
  - apply Hd; [exact Hp|]. intros kind_str. discriminate.
Defined.

(** ** Further properties of the code *)

(** *** The clock, the counters and [finished] across ticks *)

Section Footprint.

Context {A : Type} (R : relation A) `{!PreOrder R} (f : Scheduler → A).
Hypothesis Hf : tick_monotone R f.

Ltac blind :=
  destruct Hf as (Hf1 & Hf2 & Hf3 & Hf4 & Hf5 & Hf6 & Hf7 & Hf8);
  repeat first [rewrite Hf1 | rewrite Hf2 | rewrite Hf3 | rewrite Hf4
               | rewrite Hf5 | rewrite Hf6 | rewrite Hf7];
  first [reflexivity | apply Hf8].

Lemma dispatch_monotone thread_idx process s s' :
  dispatch_process_by_first_event thread_idx process s = Ok s' → R (f s) (f s').
Proof.
  unfold dispatch_process_by_first_event. intros H.
  destruct (events process) as [|first_event rest]; [discriminate|].
  destruct (kind first_event); bind_inv H; injection H as <-; by blind.
Qed.

Lemma sidetrack_loop_monotone fuel thread_idx it s s' :
  sidetrack_loop fuel thread_idx it s = Ok s' → R (f s) (f s').
Proof.
  revert it s. induction fuel as [|fuel IH]; intros it s H; [discriminate|].
  cbn [sidetrack_loop] in H. bind_inv H.
  destruct (a !! it) as [process|]; [|by injection H as <-].
  destruct (negb (arrival process =? timer s)); [eauto|].
  bind_inv H. destruct (negb a0); [eauto|].
  destruct (bool_decide (events process = [])); [eauto|].
  bind_inv H. apply dispatch_monotone in Ha1. apply IH in H.
  etrans; [exact Ha1|]. etrans; [|exact H]. by blind.
Qed.

Lemma update_waiting_loop_monotone waits kept to_dispatch s kept' to_dispatch' s' :
  update_waiting_loop waits kept to_dispatch s = Ok (kept', to_dispatch', s') →
  R (f s) (f s').
Proof.
  revert kept to_dispatch s.
  induction waits as [|process waits IH]; intros kept to_dispatch s H.
  - by injection H as <- <- <-.
  - cbn [update_waiting_loop] in H.
    destruct (events process) as [|current_event rest]; [discriminate|].
    bind_inv H. bind_inv H.
    repeat match type of H with
           | (if ?c then _ else _) = _ => destruct c
           end; apply IH in H; (etrans; [|exact H]); by blind.
Qed.

Lemma dispatch_all_monotone thread_idx to_dispatch s s' :
  dispatch_all thread_idx to_dispatch s = Ok s' → R (f s) (f s').
Proof.
  revert s. induction to_dispatch as [|process to_dispatch IH]; intros s H.
  - by injection H as <-.
  - cbn [dispatch_all] in H. bind_inv H. apply dispatch_monotone in Ha.
    apply IH in H. by etrans.
Qed.

Lemma update_waiting_list_monotone thread_idx s s' :
  update_waiting_list thread_idx s = Ok s' → R (f s) (f s').
Proof.
  unfold update_waiting_list. intros H. bind_inv H. bind_inv H.
  destruct a0 as [[kept to_dispatch] s1].
  apply update_waiting_loop_monotone in Ha0. apply dispatch_all_monotone in H.
  etrans; [exact Ha0|]. etrans; [|exact H]. by blind.
Qed.

Lemma update_running_monotone thread_idx s s' :
  update_running thread_idx s = Ok s' → R (f s) (f s').
Proof.
  unfold update_running. intros H. bind_inv H.
  destruct a as [process|]; [|by injection H as <-].
  destruct (events process) as [|current_event rest]; [discriminate|].
  bind_inv H. bind_inv H.
  match type of H with (if ?c then _ else _) = _ => destruct c end.
  - bind_inv H. injection H as <-.
    match type of Ha2 with (if ?c then _ else _) = _ => destruct c end.
    + apply dispatch_monotone in Ha2. etrans; [exact Ha2|]. by blind.
    + injection Ha2 as <-. by blind.
  - injection H as <-. by blind.
Qed.

Lemma fcfs_loop_monotone n thread_idx sim sim' :
  fcfs_loop n thread_idx sim = Ok sim' → R (f sim) (f sim').
Proof.
  revert thread_idx sim. induction n as [|n IH]; intros thread_idx sim H.
  - by injection H as <-.
  - cbn [fcfs_loop] in H. bind_inv H.
    destruct a as [|process rest]; [by injection H as <-|].
    bind_inv H. apply IH in H. etrans; [|exact H]. by blind.
Qed.

Lemma rr_loop_monotone quantum n thread_idx sim sim' :
  rr_loop quantum n thread_idx sim = Ok sim' → R (f sim) (f sim').
Proof.
  revert thread_idx sim. induction n as [|n IH]; intros thread_idx sim H.
  - by injection H as <-.
  - cbn [rr_loop] in H. bind_inv H.
    destruct a as [|process rest]; [by injection H as <-|].
    bind_inv H.
    destruct (events process) as [|next_event evs]; [discriminate|].
    bind_inv H. apply IH in H. etrans; [|exact H]. by blind.
Qed.

Lemma apply_policy_monotone policy sim sim' :
  apply_policy policy sim = Ok sim' → R (f sim) (f sim').
Proof.
  unfold apply_policy. destruct (callback_ policy).
  - apply fcfs_loop_monotone.
  - apply rr_loop_monotone.
Qed.

Lemma step_thread_monotone fuel thread_idx s s' :
  step_thread fuel thread_idx s = Ok s' → R (f s) (f s').
Proof.
  unfold step_thread, sidetrack_processes. intros H.
  bind_inv H. apply sidetrack_loop_monotone in Ha.
  bind_inv H. apply update_waiting_list_monotone in Ha0.
  bind_inv H. apply update_running_monotone in Ha1.
  bind_inv H. bind_inv H.
  assert (R (f a1) (f a3)) as Hpol.
  { destruct a2; [by injection Ha3 as <-|]. by eapply apply_policy_monotone. }
  bind_inv H. bind_inv H. bind_inv H. injection H as <-.
  etrans; [exact Ha|]. etrans; [exact Ha0|]. etrans; [exact Ha1|].
  etrans; [exact Hpol|]. clear -Hf PreOrder0.
  repeat match goal with
         | |- context [match ?x with _ => _ end] => destruct x
         end; by blind.
Qed.

Lemma step_loop_monotone fuel n thread_idx s s' :
  step_loop fuel n thread_idx s = Ok s' → R (f s) (f s').
Proof.
  revert thread_idx s. induction n as [|n IH]; intros thread_idx s H.
  - by injection H as <-.
  - cbn [step_loop] in H. bind_inv H. apply step_thread_monotone in Ha.
    apply IH in H. by etrans.
Qed.

End Footprint.

Lemma timer_monotone : tick_monotone eq timer.
Proof. by repeat split. Qed.

Lemma valid_backup_monotone : tick_monotone eq valid_backup.
Proof. by repeat split. Qed.

Lemma next_thread_monotone : tick_monotone eq next_thread.
Proof. by repeat split. Qed.

Lemma finished_monotone : tick_monotone prefix finished.
Proof. repeat split; try done. intros s p. cbn. by apply prefix_app_r. Qed.

Lemma step_clock fuel s s' :
  step fuel s = Ok s' →
  timer s' = wrap64 (timer s + 1)
  ∧ valid_backup s' = true
  ∧ next_thread s' = next_thread s
  ∧ finished s `prefix_of` finished s'.
Proof.
  unfold step. intros H. bind_inv H. injection H as <-.
  pose proof (step_loop_monotone eq timer timer_monotone _ _ _ _ _ Ha) as Ht.
  pose proof (step_loop_monotone eq valid_backup valid_backup_monotone
                _ _ _ _ _ Ha) as Hv.
  pose proof (step_loop_monotone eq next_thread next_thread_monotone
                _ _ _ _ _ Ha) as Hn.
  pose proof (step_loop_monotone prefix finished finished_monotone
                _ _ _ _ _ Ha) as Hfin.
  cbn in *. rewrite <- Ht, <- Hv, <- Hn. done.
Qed.

(** X1. [n] ticks advance [timer] by [n], modulo 2^64, leave the placement
    cursor where it is, raise [valid_backup] as soon as there is one, and
    only ever append to [finished]: what is there stays, in its order. *)
Theorem steps_advance_the_clock fuel n s s' :
  0 ≤ timer s < 2 ^ 64 →
  steps fuel n s = Ok s' →
  timer s' = wrap64 (timer s + Z.of_nat n)
  ∧ next_thread s' = next_thread s
  ∧ (n ≠ 0%nat → valid_backup s' = true)
  ∧ finished s `prefix_of` finished s'.
Proof.
  revert s. induction n as [|n IH]; intros s Ht H.
  - injection H as <-. unfold wrap64.
    rewrite Z.add_0_r, Z.mod_small by done. done.
  - cbn [steps] in H. bind_inv H.
    destruct (step_clock _ _ _ Ha) as (Ht1 & Hv1 & Hn1 & Hf1).
    destruct (IH a) as (Ht2 & Hn2 & Hv2 & Hf2); [|exact H|].
    { rewrite Ht1. unfold wrap64. apply Z.mod_pos_bound. lia. }
    split; [|split; [congruence|split]].
    + rewrite Ht2, Ht1. unfold wrap64.
      rewrite Zplus_mod_idemp_l.
      replace (timer s + 1 + Z.of_nat n) with (timer s + Z.of_nat (S n)) by lia.
      reflexivity.
    + intros _. destruct n as [|n]; [|by apply Hv2].
      injection H as <-. exact Hv1.
    + by etrans.
Qed.

Lemma steps_advance_the_clock_witness :
  ∃ s', steps 1 2 (set_timer (cores 1) SIZE_MAX) = Ok s' ∧ timer s' = 1.
Proof.
  assert (0 ≤ timer (set_timer (cores 1) SIZE_MAX) < 2 ^ 64) as Hr
    by (cbn; unfold SIZE_MAX; lia).
  let r := eval vm_compute in (steps 1 2 (set_timer (cores 1) SIZE_MAX)) in
  lazymatch r with
  | Ok ?s' =>
      assert (steps 1 2 (set_timer (cores 1) SIZE_MAX) = Ok s') as H
        by (vm_compute; reflexivity);
      exists s'; split; [exact H|];
      destruct (steps_advance_the_clock 1 2 _ s' Hr H) as (Ht & _);
      rewrite Ht; vm_compute; reflexivity
  end.
Defined.

Lemma step_thread_counts fuel thread_idx s s' :
  step_thread fuel thread_idx s = Ok s' →
  previous_finished_count s' = size (finished s')
  ∧ throughput s'
    = (if negb (timer s =? 0) then DoubleDiv (size (finished s')) (timer s)
       else DoubleZero).
Proof.
  intros H.
  pose proof (step_thread_monotone eq timer timer_monotone _ _ _ _ H) as Ht.
  unfold step_thread in H.
  bind_inv H. bind_inv H. bind_inv H. bind_inv H. bind_inv H. bind_inv H.
  bind_inv H. bind_inv H. injection H as <-.
  cbn in Ht. cbn. split; [reflexivity|]. rewrite Ht.
  repeat match goal with
         | |- context [match ?x with _ => _ end] => destruct x
         end; reflexivity.
Qed.

Lemma step_loop_counts fuel n :
  ∀ thread_idx s s',
    step_loop fuel (S n) thread_idx s = Ok s' →
    previous_finished_count s' = size (finished s')
    ∧ throughput s'
      = (if negb (timer s =? 0) then DoubleDiv (size (finished s')) (timer s)
         else DoubleZero).
Proof.
  induction n as [|n IH]; intros thread_idx s s' H.
  - cbn [step_loop] in H. bind_inv H. injection H as <-.
    by eapply step_thread_counts.
  - change (step_loop fuel (S (S n)) thread_idx s)
      with (s1 ← step_thread fuel thread_idx s;
            step_loop fuel (S n) (S thread_idx) s1) in H.
    bind_inv H.
    pose proof (step_thread_monotone eq timer timer_monotone _ _ _ _ Ha) as Ht.
    cbn in Ht. rewrite Ht. by eapply IH.
Qed.

(** X2. After a tick of an engine with at least one core,
    [previous_finished_count] is the size of [finished], and [throughput]
    is that size over the timer the tick started from: the timer of
    before the increment, and 0.0 for the tick that starts from timer 0. *)
Theorem step_measures_the_throughput fuel s s' :
  0 < threads_count s →
  step fuel s = Ok s' →
  previous_finished_count s' = size (finished s')
  ∧ throughput s'
    = (if timer s =? 0 then DoubleZero
       else DoubleDiv (size (finished s')) (timer s)).
Proof.
  intros Hn H. unfold step in H. bind_inv H. injection H as <-.
  destruct (Z.to_nat (threads_count (set_valid_backup s true))) as [|n] eqn:En.
  { cbn in En. lia. }
  apply step_loop_counts in Ha. destruct Ha as [Hc Ht]. cbn in *.
  split; [exact Hc|]. rewrite Ht. by destruct (timer s =? 0).
Qed.

Lemma step_measures_the_throughput_witness :
  ∃ s0 s3 s4,
    single_cpu_process "A" 1 half = Ok s0
    ∧ steps 5 3 s0 = Ok s3
    ∧ step 5 s3 = Ok s4
    ∧ throughput s4 = DoubleDiv 1 3.
Proof.
  let r0 := eval vm_compute in (single_cpu_process "A" 1 half) in
  lazymatch r0 with
  | Ok ?s0 =>
      let r := eval vm_compute in (steps 5 3 s0) in
      lazymatch r with
      | Ok ?s3 =>
          let r' := eval vm_compute in (step 5 s3) in
          lazymatch r' with
          | Ok ?s4 =>
              assert (step 5 s3 = Ok s4) as H by (vm_compute; reflexivity);
              assert (0 < threads_count s3) as Hn by (vm_compute; reflexivity);
              exists s0, s3, s4;
              split; [vm_compute; reflexivity|];
              split; [vm_compute; reflexivity|];
              split; [exact H|];
              destruct (step_measures_the_throughput 5 s3 s4 Hn H) as [_ Ht];
              rewrite Ht; vm_compute; reflexivity
          end
      end
  end.
Defined.

(** *** The arrival dispatch: what stays pending *)

(** A dispatch reads the timer and writes [ready] or [waiting] only. *)
Lemma dispatch_pending thread_idx process s s' :
  dispatch_process_by_first_event thread_idx process s = Ok s' →
  processes s' = processes s ∧ timer s' = timer s.
Proof.
  unfold dispatch_process_by_first_event. intros H.
  destruct (events process) as [|first_event rest]; [discriminate|].
  destruct (kind first_event); bind_inv H; by injection H as <-.
Qed.

Lemma sidetrack_loop_pending fuel thread_idx it s s' procs :
  processes s !! thread_idx = Some procs →
  sidetrack_loop fuel thread_idx it s = Ok s' →
  timer s' = timer s
  ∧ processes s'
    = <[thread_idx :=
          take it procs
            ++ filter (λ p, arrival p ≠ timer s) (drop it procs)]> (processes s).
Proof.
  revert it s procs. induction fuel as [|fuel IH]; intros it s procs Hp H;
    [discriminate|].
  cbn [sidetrack_loop] in H. rewrite (at_lookup _ _ _ Hp) in H.
  cbn [mbind result_bind] in H.
  destruct (procs !! it) as [process|] eqn:Hit.
  - destruct (arrival process =? timer s) eqn:Harr; cbn [negb] in H.
    + apply Z.eqb_eq in Harr.
      assert (filter (λ p, arrival p ≠ timer s) (drop it procs)
              = filter (λ p, arrival p ≠ timer s) (drop (S it) procs)) as Hfil.
      { rewrite (drop_S _ _ _ Hit). by rewrite filter_cons_False by tauto. }
      bind_inv H. destruct (negb a); [by eapply IH|].
      destruct (bool_decide (events process = [])); [by eapply IH|].
      bind_inv H. destruct (dispatch_pending _ _ _ _ Ha0) as [Hp1 Ht1].
      apply (IH _ _ (delete it procs)) in H.
      2:{ cbn. rewrite Hp1. apply list_lookup_insert_eq.
          by eapply lookup_lt_Some. }
      cbn in H. destruct H as [-> ->]. split; [done|].
      rewrite Hp1, Ht1, list_insert_insert_eq, Hfil. f_equal.
      apply lookup_lt_Some in Hit.
      rewrite delete_take_drop.
      rewrite take_app_length' by (rewrite length_take; lia).
      by rewrite drop_app_length' by (rewrite length_take; lia).
    + apply Z.eqb_neq in Harr. apply (IH _ _ _ Hp) in H.
      destruct H as [-> ->]. split; [done|]. f_equal.
      rewrite (take_S_r _ _ _ Hit), (drop_S _ _ _ Hit).
      rewrite filter_cons_True by done. by rewrite <- app_assoc.
  - injection H as <-. split; [done|].
    apply lookup_ge_None in Hit.
    rewrite take_ge, drop_ge by lia. rewrite filter_nil, app_nil_r.
    symmetry. by apply list_insert_id.
Qed.

(** X3. When the arrival dispatch of a core returns, the pending queue of the
    core holds the processes that do not arrive at this tick, in their
    order, and the pending queues of the other cores are as before. *)
Theorem sidetrack_keeps_the_later_arrivals fuel thread_idx s s' procs :
  processes s !! thread_idx = Some procs →
  sidetrack_processes fuel thread_idx s = Ok s' →
  processes s'
  = <[thread_idx := filter (λ p, arrival p ≠ timer s) procs]> (processes s).
Proof.
  intros Hp H. by destruct (sidetrack_loop_pending _ _ _ _ _ _ Hp H) as [_ ->].
Qed.

Lemma sidetrack_keeps_witness :
  ∃ s s',
    spawn_all [("A", 1, 0, [mkEvent Cpu 2 half]);
               ("B", 2, 0, [mkEvent Io 1 half; mkEvent Cpu 1 half]);
               ("C", 3, 5, [mkEvent Cpu 1 half])] (cores 1) = Ok s
    ∧ sidetrack_processes 5 0 s = Ok s'
    ∧ processes s' !! 0%nat
      = Some [new_process "C" 3 5 [mkEvent Cpu 1 half]].
Proof.
  let r := eval vm_compute in
    (spawn_all [("A", 1, 0, [mkEvent Cpu 2 half]);
                ("B", 2, 0, [mkEvent Io 1 half; mkEvent Cpu 1 half]);
                ("C", 3, 5, [mkEvent Cpu 1 half])] (cores 1)) in
  lazymatch r with
  | Ok ?s =>
      let r' := eval vm_compute in (sidetrack_processes 5 0 s) in
      lazymatch r' with
      | Ok ?s' =>
          assert (sidetrack_processes 5 0 s = Ok s') as H
            by (vm_compute; reflexivity);
          exists s, s'; split; [vm_compute; reflexivity|];
          split; [exact H|];
          rewrite (sidetrack_keeps_the_later_arrivals 5 0 s s' _ eq_refl H);
          vm_compute; reflexivity
      end
  end.
Defined.

(** *** The arrival dispatch: what is admitted *)

Lemma existsb_pid (pid' : Z) (l : list Process) :
  existsb (λ elem, pid elem =? pid') l = bool_decide (pid' ∈ pid <$> l).
Proof.
  induction l as [|p l IH]; [done|]. cbn [existsb fmap list_fmap].
  rewrite IH. destruct (Z.eqb_spec (pid p) pid') as [<-|Hne]; cbn [orb].
  - symmetry. apply bool_decide_eq_true_2. apply list_elem_of_here.
  - apply bool_decide_ext. rewrite elem_of_cons. split; [tauto|].
    intros [Heq|Hin]; [congruence|done].
Qed.

Lemma ensure_pid_is_unique_spec thread_idx pid' s run rdy wts :
  running s !! thread_idx = Some run →
  ready s !! thread_idx = Some rdy →
  waiting s !! thread_idx = Some wts →
  ensure_pid_is_unique thread_idx pid' s
  = Ok (bool_decide (pid' ∉ live_pids run rdy wts)).
Proof.
  intros Hr Hrd Hw. unfold ensure_pid_is_unique.
  rewrite (at_lookup _ _ _ Hr), (at_lookup _ _ _ Hrd), (at_lookup _ _ _ Hw).
  cbn [mbind result_bind]. f_equal. rewrite !existsb_pid.
  unfold live_pids. rewrite !fmap_app.
  assert (match run with Some p => negb (pid p =? pid') | None => true end
          = bool_decide (pid' ∉ pid <$> option_list run)) as ->.
  { destruct run as [p|]; cbn.
    - destruct (Z.eqb_spec (pid p) pid') as [<-|Hne]; cbn; symmetry.
      + apply bool_decide_eq_false_2. intros H. apply H, list_elem_of_here.
      + apply bool_decide_eq_true_2. rewrite list_elem_of_singleton. congruence.
    - symmetry. apply bool_decide_eq_true_2. apply not_elem_of_nil. }
  repeat case_bool_decide; cbn; try done;
    rewrite !elem_of_app in *; tauto.
Qed.

Lemma sidetrack_loop_admits fuel thread_idx it s procs run rdy wts :
  processes s !! thread_idx = Some procs →
  running s !! thread_idx = Some run →
  ready s !! thread_idx = Some rdy →
  waiting s !! thread_idx = Some wts →
  let arriving := filter (λ p, arrival p = timer s) (drop it procs) in
  Forall (λ p, events p ≠ []) arriving →
  NoDup (pid <$> arriving) →
  (∀ p, p ∈ arriving → pid p ∉ live_pids run rdy wts) →
  (length (drop it procs) < fuel)%nat →
  ∃ s', sidetrack_loop fuel thread_idx it s = Ok s'
        ∧ running s' = running s
        ∧ ready s'
          = <[thread_idx :=
                rdy ++ (admitted (timer s)
                          <$> filter (λ p, first_kind p = Some Cpu) arriving)]>
              (ready s)
        ∧ waiting s'
          = <[thread_idx :=
                wts ++ filter (λ p, first_kind p = Some Io) arriving]>
              (waiting s).
Proof.
  revert it s procs rdy wts.
  induction fuel as [|fuel IH]; intros it s procs rdy wts Hp Hr Hrd Hw;
    cbn zeta; intros Hev Hnd Hfresh Hfuel; [lia|].
  cbn [sidetrack_loop]. rewrite (at_lookup _ _ _ Hp). cbn [mbind result_bind].
  destruct (procs !! it) as [process|] eqn:Hit.
  2:{ apply lookup_ge_None in Hit. rewrite drop_ge by lia.
      rewrite filter_nil. cbn. rewrite !app_nil_r.
      exists s. by rewrite !list_insert_id. }
  rewrite (drop_S _ _ _ Hit) in Hev, Hnd, Hfresh, Hfuel |- *.
  cbn [length] in Hfuel.
  destruct (arrival process =? timer s) eqn:Harr; cbn [negb].
  - apply Z.eqb_eq in Harr.
    rewrite filter_cons_True in Hev, Hnd, Hfresh |- * by done.
    apply Forall_cons_1 in Hev as [Hev1 Hev].
    cbn [fmap list_fmap] in Hnd. apply list.NoDup_cons in Hnd as [Hnd1 Hnd].
    rewrite (ensure_pid_is_unique_spec _ _ _ _ _ _ Hr Hrd Hw).
    rewrite (bool_decide_eq_true_2 (pid process ∉ _))
      by (apply Hfresh, list_elem_of_here).
    cbn [negb mbind result_bind].
    rewrite bool_decide_eq_false_2 by done.
    unfold dispatch_process_by_first_event.
    destruct (events process) as [|first_event rest] eqn:Hevs; [done|].
    destruct (kind first_event) eqn:Hk.
    + rewrite (at_lookup _ _ _ Hrd). cbn [mbind result_bind].
      match goal with
      | |- ∃ s', sidetrack_loop _ _ _ ?s1 = _ ∧ _ =>
          destruct (IH it s1 (delete it procs) (rdy ++ [admitted (timer s) process]) wts)
            as (s' & Hs' & Hrun & Hready & Hwait)
      end.
      * cbn. apply list_lookup_insert_eq. by eapply lookup_lt_Some.
      * done.
      * cbn. apply list_lookup_insert_eq. by eapply lookup_lt_Some.
      * done.
      * cbn. rewrite delete_take_drop, drop_app_length'
          by (rewrite length_take; apply lookup_lt_Some in Hit; lia). done.
      * cbn. rewrite delete_take_drop, drop_app_length'
          by (rewrite length_take; apply lookup_lt_Some in Hit; lia). done.
      * cbn. rewrite delete_take_drop, drop_app_length'
          by (rewrite length_take; apply lookup_lt_Some in Hit; lia).
        intros p Hin. unfold live_pids.
        rewrite !fmap_app, !elem_of_app. cbn.
        rewrite list_elem_of_singleton.
        specialize (Hfresh p (list_elem_of_further _ _ _ Hin)).
        unfold live_pids in Hfresh. rewrite !fmap_app, !elem_of_app in Hfresh.
        assert (pid p ≠ pid process).
        { intros Heq. apply Hnd1. rewrite <- Heq. by apply list_elem_of_fmap_2. }
        tauto.
      * rewrite delete_take_drop, drop_app_length'
          by (rewrite length_take; apply lookup_lt_Some in Hit; lia). lia.
      * exists s'. split; [exact Hs'|]. cbn in Hrun, Hready, Hwait.
        rewrite delete_take_drop, drop_app_length' in Hready, Hwait
          by (rewrite length_take; apply lookup_lt_Some in Hit; lia).
        split; [done|]. split.
        -- rewrite Hready, list_insert_insert_eq. f_equal.
           rewrite filter_cons_True by (unfold first_kind; by rewrite Hevs, <- Hk).
           cbn [fmap list_fmap]. by rewrite <- app_assoc.
        -- rewrite Hwait. f_equal. f_equal.
           rewrite filter_cons_False; [done|].
           unfold first_kind. rewrite Hevs. cbn. rewrite Hk. done.
    + rewrite (at_lookup _ _ _ Hw). cbn [mbind result_bind].
      match goal with
      | |- ∃ s', sidetrack_loop _ _ _ ?s1 = _ ∧ _ =>
          destruct (IH it s1 (delete it procs) rdy (wts ++ [process]))
            as (s' & Hs' & Hrun & Hready & Hwait)
      end.
      * cbn. apply list_lookup_insert_eq. by eapply lookup_lt_Some.
      * done.
      * done.
      * cbn. apply list_lookup_insert_eq. by eapply lookup_lt_Some.
      * cbn. rewrite delete_take_drop, drop_app_length'
          by (rewrite length_take; apply lookup_lt_Some in Hit; lia). done.
      * cbn. rewrite delete_take_drop, drop_app_length'
          by (rewrite length_take; apply lookup_lt_Some in Hit; lia). done.
      * cbn. rewrite delete_take_drop, drop_app_length'
          by (rewrite length_take; apply lookup_lt_Some in Hit; lia).
        intros p Hin. unfold live_pids.
        rewrite !fmap_app, !elem_of_app. cbn.
        rewrite list_elem_of_singleton.
        specialize (Hfresh p (list_elem_of_further _ _ _ Hin)).
        unfold live_pids in Hfresh. rewrite !fmap_app, !elem_of_app in Hfresh.
        assert (pid p ≠ pid process).
        { intros Heq. apply Hnd1. rewrite <- Heq. by apply list_elem_of_fmap_2. }
        tauto.
      * rewrite delete_take_drop, drop_app_length'
          by (rewrite length_take; apply lookup_lt_Some in Hit; lia). lia.
      * exists s'. split; [exact Hs'|]. cbn in Hrun, Hready, Hwait.
        rewrite delete_take_drop, drop_app_length' in Hready, Hwait
          by (rewrite length_take; apply lookup_lt_Some in Hit; lia).
        split; [done|]. split.
        -- rewrite Hready. f_equal. f_equal.
           rewrite filter_cons_False; [done|].
           unfold first_kind. rewrite Hevs. cbn. rewrite Hk. done.
        -- rewrite Hwait, list_insert_insert_eq. f_equal.
           rewrite filter_cons_True by (unfold first_kind; by rewrite Hevs, <- Hk).
           by rewrite <- app_assoc.
  - apply Z.eqb_neq in Harr.
    rewrite filter_cons_False in Hev, Hnd, Hfresh |- * by done.
    destruct (IH (S it) s procs rdy wts Hp Hr Hrd Hw Hev Hnd Hfresh)
      as (s' & Hs' & Hrest); [lia|].
    by exists s'.
Qed.

(** X4. When the processes that arrive at this tick on a core all have an event
    and pids that differ from one another and from the pids on the core,
    the arrival dispatch returns: it appends those that start with a Cpu
    event to [ready], with [start_time] assigned, and those that start with
    an Io event to [waiting], both in pending order. *)
Theorem sidetrack_admits_the_arrivals fuel thread_idx s procs run rdy wts :
  processes s !! thread_idx = Some procs →
  running s !! thread_idx = Some run →
  ready s !! thread_idx = Some rdy →
  waiting s !! thread_idx = Some wts →
  Forall (λ p, events p ≠ []) (filter (λ p, arrival p = timer s) procs) →
  NoDup (pid <$> filter (λ p, arrival p = timer s) procs) →
  (∀ p, p ∈ filter (λ p, arrival p = timer s) procs →
        pid p ∉ live_pids run rdy wts) →
  (length procs < fuel)%nat →
  ∃ s', sidetrack_processes fuel thread_idx s = Ok s'
        ∧ running s' = running s
        ∧ ready s'
          = <[thread_idx :=
                rdy ++ (admitted (timer s)
                          <$> filter (λ p, first_kind p = Some Cpu)
                                (filter (λ p, arrival p = timer s) procs))]>
              (ready s)
        ∧ waiting s'
          = <[thread_idx :=
                wts ++ filter (λ p, first_kind p = Some Io)
                         (filter (λ p, arrival p = timer s) procs)]>
              (waiting s).
Proof.
  intros Hp Hr Hrd Hw Hev Hnd Hfresh Hfuel.
  by apply (sidetrack_loop_admits fuel thread_idx 0 s procs run rdy wts).
Qed.

Lemma sidetrack_admits_witness :
  ∃ s s',
    spawn_all [("A", 1, 0, [mkEvent Cpu 2 half]);
               ("B", 2, 0, [mkEvent Io 1 half; mkEvent Cpu 1 half]);
               ("C", 3, 5, [mkEvent Cpu 1 half])] (cores 1) = Ok s
    ∧ sidetrack_processes 5 0 s = Ok s'
    ∧ ready s' !! 0%nat
      = Some [set_start_time (new_process "A" 1 0 [mkEvent Cpu 2 half]) (Some 0)]
    ∧ waiting s' !! 0%nat
      = Some [new_process "B" 2 0 [mkEvent Io 1 half; mkEvent Cpu 1 half]].
Proof.
  let r := eval vm_compute in
    (spawn_all [("A", 1, 0, [mkEvent Cpu 2 half]);
                ("B", 2, 0, [mkEvent Io 1 half; mkEvent Cpu 1 half]);
                ("C", 3, 5, [mkEvent Cpu 1 half])] (cores 1)) in
  lazymatch r with
  | Ok ?s =>
      exists s;
      let procs := eval vm_compute in (default [] (processes s !! 0%nat)) in
      assert (Forall (λ p, events p ≠ [])
                (filter (λ p, arrival p = timer s) procs)) as Hev
        by compute_done;
      assert (NoDup (pid <$> filter (λ p, arrival p = timer s) procs)) as Hnd
        by compute_done;
      assert (∀ p, p ∈ filter (λ p, arrival p = timer s) procs →
                   pid p ∉ live_pids None [] []) as Hfresh
        by (intros p _; cbn; apply not_elem_of_nil);
      destruct (sidetrack_admits_the_arrivals 5 0 s procs None [] []
                  eq_refl eq_refl eq_refl eq_refl Hev Hnd Hfresh)
        as (s' & H & _ & Hrd & Hw); [cbn; lia|];
      exists s'; split; [vm_compute; reflexivity|];
      split; [exact H|]; rewrite Hrd, Hw; split; vm_compute; reflexivity
  end.
Defined.

(** *** A tick of the waiting list *)

Lemma set_finished_same s : set_finished s (finished s) = s.
Proof. by destruct s. Qed.

Lemma update_waiting_loop_spec waits :
  ∀ kept to_dispatch s,
    Forall on_io waits →
    let expired := waited <$> filter (λ p, expires p = true) waits in
    update_waiting_loop waits kept to_dispatch s
    = Ok (kept ++ (waited <$> filter (λ p, expires p = false) waits),
          to_dispatch ++ filter (λ p, events p ≠ []) expired,
          set_finished s
            (finished s
               ++ (stamped (timer s) <$> filter (λ p, events p = []) expired))).
Proof.
  induction waits as [|process waits IH]; intros kept to_dispatch s Hio; cbn zeta.
  - cbn [update_waiting_loop]. rewrite !filter_nil. cbn [fmap list_fmap].
    rewrite !filter_nil. cbn [fmap list_fmap].
    by rewrite !app_nil_r, set_finished_same.
  - apply Forall_cons_1 in Hio as [Hp Hio]. unfold on_io in Hp.
    cbn [update_waiting_loop].
    destruct (events process) as [|e rest] eqn:Hev; [done|].
    destruct Hp as [Hk Hd].
    rewrite (bool_decide_eq_true_2 (kind e = Io)) by done.
    assert ((0 <? duration e) = true) as -> by lia.
    cbn [assert_ mbind result_bind].
    assert (expires process = (duration (ticked e) =? 0)) as Hexp
      by (unfold expires; by rewrite Hev).
    fold (ticked e).
    destruct (duration (ticked e) =? 0) eqn:Hz.
    + rewrite (filter_cons_True (λ p, expires p = true)) by done.
      rewrite (filter_cons_False (λ p, expires p = false)) by congruence.
      cbn [fmap list_fmap].
      assert (waited process = set_events process rest) as Hw
        by (unfold waited; by rewrite Hev, Hexp).
      rewrite Hw.
      destruct rest as [|next rest].
      * rewrite bool_decide_eq_true_2 by done. cbn [negb].
        rewrite IH by done. cbn [timer finished set_finished].
        rewrite (filter_cons_False (λ p, events p ≠ [])) by (cbn; tauto).
        rewrite (filter_cons_True (λ p, events p = [])) by done.
        cbn [fmap list_fmap]. rewrite <- app_assoc. reflexivity.
      * rewrite bool_decide_eq_false_2 by done. cbn [negb].
        rewrite IH by done.
        rewrite (filter_cons_True (λ p, events p ≠ [])) by done.
        rewrite (filter_cons_False (λ p, events p = [])) by done.
        by rewrite <- app_assoc.
    + rewrite (filter_cons_False (λ p, expires p = true)) by congruence.
      rewrite (filter_cons_True (λ p, expires p = false)) by done.
      cbn [fmap list_fmap].
      assert (waited process = set_events process (ticked e :: rest)) as Hw
        by (unfold waited; by rewrite Hev, Hexp).
      rewrite Hw, IH by done. by rewrite <- app_assoc.
Qed.

Lemma dispatch_all_spec thread_idx l :
  ∀ s rdy wts,
    ready s !! thread_idx = Some rdy →
    waiting s !! thread_idx = Some wts →
    Forall (λ p, events p ≠ []) l →
    ∃ s', dispatch_all thread_idx l s = Ok s'
          ∧ ready s'
            = <[thread_idx :=
                  rdy ++ (admitted (timer s)
                            <$> filter (λ p, first_kind p = Some Cpu) l)]>
                (ready s)
          ∧ waiting s'
            = <[thread_idx := wts ++ filter (λ p, first_kind p = Some Io) l]>
                (waiting s)
          ∧ finished s' = finished s
          ∧ running s' = running s.
Proof.
  induction l as [|p l IH]; intros s rdy wts Hrd Hw Hev.
  - exists s. cbn. rewrite !app_nil_r. by rewrite !list_insert_id.
  - apply Forall_cons_1 in Hev as [Hp Hev]. cbn [dispatch_all].
    unfold dispatch_process_by_first_event.
    destruct (events p) as [|e rest] eqn:Hevs; [done|].
    destruct (kind e) eqn:Hk.
    + rewrite (at_lookup _ _ _ Hrd). cbn [mbind result_bind].
      match goal with
      | |- ∃ s', dispatch_all _ _ ?s1 = _ ∧ _ =>
          destruct (IH s1 (rdy ++ [admitted (timer s) p]) wts)
            as (s' & Hs' & Hready & Hwait & Hfin & Hrun)
      end.
      * cbn. apply list_lookup_insert_eq. by eapply lookup_lt_Some.
      * done.
      * done.
      * exists s'. split; [exact Hs'|]. cbn in Hready, Hwait, Hfin, Hrun.
        split; [|split; [|done]].
        -- rewrite Hready, list_insert_insert_eq. f_equal.
           rewrite filter_cons_True by (unfold first_kind; by rewrite Hevs, <- Hk).
           cbn [fmap list_fmap]. by rewrite <- app_assoc.
        -- rewrite Hwait. f_equal. f_equal.
           rewrite filter_cons_False; [done|].
           unfold first_kind. rewrite Hevs. cbn. rewrite Hk. done.
    + rewrite (at_lookup _ _ _ Hw). cbn [mbind result_bind].
      match goal with
      | |- ∃ s', dispatch_all _ _ ?s1 = _ ∧ _ =>
          destruct (IH s1 rdy (wts ++ [p]))
            as (s' & Hs' & Hready & Hwait & Hfin & Hrun)
      end.
      * done.
      * cbn. apply list_lookup_insert_eq. by eapply lookup_lt_Some.
      * done.
      * exists s'. split; [exact Hs'|]. cbn in Hready, Hwait, Hfin, Hrun.
        split; [|split; [|done]].
        -- rewrite Hready. f_equal. f_equal.
           rewrite filter_cons_False; [done|].
           unfold first_kind. rewrite Hevs. cbn. rewrite Hk. done.
        -- rewrite Hwait, list_insert_insert_eq. f_equal.
           rewrite filter_cons_True by (unfold first_kind; by rewrite Hevs, <- Hk).
           by rewrite <- app_assoc.
Qed.

(** X5. One tick of the waiting list of a core whose processes all wait on an
    Io event of positive duration: the first event of each is shortened by
    one; a process whose event does not end stays, in its order; a process
    whose event ends and was its last goes to [finished] with the
    conditional [finish_time]; the others are dispatched after the walk, to
    the end of [ready] with the conditional [start_time] or to the end of
    [waiting] untouched, by the kind of their next event. The running
    slots are not touched. *)
Theorem update_waiting_list_ticks_the_io_events thread_idx s wts rdy :
  waiting s !! thread_idx = Some wts →
  ready s !! thread_idx = Some rdy →
  Forall on_io wts →
  let expired := waited <$> filter (λ p, expires p = true) wts in
  let next := filter (λ p, events p ≠ []) expired in
  ∃ s', update_waiting_list thread_idx s = Ok s'
        ∧ finished s'
          = finished s
              ++ (stamped (timer s) <$> filter (λ p, events p = []) expired)
        ∧ waiting s'
          = <[thread_idx :=
                (waited <$> filter (λ p, expires p = false) wts)
                  ++ filter (λ p, first_kind p = Some Io) next]> (waiting s)
        ∧ ready s'
          = <[thread_idx :=
                rdy ++ (admitted (timer s)
                          <$> filter (λ p, first_kind p = Some Cpu) next)]>
              (ready s)
        ∧ running s' = running s.
Proof.
  intros Hw Hrd Hio. cbn zeta. unfold update_waiting_list.
  rewrite (at_lookup _ _ _ Hw). cbn [mbind result_bind].
  rewrite update_waiting_loop_spec by done. cbn [mbind result_bind app].
  match goal with
  | |- ∃ s', dispatch_all _ ?l ?s1 = _ ∧ _ =>
      destruct (dispatch_all_spec thread_idx l s1 rdy
                  (waited <$> filter (λ p, expires p = false) wts))
        as (s' & Hs' & Hready & Hwait & Hfin & Hrun)
  end.
  - done.
  - cbn. apply list_lookup_insert_eq. by eapply lookup_lt_Some.
  - apply list.Forall_forall. intros p Hp.
    by apply list_elem_of_filter in Hp as [? _].
  - exists s'. split; [exact Hs'|]. cbn in Hready, Hwait, Hfin, Hrun.
    rewrite list_insert_insert_eq in Hwait. done.
Qed.

Lemma update_waiting_list_witness :
  ∃ s',
    update_waiting_list 0
      (set_waiting (cores 1)
         (<[0%nat := [new_process "A" 1 0 [mkEvent Io 1 half];
                      new_process "B" 2 0 [mkEvent Io 2 half];
                      new_process "C" 3 0 [mkEvent Io 1 half;
                                           mkEvent Cpu 1 half]]]>
            (waiting (cores 1)))) = Ok s'
    ∧ finished s'
      = [set_finish_time (new_process "A" 1 0 []) (Some 0)]
    ∧ waiting s' !! 0%nat = Some [new_process "B" 2 0 [mkEvent Io 1 half]]
    ∧ ready s' !! 0%nat
      = Some [set_start_time (new_process "C" 3 0 [mkEvent Cpu 1 half])
                (Some 0)].
Proof.
  destruct (update_waiting_list_ticks_the_io_events 0
              (set_waiting (cores 1)
                 (<[0%nat := [new_process "A" 1 0 [mkEvent Io 1 half];
                              new_process "B" 2 0 [mkEvent Io 2 half];
                              new_process "C" 3 0 [mkEvent Io 1 half;
                                                   mkEvent Cpu 1 half]]]>
                    (waiting (cores 1))))
              [new_process "A" 1 0 [mkEvent Io 1 half];
               new_process "B" 2 0 [mkEvent Io 2 half];
               new_process "C" 3 0 [mkEvent Io 1 half; mkEvent Cpu 1 half]]
              [])
    as (s' & H & Hfin & Hw & Hrd & _).
  - reflexivity.
  - reflexivity.
  - repeat apply Forall_cons_2; [..|apply Forall_nil_2];
      (split; [reflexivity|reflexivity]).
  - exists s'. split; [exact H|]. rewrite Hfin, Hw, Hrd.
    split; [vm_compute; reflexivity|]. split; vm_compute; reflexivity.
Defined.

(** *** A process that finishes on its core *)

Lemma turnaround_of_unstamped (l : list Process) total :
  Forall (λ q, finish_time q = None) l →
  foldl (λ total process,
           match finish_time process with
           | None => total
           | Some ft => wrap64 (total + (ft - arrival process))
           end) total l = total.
Proof.
  induction 1 as [|q l Hq _ IH]; [done|]. cbn [foldl]. by rewrite Hq.
Qed.

(** X6. A process that runs the last tick of its last event, a Cpu event, is
    moved from its core to [finished] as it is: [update_running] writes no
    [finish_time]. When no process of [finished] has one, the average
    turnaround time of the engine is 0 afterwards. *)
Theorem cpu_finish_writes_no_finish_time thread_idx s process e :
  running s !! thread_idx = Some (Some process) →
  events process = [e] →
  kind e = Cpu →
  duration e = 1 →
  ∃ s', update_running thread_idx s = Ok s'
        ∧ running s' = <[thread_idx := None]> (running s)
        ∧ finished s' = finished s ++ [set_events process []]
        ∧ (finish_time process = None →
           Forall (λ q, finish_time q = None) (finished s) →
           average_turnaround_time s' = 0).
Proof.
  intros Hrun Hev Hk Hd. unfold update_running.
  rewrite (at_lookup _ _ _ Hrun). cbn [mbind result_bind]. rewrite Hev, Hk, Hd.
  rewrite (bool_decide_eq_true_2 (Cpu = Cpu)) by reflexivity.
  change (0 <? 1) with true. cbn [assert_ mbind result_bind].
  change (duration (set_duration e (wrap64 (1 - 1))) =? 0) with true.
  cbn.
  eexists. split; [reflexivity|]. cbn. split; [done|]. split; [done|].
  intros Hft Hall. unfold average_turnaround_time. cbn.
  rewrite bool_decide_eq_false_2 by (by destruct (finished s)).
  rewrite turnaround_of_unstamped; [done|].
  apply Forall_app. split; [done|]. by apply Forall_singleton.
Qed.

Lemma cpu_finish_witness :
  ∃ s0 s3 s4,
    single_cpu_process "A" 1 half = Ok s0
    ∧ steps 5 3 s0 = Ok s3
    ∧ update_running 0 s3 = Ok s4
    ∧ finished s4 = [set_start_time (new_process "A" 1 0 []) (Some 0)]
    ∧ average_turnaround_time s4 = 0.
Proof.
  let r0 := eval vm_compute in (single_cpu_process "A" 1 half) in
  lazymatch r0 with
  | Ok ?s0 =>
      let r := eval vm_compute in (steps 5 3 s0) in
      lazymatch r with
      | Ok ?s3 =>
          exists s0, s3;
          destruct (cpu_finish_writes_no_finish_time 0 s3
                      (set_start_time
                         (new_process "A" 1 0 [mkEvent Cpu 1 half]) (Some 0))
                      (mkEvent Cpu 1 half) eq_refl eq_refl eq_refl eq_refl)
            as (s4 & H & _ & Hfin & Havg);
          exists s4; split; [vm_compute; reflexivity|];
          split; [vm_compute; reflexivity|];
          split; [exact H|];
          split; [rewrite Hfin; vm_compute; reflexivity|];
          apply Havg; [reflexivity|apply Forall_nil_2]
      end
  end.
Defined.

(** *** The round-robin policy *)

(** The loop of the policy leaves the cores below its index alone. *)
Lemma rr_loop_below quantum n :
  ∀ thread_idx sim sim' t,
    (t < thread_idx)%nat →
    rr_loop quantum n thread_idx sim = Ok sim' →
    running sim' !! t = running sim !! t ∧ ready sim' !! t = ready sim !! t.
Proof.
  induction n as [|n IH]; intros thread_idx sim sim' t Hlt H.
  - by injection H as <-.
  - cbn [rr_loop] in H. bind_inv H.
    destruct a as [|process rest]; [by injection H as <-|].
    bind_inv H.
    destruct (events process) as [|next_event evs]; [discriminate|].
    bind_inv H. apply (IH _ _ _ t) in H; [|lia].
    destruct H as [-> ->]. cbn.
    by rewrite !list_lookup_insert_ne by lia.
Qed.

(** What the policy does on core 0, when it returns. *)
Lemma rr_slices quantum s run process rest e evs :
  0 < threads_count s →
  running s !! 0%nat = Some run →
  ready s !! 0%nat = Some (process :: rest) →
  events process = e :: evs →
  kind e = Cpu →
  0 ≤ quantum →
  duration e < 2 ^ 64 →
  ∀ s', apply_policy (named_round_robin quantum) s = Ok s' →
    ready s' !! 0%nat = Some rest
    ∧ ∃ p e' evs',
        running s' !! 0%nat = Some (Some p)
        ∧ pid p = pid process
        ∧ events p = e' :: evs'
        ∧ kind e' = Cpu
        ∧ duration e' = Z.min (duration e) quantum
        ∧ total_duration p = total_duration process.
Proof.
  intros Htc Hrun Hrdy Hev Hk Hq Hd s' H.
  unfold apply_policy in H. cbn [callback_ named_round_robin] in H.
  destruct (Z.to_nat (threads_count s)) as [|n] eqn:Hn; [lia|].
  cbn [rr_loop] in H. rewrite (at_lookup _ _ _ Hrdy) in H.
  cbn [mbind result_bind running set_ready] in H.
  rewrite (at_lookup _ _ _ Hrun), Hev in H. cbn [mbind result_bind] in H.
  rewrite Hk, bool_decide_eq_true_2 in H by done.
  cbn [assert_ mbind result_bind] in H.
  apply (rr_loop_below _ _ _ _ _ 0%nat) in H; [|lia].
  destruct H as [Hr' Hrd']. cbn in Hr', Hrd'.
  rewrite list_lookup_insert_eq in Hr' by (by eapply lookup_lt_Some).
  rewrite list_lookup_insert_eq in Hrd' by (by eapply lookup_lt_Some).
  split; [done|].
  destruct (Z.ltb_spec quantum (duration e)) as [Hlt|Hge].
  - eexists _, _, _. split; [exact Hr'|].
    cbn [pid events kind duration set_events set_duration].
    split; [done|]. split; [done|]. split; [done|]. split; [change (quantum = Z.min (duration e) quantum); lia|].
    unfold total_duration. rewrite Hev.
    cbn [events set_events foldr duration set_duration]. unfold wrap64.
    rewrite Z.mod_small by lia. lia.
  - eexists _, _, _. split; [exact Hr'|].
    split; [done|]. split; [exact Hev|]. split; [done|]. split; [lia|done].
Qed.

(** The process that the policy puts on core 0, when it returns: the front
    of [ready[0]], with its first event split when it is longer than the
    quantum. *)
Lemma rr_moves quantum s run process rest e evs :
  0 < threads_count s →
  running s !! 0%nat = Some run →
  ready s !! 0%nat = Some (process :: rest) →
  events process = e :: evs →
  kind e = Cpu →
  0 ≤ quantum →
  duration e < 2 ^ 64 →
  ∀ s', apply_policy (named_round_robin quantum) s = Ok s' →
    running s' !! 0%nat
    = Some (Some (if quantum <? duration e
                  then set_events process
                         (mkEvent Cpu quantum (resource_usage e)
                            :: set_duration e (duration e - quantum) :: evs)
                  else process)).
Proof.
  intros Htc Hrun Hrdy Hev Hk Hq Hd s' H.
  unfold apply_policy in H. cbn [callback_ named_round_robin] in H.
  destruct (Z.to_nat (threads_count s)) as [|n] eqn:Hn; [lia|].
  cbn [rr_loop] in H. rewrite (at_lookup _ _ _ Hrdy) in H.
  cbn [mbind result_bind running set_ready] in H.
  rewrite (at_lookup _ _ _ Hrun), Hev in H. cbn [mbind result_bind] in H.
  rewrite Hk, bool_decide_eq_true_2 in H by done.
  cbn [assert_ mbind result_bind] in H.
  apply (rr_loop_below _ _ _ _ _ 0%nat) in H; [|lia].
  destruct H as [Hr' _]. cbn in Hr'.
  rewrite list_lookup_insert_eq in Hr' by (by eapply lookup_lt_Some).
  rewrite Hr'. do 2 f_equal.
  destruct (Z.ltb_spec quantum (duration e)) as [Hlt|Hge]; [|done].
  unfold wrap64. by rewrite Z.mod_small by lia.
Qed.

(** X7. Round robin on core 0. When the policy returns, it has popped the
    front of [ready[0]] and put it into [running[0]], whatever was there.
    When the first event of the process is longer than the quantum, the
    process is moved with that event split in two: a Cpu event of the
    length of the quantum, with the usage of the event, followed by the
    event itself shortened by the quantum, and then the other events;
    nothing else of the process changes. Otherwise the process is moved as
    it is. In both cases the first event is a Cpu event as long as the
    shorter of the event and the quantum, and the total duration of the
    events of the process is kept. *)
Theorem round_robin_slices_the_first_event quantum s run process rest e evs :
  0 < threads_count s →
  running s !! 0%nat = Some run →
  ready s !! 0%nat = Some (process :: rest) →
  events process = e :: evs →
  kind e = Cpu →
  0 ≤ quantum →
  duration e < 2 ^ 64 →
  ∀ s', apply_policy (named_round_robin quantum) s = Ok s' →
    ready s' !! 0%nat = Some rest
    ∧ ∃ p e' evs',
        running s' !! 0%nat = Some (Some p)
        ∧ p = (if quantum <? duration e
               then set_events process
                      (mkEvent Cpu quantum (resource_usage e)
                         :: set_duration e (duration e - quantum) :: evs)
               else process)
        ∧ pid p = pid process
        ∧ events p = e' :: evs'
        ∧ kind e' = Cpu
        ∧ duration e' = Z.min (duration e) quantum
        ∧ total_duration p = total_duration process.
Proof.
  intros Htc Hrun Hrdy Hev Hk Hq Hd s' H.
  destruct (rr_slices quantum s run process rest e evs Htc Hrun Hrdy Hev Hk Hq
              Hd s' H) as (Hrd & p & e' & evs' & Hp & Hpid & Hevs & Hk' & Hd' & Ht).
  pose proof (rr_moves quantum s run process rest e evs Htc Hrun Hrdy Hev Hk Hq
                Hd s' H) as Hm.
  split; [exact Hrd|]. exists p, e', evs'.
  split; [exact Hp|]. split; [congruence|]. done.
Qed.

Lemma round_robin_slices_witness :
  ∃ s s',
    spawn_all [("X", 10, 0, [mkEvent Cpu 5 half])] (cores 1)
    ≫= sidetrack_processes 5 0 = Ok s
    ∧ apply_policy (named_round_robin 2) s = Ok s'
    ∧ (duration <$> concat (events <$> omap id (running s'))) = [2; 3].
Proof.
  let r := eval vm_compute in
             (spawn_all [("X", 10, 0, [mkEvent Cpu 5 half])] (cores 1)
              ≫= sidetrack_processes 5 0) in
  lazymatch r with
  | Ok ?s =>
      let r' := eval vm_compute in (apply_policy (named_round_robin 2) s) in
      lazymatch r' with
      | Ok ?s' =>
          assert (spawn_all [("X", 10, 0, [mkEvent Cpu 5 half])] (cores 1)
                  ≫= sidetrack_processes 5 0 = Ok s) as H1
            by (vm_compute; reflexivity);
          assert (apply_policy (named_round_robin 2) s = Ok s') as H2
            by (vm_compute; reflexivity);
          exists s, s'; split; [exact H1|]; split; [exact H2|];
          pose proof (round_robin_slices_the_first_event 2 s None
                        (mkProcess "X" 10 0 [mkEvent Cpu 5 half] (Some 0) None) []
                        (mkEvent Cpu 5 half) []
                        eq_refl eq_refl eq_refl eq_refl eq_refl
                        ltac:(lia) eq_refl s' H2)
            as (_ & p & e' & evs' & Hp & _);
          reflexivity
      end
  end.
Defined.



(** *** Placement of the spawned processes *)

Lemma emplace_process_returns name pid arrival events s :
  full s →
  0 < threads_count s →
  0 ≤ next_thread s < Z.of_nat MAX_THREADS →
  ∃ s', emplace_process name pid arrival events s
        = Ok (new_process name pid arrival events, s')
        ∧ full s'
        ∧ threads_count s' = threads_count s
        ∧ next_thread s' = (next_thread s + 1) mod threads_count s
        ∧ ∀ t q, processes s !! t = Some q →
                 processes s' !! t
                 = Some (q ++ if decide (t = Z.to_nat (next_thread s))
                              then [new_process name pid arrival events]
                              else []).
Proof.
  intros Hf Htc Hnt. pose proof Hf as Hshape.
  unfold full, shape in Hshape. injection Hshape as _ Hp _ _ _ Hb.
  destruct (lookup_lt_is_Some_2 (processes s) (Z.to_nat (next_thread s)))
    as [q0 Hq0]; [lia|].
  destruct (lookup_lt_is_Some_2 (processes_backup s) (Z.to_nat (next_thread s)))
    as [b0 Hb0]; [lia|].
  assert (wrap64 (next_thread s + 1) = next_thread s + 1) as Hwrap.
  { unfold wrap64. apply Z.mod_small. unfold MAX_THREADS in Hnt. lia. }
  assert (∀ t q, processes s !! t = Some q →
            <[Z.to_nat (next_thread s) :=
                q0 ++ [new_process name pid arrival events]]> (processes s) !! t
            = Some (q ++ if decide (t = Z.to_nat (next_thread s))
                         then [new_process name pid arrival events]
                         else [])) as Hplace.
  { intros t q Hq. case_decide as Hd.
    - subst t. assert (q = q0) as -> by congruence.
      apply list_lookup_insert_eq. by eapply lookup_lt_Some.
    - rewrite list_lookup_insert_ne by done. by rewrite app_nil_r. }
  unfold emplace_process. rewrite (at_lookup _ _ _ Hq0).
  cbn [mbind result_bind valid_backup set_processes processes_backup].
  destruct (valid_backup s); cbn [negb mbind result_bind].
  - cbn [threads_count set_processes next_thread].
    destruct (Z.eqb_spec (threads_count s) 0) as [|_]; [lia|].
    eexists. split; [reflexivity|]. rewrite Hwrap.
    split; [unfold full; rewrite <- Hf; unfold shape; cbn; by rewrite ?length_insert|].
    done.
  - rewrite (at_lookup _ _ _ Hb0). cbn [mbind result_bind].
    cbn [threads_count set_processes set_processes_backup next_thread].
    destruct (Z.eqb_spec (threads_count s) 0) as [|_]; [lia|].
    eexists. split; [reflexivity|]. rewrite Hwrap.
    split; [unfold full; rewrite <- Hf; unfold shape; cbn; by rewrite ?length_insert|].
    done.
Qed.

Lemma spawn_all_placed args :
  ∀ s cursor k,
    full s →
    0 < threads_count s ≤ Z.of_nat MAX_THREADS →
    next_thread s = (cursor + Z.of_nat k) mod threads_count s →
    ∃ s', spawn_all args s = Ok s'
          ∧ next_thread s'
            = (cursor + Z.of_nat (k + length args)) mod threads_count s
          ∧ ∀ t q, processes s !! t = Some q →
                   processes s' !! t
                   = Some (q ++ placed (threads_count s) cursor t k args).
Proof.
  induction args as [|[[[name pid] arrival] events] args IH];
    intros s cursor k Hf Htc Hnt.
  - exists s. split; [done|]. split; [by rewrite Nat.add_0_r|].
    intros t q Hq. by rewrite app_nil_r.
  - pose proof (Z.mod_pos_bound (cursor + Z.of_nat k) (threads_count s)) as Hb.
    destruct (emplace_process_returns name pid arrival events s Hf)
      as (s1 & H1 & Hf1 & Ht1 & Hn1 & Hp1); [lia|lia|].
    destruct (IH s1 cursor (S k) Hf1) as (s' & Hs' & Hn' & Hp').
    { lia. }
    { rewrite Hn1, Ht1, Hnt, Zplus_mod_idemp_l. f_equal. lia. }
    exists s'. cbn [spawn_all]. unfold spawn. rewrite H1.
    cbn [mbind result_bind]. split; [exact Hs'|].
    rewrite Ht1 in Hn', Hp'.
    split; [rewrite Hn'; f_equal; cbn [length]; lia|].
    intros t q Hq. rewrite (Hp' _ _ (Hp1 _ _ Hq)), <- app_assoc.
    f_equal. f_equal. unfold placed. cbn [length seq zip zip_with].
    rewrite filter_cons. cbn [fst snd].
    rewrite <- Hnt.
    destruct (decide (t = Z.to_nat (next_thread s))) as [->|Hne].
    + rewrite decide_True by lia. done.
    + rewrite decide_False by lia. done.
Qed.

(** X9. [emplace_process] deals the processes to the cores in turn. From a
    state whose cursor is below [threads_count], with at most [MAX_THREADS]
    cores, a sequence of spawns returns, and appends to the pending queue
    of each core [t] the processes at the positions [i] with
    [(next_thread + i) mod threads_count = t], in spawn order. *)
Theorem spawns_are_dealt_round_robin args s :
  full s →
  0 < threads_count s ≤ Z.of_nat MAX_THREADS →
  0 ≤ next_thread s < threads_count s →
  ∃ s', spawn_all args s = Ok s'
        ∧ next_thread s'
          = (next_thread s + Z.of_nat (length args)) mod threads_count s
        ∧ ∀ t q, processes s !! t = Some q →
                 processes s' !! t
                 = Some (q ++ placed (threads_count s) (next_thread s) t 0 args).
Proof.
  intros Hf Htc Hnt.
  destruct (spawn_all_placed args s (next_thread s) 0 Hf Htc)
    as (s' & Hs' & Hn' & Hp').
  { rewrite Z.add_0_r, Z.mod_small; lia. }
  exists s'. split; [exact Hs'|]. split; [exact Hn'|exact Hp'].
Qed.

Lemma spawns_are_dealt_witness :
  ∃ s', spawn_all [("A", 1, 0, []); ("B", 2, 0, []); ("C", 3, 0, []);
                   ("D", 4, 0, [])] (cores 2) = Ok s'
        ∧ name <$> default [] (processes s' !! 0%nat) = ["A"; "C"]
        ∧ name <$> default [] (processes s' !! 1%nat) = ["B"; "D"].
Proof.
  destruct (spawns_are_dealt_round_robin
              [("A", 1, 0, []); ("B", 2, 0, []); ("C", 3, 0, []);
               ("D", 4, 0, [])] (cores 2))
    as (s' & Hs' & _ & Hp).
  - reflexivity.
  - cbn. unfold MAX_THREADS. lia.
  - cbn. lia.
  - exists s'. split; [exact Hs'|].
    rewrite (Hp 0%nat [] eq_refl), (Hp 1%nat [] eq_refl). split; reflexivity.
Defined.

(** *** The queues by the kind of the first event *)

Lemma dispatch_disciplined thread_idx process s s' :
  disciplined s →
  dispatch_process_by_first_event thread_idx process s = Ok s' →
  disciplined s'.
Proof.
  intros (Hw & Hr & Hrun). unfold dispatch_process_by_first_event. intros H.
  destruct (events process) as [|first_event rest] eqn:Hev; [discriminate|].
  destruct (kind first_event) eqn:Hk; bind_inv H; injection H as <-;
    apply at_Ok in Ha; (split; [|split]); cbn; try done.
  - apply Forall_insert; [done|]. apply Forall_app. split.
    + by eapply (Forall_lookup_1 _ _ _ _ Hr).
    + repeat constructor. unfold first_kind. cbn. by rewrite Hev, <- Hk.
  - apply Forall_insert; [done|]. apply Forall_app. split.
    + by eapply (Forall_lookup_1 _ _ _ _ Hw).
    + repeat constructor. unfold first_kind. by rewrite Hev, <- Hk.
Qed.

Lemma sidetrack_loop_disciplined fuel thread_idx it s s' :
  disciplined s → sidetrack_loop fuel thread_idx it s = Ok s' → disciplined s'.
Proof.
  revert it s. induction fuel as [|fuel IH]; intros it s Hd H; [discriminate|].
  cbn [sidetrack_loop] in H. bind_inv H.
  destruct (a !! it) as [process|]; [|by injection H as <-].
  destruct (negb (arrival process =? timer s)); [eauto|].
  bind_inv H. destruct (negb a0); [eauto|].
  destruct (bool_decide (events process = [])); [eauto|].
  bind_inv H. eapply IH; [|exact H].
  by eapply dispatch_disciplined in Ha1.
Qed.

Lemma update_waiting_loop_disciplined waits kept to_dispatch s kept' to_dispatch' s' :
  Forall (λ p, first_kind p = Some Io) waits →
  Forall (λ p, first_kind p = Some Io) kept →
  update_waiting_loop waits kept to_dispatch s = Ok (kept', to_dispatch', s') →
  Forall (λ p, first_kind p = Some Io) kept'
  ∧ waiting s' = waiting s ∧ ready s' = ready s ∧ running s' = running s.
Proof.
  revert kept to_dispatch s.
  induction waits as [|process waits IH]; intros kept to_dispatch s Hw Hk H.
  - by injection H as <- <- <-.
  - apply Forall_cons_1 in Hw as [Hp Hw]. cbn [update_waiting_loop] in H.
    destruct (events process) as [|current_event rest] eqn:Hev; [discriminate|].
    bind_inv H. bind_inv H.
    repeat match type of H with
           | (if ?c then _ else _) = _ => destruct c
           end; apply IH in H; try done.
    apply Forall_app. split; [done|]. repeat constructor.
    unfold first_kind in *. cbn. by rewrite Hev in Hp.
Qed.

Lemma dispatch_all_disciplined thread_idx to_dispatch s s' :
  disciplined s → dispatch_all thread_idx to_dispatch s = Ok s' → disciplined s'.
Proof.
  revert s. induction to_dispatch as [|process to_dispatch IH]; intros s Hd H.
  - by injection H as <-.
  - cbn [dispatch_all] in H. bind_inv H. eapply IH; [|exact H].
    by eapply dispatch_disciplined.
Qed.

Lemma update_waiting_list_disciplined thread_idx s s' :
  disciplined s → update_waiting_list thread_idx s = Ok s' → disciplined s'.
Proof.
  intros (Hw & Hr & Hrun). unfold update_waiting_list. intros H.
  bind_inv H. bind_inv H. destruct a0 as [[kept to_dispatch] s1].
  apply at_Ok in Ha.
  destruct (update_waiting_loop_disciplined _ _ _ _ _ _ _
              (Forall_lookup_1 _ _ _ _ Hw Ha) (Forall_nil_2 _) Ha0)
    as (Hk & Hw1 & Hr1 & Hrun1).
  eapply dispatch_all_disciplined; [|exact H].
  split; [|split]; cbn; rewrite ?Hw1, ?Hr1, ?Hrun1; try done.
  by apply Forall_insert.
Qed.

Lemma update_running_disciplined thread_idx s s' :
  disciplined s → update_running thread_idx s = Ok s' → disciplined s'.
Proof.
  intros Hd. pose proof Hd as (Hw & Hr & Hrun).
  unfold update_running. intros H. bind_inv H.
  destruct a as [process|]; [|by injection H as <-].
  destruct (events process) as [|current_event rest] eqn:Hev; [discriminate|].
  apply at_Ok in Ha. bind_inv H. bind_inv H.
  match type of H with (if ?c then _ else _) = _ => destruct c end.
  - bind_inv H. injection H as <-.
    assert (disciplined a1) as (Hw2 & Hr2 & Hrun2).
    { match type of Ha2 with (if ?c then _ else _) = _ => destruct c end.
      - by eapply dispatch_disciplined.
      - by injection Ha2 as <-. }
    split; [|split]; cbn; try done. by apply Forall_insert.
  - injection H as <-. split; [|split]; cbn; try done.
    apply Forall_insert; [done|]. intros p [= <-].
    pose proof (Forall_lookup_1 _ _ _ _ Hrun Ha _ eq_refl) as Hp.
    unfold first_kind in *. cbn. by rewrite Hev in Hp.
Qed.

Lemma fcfs_loop_disciplined n thread_idx sim sim' :
  disciplined sim → fcfs_loop n thread_idx sim = Ok sim' → disciplined sim'.
Proof.
  revert thread_idx sim. induction n as [|n IH]; intros thread_idx sim Hd H.
  - by injection H as <-.
  - cbn [fcfs_loop] in H. bind_inv H.
    destruct a as [|process rest]; [by injection H as <-|].
    bind_inv H. eapply IH; [|exact H]. destruct Hd as (Hw & Hr & Hrun).
    apply at_Ok in Ha.
    pose proof (Forall_lookup_1 _ _ _ _ Hr Ha) as Hq.
    apply Forall_cons_1 in Hq as [Hp Hq].
    split; [|split]; cbn; try done.
    + by apply Forall_insert.
    + apply Forall_insert; [done|]. by intros p [= <-].
Qed.

Lemma rr_loop_disciplined quantum n thread_idx sim sim' :
  disciplined sim → rr_loop quantum n thread_idx sim = Ok sim' → disciplined sim'.
Proof.
  revert thread_idx sim. induction n as [|n IH]; intros thread_idx sim Hd H.
  - by injection H as <-.
  - cbn [rr_loop] in H. bind_inv H.
    destruct a as [|process rest]; [by injection H as <-|].
    bind_inv H.
    destruct (events process) as [|next_event evs] eqn:Hev; [discriminate|].
    bind_inv H. eapply IH; [|exact H]. destruct Hd as (Hw & Hr & Hrun).
    apply at_Ok in Ha.
    pose proof (Forall_lookup_1 _ _ _ _ Hr Ha) as Hq.
    apply Forall_cons_1 in Hq as [Hp Hq].
    split; [|split]; cbn; try done.
    + by apply Forall_insert.
    + apply Forall_insert; [done|]. intros p [= <-].
      destruct (quantum <? duration next_event); [done|exact Hp].
Qed.

Lemma apply_policy_disciplined policy sim sim' :
  disciplined sim → apply_policy policy sim = Ok sim' → disciplined sim'.
Proof.
  unfold apply_policy. destruct (callback_ policy).
  - apply fcfs_loop_disciplined.
  - apply rr_loop_disciplined.
Qed.

Lemma step_thread_disciplined fuel thread_idx s s' :
  disciplined s → step_thread fuel thread_idx s = Ok s' → disciplined s'.
Proof.
  intros Hd. unfold step_thread, sidetrack_processes. intros H.
  bind_inv H. apply sidetrack_loop_disciplined in Ha; [|done].
  bind_inv H. apply update_waiting_list_disciplined in Ha0; [|done].
  bind_inv H. apply update_running_disciplined in Ha1; [|done].
  bind_inv H. bind_inv H.
  assert (disciplined a3) as (Hw & Hr & Hrun).
  { destruct a2; [by injection Ha3 as <-|]. by eapply apply_policy_disciplined. }
  bind_inv H. bind_inv H. bind_inv H. injection H as <-.
  apply at_Ok in Ha5.
  pose proof (Forall_lookup_1 _ _ _ _ Hr Ha5) as Hq.
  clear -Hw Hr Hrun Hq.
  assert (∀ front rest, a5 = front :: rest →
            disciplined
              (set_ready (set_running a3 (<[thread_idx:=Some front]> (running a3)))
                 (<[thread_idx:=rest]> (ready a3)))) as Hnet.
  { intros front rest ->. apply Forall_cons_1 in Hq as [Hp Hq].
    split; [|split]; cbn; try done.
    - by apply Forall_insert.
    - apply Forall_insert; [done|]. by intros p [= <-]. }
  assert (disciplined a3) as Hd3 by done.
  repeat match goal with
         | |- context [match ?x with _ => _ end] => destruct x
         end; try done; try (by apply Hnet);
    try (destruct (Hnet _ _ eq_refl) as (? & ? & ?); by split).
Qed.

Lemma step_loop_disciplined fuel n thread_idx s s' :
  disciplined s → step_loop fuel n thread_idx s = Ok s' → disciplined s'.
Proof.
  revert thread_idx s. induction n as [|n IH]; intros thread_idx s Hd H.
  - by injection H as <-.
  - cbn [step_loop] in H. bind_inv H. eapply IH; [|exact H].
    by eapply step_thread_disciplined.
Qed.

Lemma step_disciplined fuel s s' :
  disciplined s → step fuel s = Ok s' → disciplined s'.
Proof.
  intros Hd. unfold step. intros H. bind_inv H. injection H as <-.
  by eapply step_loop_disciplined in Ha.
Qed.

(** X10. In every reachable state the processes of [waiting] start with an Io
    event, and those of [ready] and of the running slots start with a Cpu
    event: none of them has an empty event queue. *)
Theorem reachable_queues_are_disciplined s : reachable s → disciplined s.
Proof.
  induction 1 as [policy|fuel s s' _ IH H|name pid arrival events s ret s' _ IH H
                 |s s' _ IH H| | | | | | ]; try exact IHreachable.
  - unfold disciplined. cbn. repeat split; repeat constructor; done.
  - by eapply step_disciplined.
  - unfold emplace_process in H. bind_inv H. bind_inv H.
    destruct (threads_count a0 =? 0); [discriminate|]. injection H as _ <-.
    cbn [valid_backup set_processes negb] in Ha0.
    destruct (valid_backup s); cbn [negb] in Ha0; [|bind_inv Ha0];
      by injection Ha0 as <-.
  - unfold restart in H. bind_inv H. bind_inv H. by injection H as <-.
Qed.

Lemma reachable_queues_witness :
  ∃ s, spawn_all [("B", 1, 0, [mkEvent Cpu 1 half; mkEvent Io 1 half;
                               mkEvent Cpu 1 half])] (cores 1)
       ≫= steps 5 2 = Ok s
       ∧ disciplined s
       ∧ (first_kind <$> default [] (waiting s !! 0%nat)) = [Some Io].
Proof.
  let r := eval vm_compute in
             (spawn_all [("B", 1, 0, [mkEvent Cpu 1 half; mkEvent Io 1 half;
                                      mkEvent Cpu 1 half])] (cores 1)) in
  lazymatch r with
  | Ok ?s1 =>
      let r2 := eval vm_compute in (steps 5 2 s1) in
      lazymatch r2 with
      | Ok ?s =>
          assert (spawn_all [("B", 1, 0, [mkEvent Cpu 1 half; mkEvent Io 1 half;
                                          mkEvent Cpu 1 half])] (cores 1)
                  = Ok s1) as H1 by (vm_compute; reflexivity);
          assert (steps 5 2 s1 = Ok s) as H2 by (vm_compute; reflexivity);
          exists s; split; [rewrite H1; exact H2|];
          split; [|reflexivity];
          apply reachable_queues_are_disciplined;
          eapply reachable_steps; [|exact H2];
          eapply reachable_spawn_all; [|exact H1];
          apply reachable_threads_count, reachable_new
      end
  end.
Defined.

(** *** Policy names *)

(** X11. No policy can be read back from its own name: the name that
    [named_scheduler_from_policy] gives a policy, the one of
    [policy_name_from_kind], is none of the spellings that
    [try_policy_from_str] accepts. *)
Theorem policy_names_are_not_parsed_back policy :
  try_policy_from_str (name_ (named_scheduler_from_policy policy)) = None
  ∧ try_policy_from_str (policy_name_from_kind policy) = None.
Proof. by destruct policy. Qed.

(** *** The result of [evaluate_ast], and the argument checks of [spawn_process] *)

Lemma evaluate_statements_has_value ast fuel statements :
  Forall (λ statement, ∃ id, statement = ExpressionStatement id) statements →
  ∀ failed st o st',
    evaluate_statements ast fuel statements failed st = Ok (o, st') →
    ∃ b, o = Some b.
Proof.
  induction 1 as [|statement statements [id ->] _ IH]; intros failed st o st' H.
  - injection H as <- _. by eexists.
  - cbn [evaluate_statements evaluate_statement] in H.
    unfold mbind, interp_bind, lift, has_value in H.
    destruct (expression_by_id ast id) as [expr| | | |]; try discriminate.
    destruct (evaluate_expression ast fuel expr st) as [[o1 st1]| | | |];
      try discriminate.
    by eapply IH.
Qed.

(** X12. [evaluate_ast] returns an optional that holds a value whenever it
    returns, on a program of expression statements: no failure of an
    expression reaches the result of [eval], which is
    [evaluate_ast().has_value()]. *)
Theorem evaluate_ast_always_has_a_value fuel ast st o st' :
  Forall (λ statement, ∃ id, statement = ExpressionStatement id) (statements ast) →
  evaluate_ast fuel ast st = Ok (o, st') →
  ∃ b, o = Some b.
Proof. intros Hs H. by eapply evaluate_statements_has_value. Qed.

Lemma evaluate_ast_always_has_a_value_witness :
  ∃ st', evaluate_ast 5 (mkAst [ExpressionStatement 0%nat]
                           [Call "spawn_process" [1]%nat; Number "x"])
           (initial_state (cores 1) some_random)
         = Ok (Some false, st').
Proof.
  let r := eval vm_compute in
             (evaluate_ast 5 (mkAst [ExpressionStatement 0%nat]
                                [Call "spawn_process" [1]%nat; Number "x"])
                (initial_state (cores 1) some_random)) in
  lazymatch r with
  | Ok (?o, ?st') =>
      assert (evaluate_ast 5 (mkAst [ExpressionStatement 0%nat]
                                [Call "spawn_process" [1]%nat; Number "x"])
                (initial_state (cores 1) some_random) = Ok (o, st')) as H
        by (vm_compute; reflexivity);
      assert (Forall (λ statement, ∃ id, statement = ExpressionStatement id)
                [ExpressionStatement 0%nat]) as Hs
        by (apply Forall_cons_2; [by eexists|apply Forall_nil_2]);
      destruct (evaluate_ast_always_has_a_value 5
                  (mkAst [ExpressionStatement 0%nat]
                     [Call "spawn_process" [1]%nat; Number "x"])
                  _ _ _ Hs H) as [b Hb];
      exists st'; exact H
  end.
Defined.

(** Unfolds the sequencing of the interpreter on a state at hand. *)
Ltac run_interp :=
  repeat (progress (unfold mbind, interp_bind, mret, interp_ret, lift, at_,
                      discard, report, try_;
                    cbn [lookup list_lookup as_string_or as_number_or
                           as_value_list_or];
                    cbv beta iota)).

Tactic Notation "run_interp" "in" hyp(H) :=
  repeat (progress (unfold mbind, interp_bind, mret, interp_ret, lift, at_,
                      discard, report, try_ in H;
                    cbn [lookup list_lookup as_string_or as_number_or
                           as_value_list_or] in H;
                    cbv beta iota in H)).



(** *** The events of [spawn_process] *)

Lemma list_as_events_deque_loop_converts list_ :
  Forall event_tuple list_ →
  ∀ events st,
    ∃ events',
      list_as_events_deque_loop list_ events st
      = Ok (Some (events ++ events'), drawn st (length list_))
      ∧ Forall2 converts_to list_ events'.
Proof.
  induction 1 as [|v list_ (kind_str & kind & duration & more & -> & Hk) _ IH];
    intros events st.
  - exists []. split; [|constructor]. rewrite app_nil_r. by destruct st as [? ? ? []].
  - rewrite list_as_events_deque_loop_tuple, Hk.
    match goal with
    | |- ∃ _, list_as_events_deque_loop _ (_ ++ [?e]) ?st1 = _ ∧ _ =>
        destruct (IH (events ++ [e]) st1) as (events' & -> & Hconv);
        exists (e :: events')
    end.
    split.
    + rewrite <- app_assoc. cbn [app]. f_equal. f_equal.
      unfold drawn. cbn. do 2 f_equal. lia.
    + constructor; [|done]. exists kind_str, more. cbn.
      split; done.
Qed.

(** X14. On a list whose elements all start with a recognised kind and a
    number, the conversion returns one event for each element, in order,
    with the kind and the duration of the element; it draws one random
    number for each and prints nothing. A duration of 0 and values after
    the second one are accepted. *)
Theorem events_conversion_keeps_kinds_and_durations list_ st :
  Forall event_tuple list_ →
  ∃ events,
    list_as_events_deque list_ st = Ok (Some events, drawn st (length list_))
    ∧ Forall2 converts_to list_ events.
Proof.
  intros H.
  destruct (list_as_events_deque_loop_converts list_ H [] st) as (events & He & Hc).
  by exists events.
Qed.

Lemma events_conversion_witness_kinds :
  ∃ events,
    list_as_events_deque
      [ValueList [VString "Io"; VNumber 0; VNumber 9];
       ValueList [VString "Cpu"; VNumber 3]]
      (initial_state (cores 1) some_random)
    = Ok (Some events, drawn (initial_state (cores 1) some_random) 2)
    ∧ (λ e, (kind e, duration e)) <$> events = [(Io, 0); (Cpu, 3)].
Proof.
  destruct (events_conversion_keeps_kinds_and_durations
              [ValueList [VString "Io"; VNumber 0; VNumber 9];
               ValueList [VString "Cpu"; VNumber 3]]
              (initial_state (cores 1) some_random))
    as (events & He & Hc).
  - apply Forall_cons_2; [by exists "Io", Io, 0, [VNumber 9]|].
    apply Forall_cons_2; [by exists "Cpu", Cpu, 3, []|]. apply Forall_nil_2.
  - exists events. split; [exact He|].
    vm_compute in He. by injection He as <-.
Defined.

(** *** The pids of [spawn_random_process] *)

Lemma existsb_Zeqb (x : Z) (l : list Z) :
  existsb (Z.eqb x) l = bool_decide (x ∈ l).
Proof.
  induction l as [|y l IH]; [done|]. cbn [existsb]. rewrite IH.
  destruct (Z.eqb_spec x y) as [->|Hne]; cbn [orb].
  - symmetry. apply bool_decide_eq_true_2, list_elem_of_here.
  - apply bool_decide_ext. rewrite elem_of_cons. split; [tauto|].
    intros [Heq|Hin]; [congruence|done].
Qed.

(** The rejection loop returns a pid that has not been drawn before; it
    only draws random numbers. *)
Lemma fresh_pid_loop_fresh fuel :
  ∀ pid st o st',
    fresh_pid_loop fuel pid st = Ok (o, st') →
    ∃ pid', o = Some pid'
            ∧ (pid' ∉ spawned_pids st)
            ∧ sim st' = sim st
            ∧ diagnostics st' = diagnostics st
            ∧ spawned_pids st' = spawned_pids st.
Proof.
  induction fuel as [|fuel IH]; intros pid st o st' H; [discriminate|].
  cbn [fresh_pid_loop] in H. rewrite existsb_Zeqb in H.
  case_bool_decide as Hin.
  - run_interp in H. unfold get_sim, random_natural in H. cbv beta iota in H.
    apply IH in H. cbn in H. exact H.
  - injection H as <- <-. by exists pid.
Qed.

Lemma random_events_loop_frame n :
  ∀ events st o st',
    random_events_loop n events st = Ok (o, st') →
    (∃ events', o = Some events')
    ∧ sim st' = sim st
    ∧ diagnostics st' = diagnostics st
    ∧ spawned_pids st' = spawned_pids st.
Proof.
  induction n as [|n IH]; intros events st o st' H.
  - injection H as <- <-. by split; [eexists|].
  - cbn [random_events_loop] in H. unfold process_random_event in H.
    run_interp in H. unfold get_sim, random_natural, random_float in H.
    cbv beta iota in H. apply IH in H. cbn in H. exact H.
Qed.

(** X15. [spawn_random_process] never spawns a pid that it has spawned before:
    when it returns, it returns a value, the pid of the process that it
    appends to the pending queue under the cursor is new among the pids
    drawn so far, and these pids stay free of duplicates. *)
Theorem spawn_random_process_draws_fresh_pids fuel arguments st o st' :
  NoDup (spawned_pids st) →
  spawn_random_process_builtin fuel arguments st = Ok (o, st') →
  o = Some Monostate
  ∧ NoDup (spawned_pids st')
  ∧ ∃ pid' arrival events q,
      (pid' ∉ spawned_pids st)
      ∧ spawned_pids st' = spawned_pids st ++ [pid']
      ∧ processes (sim st) !! Z.to_nat (next_thread (sim st)) = Some q
      ∧ processes (sim st') !! Z.to_nat (next_thread (sim st))
        = Some (q ++ [new_process "Process" pid' arrival events]).
Proof.
  intros Hnd H. unfold spawn_random_process_builtin in H.
  assert (∀ b : bool,
            (if b
             then discard (report_function_call_mismatched_argc (A:=unit)
                             "spawn_process" (size arguments))
             else mret ()) st
            = Ok (Some (), if b then printed st [ErrorMismatchedArgc "spawn_process"
                                                    (size arguments)]
                           else st)) as Hargc.
  { by intros []. }
  unfold mbind at 1, interp_bind at 1 in H. rewrite Hargc in H. clear Hargc.
  set (st0 := if negb (size arguments =? 0) then _ else st) in H.
  assert (sim st0 = sim st ∧ spawned_pids st0 = spawned_pids st) as [Hs0 Hp0].
  { subst st0. by destruct (negb _). }
  clearbody st0.
  unfold mbind at 1, interp_bind at 1, get_sim at 1 in H.
  unfold mbind at 1, interp_bind at 1, random_natural at 1 in H.
  unfold mbind at 1, interp_bind at 1 in H.
  match type of H with
  | match fresh_pid_loop fuel ?p ?s with _ => _ end = _ =>
      destruct (fresh_pid_loop fuel p s) as [[o1 st1]| | | |] eqn:Hloop;
        try discriminate;
      destruct (fresh_pid_loop_fresh _ _ _ _ _ Hloop)
        as (pid' & -> & Hfresh & Hs1 & Hd1 & Hp1)
  end.
  cbn in Hfresh, Hs1, Hp1.
  unfold mbind at 1, interp_bind at 1, push_spawned_pid at 1 in H.
  unfold mbind at 1, interp_bind at 1, random_natural at 1 in H.
  unfold mbind at 1, interp_bind at 1, random_natural at 1 in H.
  unfold mbind at 1, interp_bind at 1 in H.
  match type of H with
  | match random_events_loop ?n ?e ?s with _ => _ end = _ =>
      destruct (random_events_loop n e s) as [[o2 st2]| | | |] eqn:Hev;
        try discriminate;
      destruct (random_events_loop_frame _ _ _ _ _ Hev)
        as ([events ->] & Hs2 & Hd2 & Hp2)
  end.
  cbn in Hs2, Hp2.
  unfold mbind at 1, interp_bind at 1, get_sim at 1 in H.
  unfold mbind at 1, interp_bind at 1, lift at 1 in H.
  destruct (emplace_process _ _ _ _ (sim st2)) as [[ret s3]| | | |] eqn:Hem;
    try discriminate.
  run_interp in H. unfold put_sim in H. injection H as <- <-.
  split; [done|]. cbn. rewrite Hp2, Hp1, Hp0.
  split.
  { apply list.NoDup_app. split; [done|]. split; [|apply NoDup_singleton].
    intros x Hx Hx'. apply list_elem_of_singleton in Hx' as ->.
    by rewrite Hp0 in Hfresh. }
  rewrite Hp0 in Hfresh. rewrite Hs2, Hs1, Hs0 in Hem.
  unfold emplace_process in Hem. bind_inv Hem. bind_inv Hem.
  destruct (threads_count a0 =? 0); [discriminate|]. injection Hem as _ <-.
  apply at_Ok in Ha. eexists pid', _, events, a.
  split; [done|]. split; [done|]. split; [done|].
  cbn [valid_backup set_processes negb] in Ha0.
  destruct (valid_backup (sim st)); cbn [negb] in Ha0; [|bind_inv Ha0];
    injection Ha0 as <-; cbn; apply list_lookup_insert_eq;
    by eapply lookup_lt_Some.
Qed.

Lemma spawn_random_process_witness :
  ∃ st1 st2,
    spawn_random_process_builtin 5 [] (initial_state (cores 1) some_random)
    = Ok (Some Monostate, st1)
    ∧ spawn_random_process_builtin 5 [] st1 = Ok (Some Monostate, st2)
    ∧ NoDup (spawned_pids st2)
    ∧ length (spawned_pids st2) = 2%nat.
Proof.
  let r1 := eval vm_compute in
              (spawn_random_process_builtin 5 []
                 (initial_state (cores 1) some_random)) in
  lazymatch r1 with
  | Ok (_, ?st1) =>
      let r2 := eval vm_compute in (spawn_random_process_builtin 5 [] st1) in
      lazymatch r2 with
      | Ok (_, ?st2) =>
          assert (spawn_random_process_builtin 5 []
                    (initial_state (cores 1) some_random)
                  = Ok (Some Monostate, st1)) as H1 by (vm_compute; reflexivity);
          assert (spawn_random_process_builtin 5 [] st1
                  = Ok (Some Monostate, st2)) as H2 by (vm_compute; reflexivity);
          destruct (spawn_random_process_draws_fresh_pids _ _ _ _ _
                      (NoDup_nil_2 : NoDup (spawned_pids
                                              (initial_state (cores 1) some_random)))
                      H1)
            as (_ & Hnd1 & _);
          destruct (spawn_random_process_draws_fresh_pids _ _ _ _ _ Hnd1 H2)
            as (_ & Hnd2 & _);
          exists st1, st2; split; [exact H1|]; split; [exact H2|]; split; [exact Hnd2|reflexivity]
      end
  end.
Defined.

(** *** [Gui::grid] *)

Import Gui.

Lemma grid_row_cells cols count r :
  0 ≤ r → 0 ≤ cols < 2 ^ 64 → 0 ≤ count < 2 ^ 64 →
  ∀ todo col,
    0 ≤ col → col + Z.of_nat todo = cols →
    let idx := r * cols + col in
    let idx' := Z.min (idx + Z.of_nat todo) (Z.max idx count) in
    grid_row todo cols count col idx
    = (idx', mjoin (cell cols count <$> seqZ idx (idx' - idx))).
Proof.
  intros Hr Hcols Hcount.
  induction todo as [|todo IH]; intros col Hcol Hsum idx idx'.
  - cbn. subst idx'. rewrite Z.add_0_r, Z.min_l by lia.
    rewrite Z.sub_diag. reflexivity.
  - cbn [grid_row].
    destruct (Z.leb_spec count idx) as [Hle|Hlt].
    + subst idx'. rewrite Z.max_l, Z.min_r by lia.
      rewrite Z.sub_diag. reflexivity.
    + assert (wrap64 (idx + 1) = idx + 1) as ->.
      { unfold wrap64. apply Z.mod_small. subst idx. nia. }
      assert (wrap64 (col + 1) = col + 1) as ->.
      { unfold wrap64. apply Z.mod_small. lia. }
      assert (wrap64 (cols - 1) = cols - 1) as ->.
      { unfold wrap64. apply Z.mod_small. lia. }
      specialize (IH (col + 1) ltac:(lia) ltac:(lia)). cbn zeta in IH.
      replace (r * cols + (col + 1)) with (idx + 1) in IH by (subst idx; lia).
      rewrite IH.
      assert (idx' = Z.min (idx + 1 + Z.of_nat todo) (Z.max (idx + 1) count))
        as <- by (subst idx'; lia).
      f_equal.
      rewrite (seqZ_cons idx) by (subst idx'; lia).
      rewrite fmap_cons. cbn [mjoin list_join].
      replace (Z.pred (idx' - idx)) with (idx' - (idx + 1)) by lia.
      replace (Z.succ idx) with (idx + 1) by lia.
      unfold cell at 2. cbn [app].
      assert (idx `mod` cols = col) as ->; [|reflexivity].
      subst idx. rewrite Z.add_comm, Z_mod_plus_full. apply Z.mod_small. lia.
Qed.

Lemma grid_rows_cells cols count :
  0 ≤ cols < 2 ^ 64 → 0 ≤ count < 2 ^ 64 →
  ∀ todo r,
    0 ≤ r →
    let idx := Z.min (r * cols) count in
    let idx' := Z.min ((r + Z.of_nat todo) * cols) count in
    grid_rows todo cols count idx
    = mjoin (cell cols count <$> seqZ idx (idx' - idx)).
Proof.
  intros Hcols Hcount.
  induction todo as [|todo IH]; intros r Hr idx idx'.
  - cbn. subst idx' idx. rewrite Z.add_0_r, Z.sub_diag. reflexivity.
  - cbn [grid_rows].
    destruct (Z.le_gt_cases count (r * cols)) as [Hle|Hlt].
    + (* the cells are exhausted *)
      assert (idx = count) as Hidx by (subst idx; lia).
      assert (idx' = count) as Hidx' by (subst idx'; nia).
      rewrite Hidx, Hidx', Z.sub_diag. cbn.
      assert (∀ n col, grid_row n cols count col count = (count, [])) as Hrow.
      { intros [|n] col; [done|]. cbn. by rewrite Z.leb_refl. }
      rewrite Hrow.
      specialize (IH (r + 1) ltac:(lia)). cbn zeta in IH.
      replace (Z.min ((r + 1) * cols) count) with count in IH by nia.
      replace (Z.min ((r + 1 + Z.of_nat todo) * cols) count) with count in IH
        by nia.
      rewrite IH, Z.sub_diag. reflexivity.
    + assert (idx = r * cols + 0) as Hidx by (subst idx; lia).
      rewrite Hidx.
      rewrite (grid_row_cells cols count r Hr Hcols Hcount (Z.to_nat cols) 0)
        by lia.
      rewrite Z2Nat.id by lia.
      replace (Z.min (r * cols + 0 + cols) (Z.max (r * cols + 0) count))
        with (Z.min ((r + 1) * cols) count) by lia.
      specialize (IH (r + 1) ltac:(lia)). cbn zeta in IH. rewrite IH.
      replace (r + 1 + Z.of_nat todo) with (r + Z.of_nat (S todo)) by lia.
      fold idx'. rewrite <- Hidx.
      set (mid := Z.min ((r + 1) * cols) count).
      rewrite <- join_app, <- fmap_app.
      replace (idx' - idx) with ((mid - idx) + (idx' - mid)) by lia.
      rewrite seqZ_app by (subst mid idx idx'; nia).
      replace (idx + (mid - idx)) with mid by lia. reflexivity.
Qed.

(** X16. [grid] lays out the first [min(count, rows * cols)] indices in order,
    row by row: the callback runs once on each of them, and [SameLine]
    follows a cell exactly when the cell is not the last of its row and
    not the last of the grid. *)
Theorem grid_lays_out_the_cells_in_order rows cols count :
  0 ≤ rows < 2 ^ 64 → 0 ≤ cols < 2 ^ 64 → 0 ≤ count < 2 ^ 64 →
  grid rows cols count
  = mjoin (cell cols count <$> seqZ 0 (Z.min (rows * cols) count)).
Proof.
  intros Hrows Hcols Hcount. unfold grid.
  pose proof (grid_rows_cells cols count Hcols Hcount (Z.to_nat rows) 0
                ltac:(lia)) as H.
  cbn zeta in H. rewrite Z.mul_0_l in H.
  rewrite Z.min_l in H by lia.
  rewrite Z2Nat.id, Z.add_0_l, Z.sub_0_r in H by lia. exact H.
Qed.

Lemma grid_lays_out_witness :
  grid 2 2 3 = [Cell 0; SameLine; Cell 1; Cell 2].
Proof.
  rewrite (grid_lays_out_the_cells_in_order 2 2 3) by lia. reflexivity.
Defined.

(** *** [Gui::ComboManager] *)

Import ComboManager.

Lemma register_registered key d states a :
  states !! key = Some a → register_combo_by_id key d states = states.
Proof.
  intros H. unfold register_combo_by_id.
  by rewrite bool_decide_eq_true_2 by (by rewrite H).
Qed.

Lemma register_all_registered key ds states a :
  states !! key = Some a → register_all key ds states = states.
Proof.
  revert states. induction ds as [|d ds IH]; intros states H; [done|].
  cbn. rewrite (register_registered _ _ _ _ H). by apply IH.
Qed.

(** X17. The first registration of a combo decides its selection: whatever the
    defaults of the later registrations are, the selection read afterwards
    is the first default, and the map is the one of the first
    registration. *)
Theorem first_registration_wins key d ds states :
  states !! key = None →
  selected_variant_by_id key (register_all key (d :: ds) states)
  = (Reference d, <[key := AnyUint8 d]> states).
Proof.
  intros H. cbn [register_all foldl].
  fold (register_all key ds (register_combo_by_id key d states)).
  unfold register_combo_by_id at 1.
  rewrite bool_decide_eq_false_2 by (rewrite H; by intros [? ?]).
  rewrite (register_all_registered _ _ _ (AnyUint8 d))
    by apply lookup_insert_eq.
  unfold selected_variant_by_id, subscript. by rewrite lookup_insert_eq.
Qed.

Lemma first_registration_wins_witness :
  selected_variant_by_id ("SchedulePolicy", 7)
    (register_all ("SchedulePolicy", 7) [1; 0] ∅)
  = (Reference 1, {[ ("SchedulePolicy", 7) := AnyUint8 1 ]}).
Proof.
  rewrite (first_registration_wins ("SchedulePolicy", 7) 1 [0] ∅)
    by apply lookup_empty.
  by rewrite insert_empty.
Defined.

(** X18. A selection read before any registration throws, and leaves an empty
    entry under the key: no registration replaces it afterwards, and every
    later read throws as well. *)
Theorem selection_before_registration_poisons_the_key key states :
  states !! key = None →
  ∃ states',
    selected_variant_by_id key states = (BadAnyCast, states')
    ∧ states' = <[key := AnyEmpty]> states
    ∧ ∀ ds, register_all key ds states' = states'
            ∧ selected_variant_by_id key (register_all key ds states')
              = (BadAnyCast, states').
Proof.
  intros H. eexists. split; [|split; [reflexivity|]].
  - unfold selected_variant_by_id, subscript. by rewrite H.
  - intros ds.
    rewrite (register_all_registered _ _ _ AnyEmpty) by apply lookup_insert_eq.
    split; [done|].
    unfold selected_variant_by_id, subscript. by rewrite lookup_insert_eq.
Qed.

Lemma selection_before_registration_witness :
  ∃ states',
    selected_variant_by_id ("SchedulePolicy", 7) ∅ = (BadAnyCast, states')
    ∧ selected_variant_by_id ("SchedulePolicy", 7)
        (register_combo_by_id ("SchedulePolicy", 7) 1 states')
      = (BadAnyCast, states').
Proof.
  destruct (selection_before_registration_poisons_the_key
              ("SchedulePolicy", 7) ∅ (lookup_empty _))
    as (states' & H & _ & Hreg).
  exists states'. split; [exact H|]. exact (proj2 (Hreg [1])).
Defined.

(** *** [Gui::Plotting::RingBuffer] *)

Import Plotting.

Lemma emplace_point_holds c hist rb p :
  holds c hist rb →
  ∃ rb', emplace_point (x p) (y p) rb = Ok rb' ∧ holds c (hist ++ [p]) rb'.
Proof.
  intros (Hc & (k & Hk & Hkc & Hk0) & Hlen & Hord).
  unfold emplace_point. rewrite Hc, Hlen.
  assert (mkImVec2 (x p) (y p) = p) as -> by by destruct p.
  unfold in_order, offset in Hord. rewrite Hk, Nat2Z.id in Hord.
  destruct (Z.ltb_spec (Z.of_nat (length hist `min` c)) (Z.of_nat c)) as [Hlt|Hge].
  - (* the buffer is not full *)
    assert (length hist < c)%nat as Hh by lia.
    specialize (Hk0 Hh). subst k.
    rewrite drop_0, take_0, app_nil_r in Hord.
    replace (length hist - c)%nat with 0%nat in Hord by lia.
    rewrite drop_0 in Hord.
    eexists. split; [reflexivity|].
    split; [done|]. split.
    { exists 0%nat. cbn. split; [done|]. split; [lia|done]. }
    split.
    { cbn. rewrite !length_app, Hlen. cbn. lia. }
    unfold in_order, offset. cbn [cursor data]. rewrite Hk. cbn.
    rewrite app_nil_r, Hord, length_app. cbn.
    replace (length hist + 1 - c)%nat with 0%nat by lia. done.
  - (* the buffer is full *)
    assert (c ≤ length hist)%nat as Hh by lia.
    assert (length (data rb) = c) as Hlen' by lia.
    unfold im_at. rewrite Hk.
    destruct (Z.ltb_spec (Z.of_nat k) 0) as [|_]; [lia|].
    rewrite Nat2Z.id.
    destruct (lookup_lt_is_Some_2 (data rb) k) as [old Hold]; [lia|].
    rewrite (at_lookup _ _ _ Hold). cbn [mbind result_bind].
    destruct (Z.eqb_spec (Z.of_nat c) 0) as [|_]; [lia|].
    eexists. split; [reflexivity|].
    assert (Z.rem (Z.of_nat k + 1) (Z.of_nat c)
            = Z.of_nat (if decide (S k = c) then 0 else S k)) as Hrem.
    { case_decide as Hd.
      - replace (Z.of_nat k + 1) with (Z.of_nat c) by lia.
        rewrite Z.rem_same by lia. done.
      - rewrite Z.rem_small by lia. lia. }
    split; [done|]. split.
    { eexists. cbn [cursor]. split; [exact Hrem|].
      split; [case_decide; lia|]. rewrite length_app. cbn. lia. }
    split.
    { cbn [data]. rewrite length_insert, length_app. cbn. lia. }
    unfold in_order, offset. cbn [cursor data]. rewrite Hrem, Nat2Z.id.
    rewrite length_app. cbn [length].
    replace (length hist + 1 - c)%nat with (length hist - c + 1)%nat by lia.
    rewrite drop_app_le by lia.
    rewrite <- (drop_drop hist 1 (length hist - c)), <- Hord.
    rewrite (drop_S _ _ _ Hold). cbn [drop app].
    rewrite drop_0.
    rewrite insert_take_drop by lia.
    case_decide as Hd.
    + subst c. rewrite drop_0, take_0, app_nil_r.
      rewrite (drop_ge (data rb) (S k)) by lia. done.
    + rewrite drop_app_ge by (rewrite length_take; lia).
      rewrite length_take, Nat.min_l by lia.
      replace (S k - k)%nat with 1%nat by lia. cbn [drop].
      rewrite drop_0.
      rewrite take_app_ge by (rewrite length_take; lia).
      rewrite length_take, Nat.min_l by lia.
      replace (S k - k)%nat with 1%nat by lia. cbn [take].
      rewrite take_0. by rewrite <- app_assoc.
Qed.

Lemma emplace_points_holds c points :
  ∀ hist rb,
    holds c hist rb →
    ∃ rb', emplace_points points rb = Ok rb' ∧ holds c (hist ++ points) rb'.
Proof.
  induction points as [|p points IH]; intros hist rb H.
  - exists rb. by rewrite app_nil_r.
  - destruct (emplace_point_holds c hist rb p H) as (rb1 & H1 & Hh1).
    destruct (IH _ _ Hh1) as (rb' & H' & Hh').
    exists rb'. cbn [emplace_points]. rewrite H1. cbn [mbind result_bind].
    split; [exact H'|]. by rewrite <- app_assoc in Hh'.
Qed.

(** X19. A ring buffer of capacity [c > 0] that has taken a sequence of points
    holds the last [c] of them, or all of them when they are fewer: that
    many points are stored, and read from [offset()] on, wrapping at the
    end, they are those points from the oldest to the newest. *)
Theorem ring_buffer_keeps_the_last_points (c : nat) points :
  (0 < c)%nat →
  ∃ rb, emplace_points points (new_ring_buffer (Z.of_nat c)) = Ok rb
        ∧ Plotting.size rb = Z.of_nat (length points `min` c)
        ∧ 0 ≤ offset rb < Z.of_nat c
        ∧ in_order rb = drop (length points - c) points.
Proof.
  intros Hc.
  destruct (emplace_points_holds c points [] (new_ring_buffer (Z.of_nat c)))
    as (rb & H & Hcap & (k & Hk & Hkc & _) & Hlen & Hord).
  { split; [done|]. split; [|done]. exists 0%nat. by repeat split. }
  exists rb. split; [exact H|]. cbn [app] in Hlen, Hord.
  split; [unfold Plotting.size; by rewrite Hlen|].
  split; [unfold offset; lia|done].
Qed.

Lemma ring_buffer_witness :
  ∃ rb,
    emplace_points
      [mkImVec2 (F32 1) (F32 1); mkImVec2 (F32 2) (F32 2);
       mkImVec2 (F32 3) (F32 3)]
      (new_ring_buffer 2) = Ok rb
    ∧ Plotting.size rb = 2
    ∧ in_order rb = [mkImVec2 (F32 2) (F32 2); mkImVec2 (F32 3) (F32 3)].
Proof.
  destruct (ring_buffer_keeps_the_last_points 2
              [mkImVec2 (F32 1) (F32 1); mkImVec2 (F32 2) (F32 2);
               mkImVec2 (F32 3) (F32 3)])
    as (rb & H & Hs & _ & Ho); [lia|].
  exists rb. split; [exact H|]. split; [exact Hs|exact Ho].
Defined.

Lemma emplace_points_below_capacity points :
  ∀ rb,
    Z.of_nat (length (data rb) + length points) ≤ capacity rb →
    emplace_points points rb
    = Ok (mkRingBuffer (capacity rb) (cursor rb) (data rb ++ points)).
Proof.
  induction points as [|p points IH]; intros rb Hlen.
  - cbn. rewrite app_nil_r. by destruct rb.
  - cbn [emplace_points]. unfold emplace_point. cbn [length] in Hlen.
    destruct (Z.ltb_spec (Z.of_nat (length (data rb))) (capacity rb)); [|lia].
    cbn [mbind result_bind]. rewrite IH.
    + cbn [capacity cursor data]. rewrite <- app_assoc.
      by destruct p.
    + cbn [capacity data]. rewrite length_app. cbn [length]. lia.
Qed.

(** X20. [clear] empties the buffer and leaves the cursor where it was: the
    points emplaced afterwards, up to the capacity, are stored from index
    0 on, while [offset()] still answers the cursor of before the call. *)
Theorem ring_buffer_clear_keeps_the_cursor rb points :
  Z.of_nat (length points) ≤ capacity rb →
  ∃ rb', emplace_points points (clear rb) = Ok rb'
         ∧ data rb' = points
         ∧ offset rb' = offset rb.
Proof.
  intros Hlen. eexists. split; [|split].
  - apply emplace_points_below_capacity. cbn. lia.
  - reflexivity.
  - reflexivity.
Qed.

Lemma ring_buffer_clear_witness :
  ∃ rb rb',
    emplace_points
      [mkImVec2 (F32 1) (F32 1); mkImVec2 (F32 2) (F32 2);
       mkImVec2 (F32 3) (F32 3)] (new_ring_buffer 2) = Ok rb
    ∧ emplace_points
        [mkImVec2 (F32 4) (F32 4); mkImVec2 (F32 5) (F32 5)] (clear rb) = Ok rb'
    ∧ offset rb' = 1
    ∧ in_order rb' = [mkImVec2 (F32 5) (F32 5); mkImVec2 (F32 4) (F32 4)].
Proof.
  eexists. 
  destruct (ring_buffer_clear_keeps_the_cursor
              (mkRingBuffer 2 1 [mkImVec2 (F32 3) (F32 3); mkImVec2 (F32 2) (F32 2)])
              [mkImVec2 (F32 4) (F32 4); mkImVec2 (F32 5) (F32 5)])
    as (rb' & H & Hd & Ho); [cbn; lia|].
  exists rb'. split; [reflexivity|]. split; [exact H|].
  split; [exact Ho|]. unfold in_order. rewrite Ho, Hd. reflexivity.
Defined.
